(** * The master of the distributed engine (distributed/distributed.c)

    A shallow embedding of the coordination code of the master: the shared
    state guarded by [slave_lock], the quorum wait [get_replies], the
    aggregation [select_best_move], the slave worker ([slave_loop],
    [slave_thread]) and the command log ([distributed_notify],
    [update_cmd], [distributed_genmove]).

    Conventions.
    - A C string is the list of its characters up to, and without, the
      terminating NUL.
    - An [int] is a [Z]; a number read by [sscanf] or [atoi] is converted
      to [int], and the sums of playouts and threads wrap around at 32
      bits ([Libc.int_add]).  Command ids and the two counters of the
      shared state are far from the bounds and are not wrapped.
    - The clock, a [double], is a rational number.  A [float] is a
      rational number, an infinity or a NaN ([Libc.floating]): rounding is
      not modelled.
    - A pointer into [gtp_cmds] is an offset.  A slot of [gtp_replies]
      holds a pointer to the buffer of a slave thread, the index of that
      thread, or [NULL]; the contents of the buffers are given apart, to
      the functions that read through the slots ([buffers]).
    - Every blocking call ([pthread_cond_wait], [fgets], ...) takes its
      outcome from an explicit list of observations supplied by the
      environment; a run that exhausts the list is still blocked. *)

From Stdlib Require Import ZArith QArith List Ascii String Bool Lia Permutation Sorted.
From stdpp Require Import base list.
Import ListNotations.

Local Open Scope Z_scope.

(** ** The C library functions the master uses *)

Module Libc.

Definition cstring := list ascii.

Definition NL : ascii := ascii_of_nat 10.
Definition SP : ascii := ascii_of_nat 32.

Definition code (c : ascii) : Z := Z.of_nat (nat_of_ascii c).

Definition isdigit (c : ascii) : bool := (48 <=? code c) && (code c <=? 57).

Definition isspace (c : ascii) : bool :=
  (code c =? 32) || ((9 <=? code c) && (code c <=? 13)).

Definition tolower (c : ascii) : ascii :=
  if (65 <=? code c) && (code c <=? 90)
  then ascii_of_nat (nat_of_ascii c + 32) else c.

Definition INT_MAX : Z := 2147483647.

(** Conversion of a mathematical integer to [int]. *)
Definition wrap_int (z : Z) : Z := (z + 2 ^ 31) mod 2 ^ 32 - 2 ^ 31.

Definition int_add (a b : Z) : Z := wrap_int (a + b).

Fixpoint cstr_eqb (a b : cstring) : bool :=
  match a, b with
  | [], [] => true
  | x :: a', y :: b' => Ascii.eqb x y && cstr_eqb a' b'
  | _, _ => false
  end.

(** [strcmp(a, b) == 0] *)
Definition strcmp0 (a b : cstring) : bool := cstr_eqb a b.

(** [strcasecmp(a, b) == 0] *)
Definition strcasecmp0 (a b : cstring) : bool :=
  cstr_eqb (map tolower a) (map tolower b).

(** [strncasecmp(a, b, n) == 0] *)
Definition strncasecmp0 (a b : cstring) (n : nat) : bool :=
  strcasecmp0 (firstn n a) (firstn n b).

(** [strchr(s, c)]: the suffix that starts at the first [c]. *)
Fixpoint strchr (s : cstring) (c : ascii) : option cstring :=
  match s with
  | [] => None
  | x :: s' => if Ascii.eqb x c then Some s else strchr s' c
  end.

(** [strspn(s, "0123456789")] *)
Fixpoint strspn_digits (s : cstring) : nat :=
  match s with
  | c :: s' => if isdigit c then S (strspn_digits s') else O
  | [] => O
  end.

Fixpoint skip_space (s : cstring) : cstring :=
  match s with
  | c :: s' => if isspace c then skip_space s' else s
  | [] => []
  end.

Fixpoint scan_digits (acc : Z) (s : cstring) : Z * cstring :=
  match s with
  | c :: s' =>
      if isdigit c then scan_digits (10 * acc + (code c - 48)) s' else (acc, s)
  | [] => (acc, [])
  end.

(** An optional sign. *)
Definition scan_sign (s : cstring) : bool * cstring :=
  match s with
  | c :: s' =>
      if Ascii.eqb c "-" then (true, s')
      else if Ascii.eqb c "+" then (false, s') else (false, s)
  | [] => (false, [])
  end.

Definition starts_with_digit (s : cstring) : bool :=
  match s with c :: _ => isdigit c | [] => false end.

(** The conversion [%d] of [sscanf], also the number that [strtol] reads:
    white space, an optional sign, at least one digit.  The value is
    converted to [int]. *)
Definition scan_int (s : cstring) : option (Z * cstring) :=
  let '(neg, s1) := scan_sign (skip_space s) in
  if starts_with_digit s1 then
    let '(v, rest) := scan_digits 0 s1 in
    Some (wrap_int (if neg then - v else v), rest)
  else None.

Definition atoi (s : cstring) : Z :=
  match scan_int s with Some (v, _) => v | None => 0 end.

Fixpoint take_word (n : nat) (s : cstring) : cstring :=
  match n, s with
  | S n', c :: s' => if isspace c then [] else c :: take_word n' s'
  | _, _ => []
  end.

(** The conversion [%Ns]: white space, then at most [n] characters that are
    not white space, at least one. *)
Definition scan_word (n : nat) (s : cstring) : option (cstring * cstring) :=
  let s1 := skip_space s in
  match take_word n s1 with
  | [] => None
  | w => Some (w, skipn (length w) s1)
  end.

(** A [float]: a finite number, an infinity or a NaN.  A finite number is
    the rational that the text or the operation denotes: rounding, and
    with it the overflow to an infinity, is not modelled, and neither is
    the sign of a zero. *)
Inductive floating := Finite (q : Q) | Infinite (negative : bool) | NaN.

Definition Qneg_bool (q : Q) : bool := negb (Qle_bool 0 q).

(** The conversion of an [int] to [float]. *)
Definition of_int (n : Z) : floating := Finite (inject_Z n).

Definition fadd (a b : floating) : floating :=
  match a, b with
  | NaN, _ | _, NaN => NaN
  | Finite x, Finite y => Finite (x + y)
  | Infinite s, Finite _ | Finite _, Infinite s => Infinite s
  | Infinite s, Infinite t => if Bool.eqb s t then Infinite s else NaN
  end.

Definition fmul (a b : floating) : floating :=
  match a, b with
  | NaN, _ | _, NaN => NaN
  | Finite x, Finite y => Finite (x * y)
  | Infinite s, Finite y | Finite y, Infinite s =>
      if Qeq_bool y 0 then NaN else Infinite (xorb s (Qneg_bool y))
  | Infinite s, Infinite t => Infinite (xorb s t)
  end.

Definition fdiv (a b : floating) : floating :=
  match a, b with
  | NaN, _ | _, NaN => NaN
  | Finite x, Finite y =>
      if Qeq_bool y 0
      then (if Qeq_bool x 0 then NaN else Infinite (Qneg_bool x))
      else Finite (x / y)
  | Infinite s, Finite y => Infinite (xorb s (Qneg_bool y))
  | Finite _, Infinite _ => Finite 0
  | Infinite _, Infinite _ => NaN
  end.

Definition isxdigit (c : ascii) : bool :=
  isdigit c || ((97 <=? code (tolower c)) && (code (tolower c) <=? 102)).

Definition xdigit_value (c : ascii) : Z :=
  if isdigit c then code c - 48 else code (tolower c) - 87.

(** The digits of a mantissa, decimal or hexadecimal, after the value
    [acc] and the [n] digits already read. *)
Fixpoint scan_mantissa (hexa : bool) (acc : Z) (n : nat) (s : cstring)
  : Z * nat * cstring :=
  match s with
  | c :: s' =>
      if (if hexa then isxdigit c else isdigit c)
      then scan_mantissa hexa ((if hexa then 16 else 10) * acc + xdigit_value c)
             (S n) s'
      else (acc, n, s)
  | [] => (acc, n, [])
  end.

(** An exponent part: the letter ([e], or [p] for a hexadecimal number),
    an optional sign, decimal digits.  A letter that no digit follows is
    read and counts for nothing. *)
Definition scan_exponent (letter : ascii) (s : cstring) : Z :=
  match s with
  | c :: s' =>
      if Ascii.eqb (tolower c) letter then
        let '(neg, s1) := scan_sign s' in
        if starts_with_digit s1 then
          let v := fst (scan_digits 0 s1) in if neg then - v else v
        else 0
      else 0
  | [] => 0
  end.

(** A number without its sign: the digits with an optional point, then
    an optional exponent.  A decimal number needs one digit at least.
    For a hexadecimal number [s] is the text after [0x]: a digit or a
    point must follow, and a point without any digit leaves the value of
    the leading [0]. *)
Definition scan_number (hexa : bool) (s : cstring) : option Q :=
  let '(ip, nint, s2) := scan_mantissa hexa 0 0 s in
  let '(m, nfrac, s3, point) :=
    match s2 with
    | c :: s2' =>
        if Ascii.eqb c "." then (scan_mantissa hexa ip 0 s2', true)
        else (ip, O, s2, false)
    | [] => (ip, O, s2, false)
    end in
  if (nint + nfrac =? 0)%nat then
    (if hexa && point then Some 0%Q else None)
  else if hexa then
    Some (inject_Z m
          * Qpower (2 # 1) (scan_exponent "p" s3 - 4 * Z.of_nat nfrac))%Q
  else
    Some (inject_Z m
          * Qpower (10 # 1) (scan_exponent "e" s3 - Z.of_nat nfrac))%Q.

Definition hexa_prefix (s : cstring) : bool :=
  match s with
  | c0 :: c1 :: _ => Ascii.eqb c0 "0" && Ascii.eqb (tolower c1) "x"
  | _ => false
  end.

(** The conversion [%f] of [sscanf], as the C library reads it: white
    space and an optional sign; then [nan], or [inf], which is either not
    followed by an [i] or is the start of [infinity], in any case of the
    letters; or a hexadecimal number after [0x]; or a decimal number. *)
Definition scan_float (s : cstring) : option floating :=
  let '(neg, s1) := scan_sign (skip_space s) in
  match s1 with
  | [] => None
  | c :: _ =>
      if Ascii.eqb (tolower c) "n" then
        if strncasecmp0 s1 (list_ascii_of_string "nan") 3
        then Some NaN else None
      else if Ascii.eqb (tolower c) "i" then
        if strncasecmp0 s1 (list_ascii_of_string "inf") 3 then
          match skipn 3 s1 with
          | c4 :: _ =>
              if Ascii.eqb (tolower c4) "i" then
                if strncasecmp0 s1 (list_ascii_of_string "infinity") 8
                then Some (Infinite neg) else None
              else Some (Infinite neg)
          | [] => Some (Infinite neg)
          end
        else None
      else
        match (if hexa_prefix s1 then scan_number true (skipn 2 s1)
               else scan_number false s1) with
        | Some q => Some (Finite (if neg then (- q)%Q else q))
        | None => None
        end
  end.

(** The number that a string of digits denotes, after [acc]. *)
Fixpoint dec_value (acc : Z) (ds : cstring) : Z :=
  match ds with
  | [] => acc
  | c :: ds' => dec_value (10 * acc + (code c - 48)) ds'
  end.

Definition digit_char (d : Z) : ascii := ascii_of_nat (Z.to_nat (48 + d)).

Fixpoint digits_of (fuel : nat) (n : Z) : cstring :=
  match fuel with
  | O => []
  | S f =>
      if n <? 10 then [digit_char n]
      else digits_of f (n / 10) ++ [digit_char (n mod 10)]
  end.

(** The decimal digits of [n >= 0]. *)
Definition print_nat (n : Z) : cstring :=
  digits_of (S (Z.to_nat (Z.log2 n))) n.

(** The conversion [%d] of [printf]. *)
Definition print_int (n : Z) : cstring :=
  if n <? 0 then "-"%char :: print_nat (- n) else print_nat n.

(** The conversion [%0*d] of [printf] for the width [w]: zeros between the
    sign and the digits up to the width. *)
Definition print_padded (w : nat) (n : Z) : cstring :=
  let sign := if n <? 0 then ["-"%char] else [] in
  let d := print_nat (Z.abs n) in
  sign ++ repeat "0"%char (w - length sign - length d) ++ d.

End Libc.

Import Libc.

Notation "'str' s" := (list_ascii_of_string s) (at level 9, s at level 0, only parsing).

(** ** The state shared under [slave_lock] *)

(** The slots of the reply array hold pointers to the buffers [slave_buf]
    of the slave threads.  The threads are numbered, and the pointer to
    the buffer of a thread is the number of the thread; [None] is the NULL
    that [calloc] leaves. *)
Record shared := mkShared {
  gtp_cmds : cstring;        (* all commands of the game, up to the NUL *)
  gtp_cmd : option nat;      (* offset of the latest command, [None] is NULL *)
  active_slaves : Z;
  reply_count : Z;
  gtp_replies : list (option nat)   (* the slots of the reply array *)
}.

(** What the buffers of the slave threads hold, by the number of the
    thread.  The buffers are written by their threads, also outside the
    lock; a reader is given what they hold when it reads them. *)
Definition buffers := list cstring.

(** The string that a pointer of the reply array addresses; [None] for
    NULL and for a pointer to no buffer. *)
Definition deref (bufs : buffers) (p : option nat) : option cstring :=
  match p with
  | Some i => bufs !! i
  | None => None
  end.

Fixpoint deref_all (bufs : buffers) (ps : list (option nat))
  : option (list cstring) :=
  match ps with
  | [] => Some []
  | p :: ps' =>
      match deref bufs p, deref_all bufs ps' with
      | Some r, Some rs => Some (r :: rs)
      | _, _ => None
      end
  end.

(** The slots [gtp_replies[0..reply_count-1]]; [None] when they are not
    all within the array. *)
Definition reply_slots (s : shared) : option (list (option nat)) :=
  let n := Z.to_nat (reply_count s) in
  if (n <=? length (gtp_replies s))%nat
  then Some (firstn n (gtp_replies s)) else None.

(** The strings [gtp_replies[0..reply_count-1]] as a reader finds them. *)
Definition replies_of (bufs : buffers) (s : shared) : option (list cstring) :=
  match reply_slots s with
  | Some slots => deref_all bufs slots
  | None => None
  end.

(** ** Waiting for the replies: [get_replies] *)

Module Quorum.

Definition EXTRA_TIME : Q := 1 # 2.

(** What the master finds when a wait on [reply_cond] returns: the shared
    state as the slave threads left it, and the clock. *)
Record wake := mkWake { w_state : shared; w_now : Q }.

Inductive wait := Wait | TimedWait (abstime : Q).

Inductive step := Break | Continue (time_limit : Q).

Definition nonzero (t : Q) : bool := negb (Qeq_bool t 0).

(** [a < b] on the clock. *)
Definition Qlt_bool (a b : Q) : bool := negb (Qle_bool b a).

(** The wait that the loop body starts with. *)
Definition next_wait (time_limit : Q) (s : shared) : wait :=
  if nonzero time_limit && (0 <? reply_count s)
  then TimedWait time_limit else Wait.

(** The loop body after the wait has returned. *)
Definition after_wake (time_limit : Q) (s : shared) (now : Q) : step :=
  if reply_count s =? 0 then Continue time_limit
  else if active_slaves s <=? reply_count s then Break
  else if nonzero time_limit && Qle_bool time_limit now then Break
  else if (Z.quot (active_slaves s) 2 <=? reply_count s)
          && (negb (nonzero time_limit)
              || Qlt_bool (now + EXTRA_TIME) time_limit)
       then Continue (now + EXTRA_TIME)
       else Continue time_limit.

(** [get_replies(time_limit)] entered in state [s], with the wake-ups
    [ws].  The result is the list of waits performed and the state on
    return, [None] when the master is still blocked in the last wait. *)
Fixpoint get_replies (time_limit : Q) (s : shared) (ws : list wake)
  : list wait * option shared :=
  if (reply_count s =? 0) || (reply_count s <? active_slaves s) then
    match ws with
    | [] => ([next_wait time_limit s], None)
    | k :: ws' =>
        match after_wake time_limit (w_state k) (w_now k) with
        | Break => ([next_wait time_limit s], Some (w_state k))
        | Continue tl =>
            let '(t, r) := get_replies tl (w_state k) ws' in
            (next_wait time_limit s :: t, r)
        end
    end
  else ([], Some s).

End Quorum.

(** ** Picking the move: [select_best_move] *)

Module Aggregator.

Record move_stats := mkStats { playouts : Z; value : floating }.

(** What [memset] to 0 leaves in a slot of the array. *)
Definition zero_stats : move_stats := mkStats 0 (Finite 0).

(** Modelled from the spec: [stats_add_result] is declared in stats.h, which
    is not part of this file.  The merge is the playout-weighted average
    [new_value = (old_value*old_n + value*n) / (old_n + n)],
    [new_n = old_n + n]; the count is an [int]. *)
Definition stats_add_result (s : move_stats) (result : floating) (n : Z)
  : move_stats :=
  let new_n := int_add (playouts s) n in
  mkStats new_n
    (fdiv (fadd (fmul (value s) (of_int (playouts s))) (fmul result (of_int n)))
       (of_int new_n)).

(** A line [coord playouts value] as [sscanf] reads it. *)
Record data_line := mkLine {
  l_move : cstring; l_playouts : Z; l_value : floating
}.

(** [sscanf(r, "=%d %d %d", &id, &playouts, &threads) == 3] *)
Definition scan_header (r : cstring) : option (Z * Z * Z) :=
  match r with
  | c :: r0 =>
      if Ascii.eqb c "=" then
        match scan_int r0 with
        | Some (id, r1) =>
            match scan_int r1 with
            | Some (p, r2) =>
                match scan_int r2 with
                | Some (t, _) => Some (id, p, t)
                | None => None
                end
            | None => None
            end
        | None => None
        end
      else None
  | [] => None
  end.

(** [sscanf(r, "%63s %d %f", move, &s.playouts, &s.value) == 3] *)
Definition scan_data (r : cstring) : option data_line :=
  match scan_word 63 r with
  | Some (move, r1) =>
      match scan_int r1 with
      | Some (n, r2) =>
          match scan_float r2 with
          | Some v => Some (mkLine move n v)
          | None => None
          end
      | None => None
      end
  | None => None
  end.

(** The locals of [select_best_move]. *)
Record acc := mkAcc {
  stats : list move_stats;   (* the array, slot [c + 2] for coordinate [c] *)
  best_move : Z;
  best_playouts : Z;
  total_playouts : Z;
  total_threads : Z
}.

(** [stats[c]], defined for [-2 <= c < board_size2]. *)
Definition slot (c : Z) : nat := Z.to_nat (c + 2).

Definition stats_get (st : list move_stats) (c : Z) : option move_stats :=
  if 0 <=? c + 2 then st !! slot c else None.

Section WithBoard.

(** From the headers that are not part of this file: the coordinate of a
    pass (move.h), the size of the board and its number of points
    (board.h), and the parser of coordinates (move.c). *)
Variable pass : Z.
Variable board_size : Z.
Variable board_size2 : nat.
Variable str2coord : cstring -> Z -> Z.

Definition init_acc : acc :=
  mkAcc (replicate (board_size2 + 2) zero_stats) pass (-1) 0 0.

(** The body of the inner loop for one line; [None] is an access outside
    the array. *)
Definition add_line (a : acc) (l : data_line) : option acc :=
  let c := str2coord (l_move l) board_size in
  match stats_get (stats a) c with
  | None => None
  | Some old =>
      let new := stats_add_result old (l_value l) (l_playouts l) in
      let st := <[slot c := new]> (stats a) in
      if best_playouts a <? playouts new
      then Some (mkAcc st c (playouts new)
                   (total_playouts a) (total_threads a))
      else Some (mkAcc st (best_move a) (best_playouts a)
                   (total_playouts a) (total_threads a))
  end.

(** The inner loop.  [t] is the text at [r]; [start] tells that [r] was
    just advanced past a newline, so that [sscanf] is tried at [t];
    otherwise the loop is walking to the next newline ([strchr]). *)
Fixpoint data_loop (start : bool) (t : cstring) (a : acc) : option acc :=
  let walk (a' : acc) :=
    match t with
    | [] => Some a'
    | c :: t' => data_loop (Ascii.eqb c NL) t' a'
    end in
  if start then
    match scan_data t with
    | None => Some a
    | Some l =>
        match add_line a l with
        | None => None
        | Some a' => walk a'
        end
    end
  else walk a.

(** The body of the outer loop for one reply. *)
Definition add_reply (a : acc) (r : cstring) : option acc :=
  match scan_header r with
  | None => Some a
  | Some (_, p, t) =>
      data_loop false r
        (mkAcc (stats a) (best_move a) (best_playouts a)
           (int_add (total_playouts a) p) (int_add (total_threads a) t))
  end.

Fixpoint add_replies (a : acc) (rs : list cstring) : option acc :=
  match rs with
  | [] => Some a
  | r :: rs' =>
      match add_reply a r with
      | None => None
      | Some a' => add_replies a' rs'
      end
  end.

Record selection := mkSelection {
  sel_move : Z;
  sel_stats : move_stats;
  sel_playouts : Z;
  sel_threads : Z
}.

(** [select_best_move] on the replies [gtp_replies[0..reply_count-1]].
    [None] is an abort: the assertion [reply_count > 0] fails, or a
    coordinate falls outside the array. *)
Definition select_best_move (replies : list cstring) : option selection :=
  match replies with
  | [] => None
  | _ =>
      match add_replies init_acc replies with
      | None => None
      | Some a =>
          match stats_get (stats a) (best_move a) with
          | None => None
          | Some bs =>
              Some (mkSelection (best_move a) bs
                      (total_playouts a) (total_threads a))
          end
      end
  end.

(** *** The lines that the loops visit, for the statements below *)

(** The inner loop body over a list of lines. *)
Fixpoint add_lines (a : acc) (ls : list data_line) : option acc :=
  match ls with
  | [] => Some a
  | l :: ls' =>
      match add_line a l with
      | None => None
      | Some a' => add_lines a' ls'
      end
  end.

Definition with_totals (a : acc) (p t : Z) : acc :=
  mkAcc (stats a) (best_move a) (best_playouts a) p t.

(** The header totals as the outer loop adds them up. *)
Fixpoint add_headers (p t : Z) (rs : list cstring) : Z * Z :=
  match rs with
  | [] => (p, t)
  | r :: rs' =>
      match scan_header r with
      | Some (_, hp, ht) => add_headers (int_add p hp) (int_add t ht) rs'
      | None => add_headers p t rs'
      end
  end.

(** The lines of the text [t] that the inner loop reads, in order. *)
Fixpoint visited_lines (start : bool) (t : cstring) : list data_line :=
  let walk :=
    match t with
    | [] => []
    | c :: t' => visited_lines (Ascii.eqb c NL) t'
    end in
  if start then
    match scan_data t with
    | None => []
    | Some l => l :: walk
    end
  else walk.

Definition reply_lines (r : cstring) : list data_line :=
  match scan_header r with
  | None => []
  | Some _ => visited_lines false r
  end.

Definition all_lines (rs : list cstring) : list data_line :=
  concat (map reply_lines rs).

Definition coord_of (l : data_line) : Z := str2coord (l_move l) board_size.

(** The aggregate playout count of coordinate [c] over the lines [ls]. *)
Fixpoint aggregate (ls : list data_line) (c : Z) : Z :=
  match ls with
  | [] => 0
  | l :: ls' =>
      (if coord_of l =? c then l_playouts l else 0) + aggregate ls' c
  end.

(** The merge of the lines of coordinate [c], in order, into [s]. *)
Fixpoint merged (ls : list data_line) (c : Z) (s : move_stats)
  : move_stats :=
  match ls with
  | [] => s
  | l :: ls' =>
      merged ls' c
        (if coord_of l =? c
         then stats_add_result s (l_value l) (l_playouts l) else s)
  end.

Fixpoint sum_playouts (ls : list data_line) : Z :=
  match ls with
  | [] => 0
  | l :: ls' => l_playouts l + sum_playouts ls'
  end.

(** The replies are well formed: the coordinates are on the board (or
    pass or resign), the playout counts are not negative and their sum is
    an [int]. *)
Definition on_board (c : Z) : Prop := -2 <= c < Z.of_nat board_size2.

Definition well_formed (ls : list data_line) : Prop :=
  Forall (fun l => on_board (coord_of l) /\ 0 <= l_playouts l) ls
  /\ sum_playouts ls <= INT_MAX.

Definition well_formedb (ls : list data_line) : bool :=
  forallb (fun l => (-2 <=? coord_of l)
                    && (coord_of l <? Z.of_nat board_size2)
                    && (0 <=? l_playouts l)) ls
  && (sum_playouts ls <=? INT_MAX).

(** Some line of [ls] is the first one to bring its coordinate [c] to the
    count [m]: no coordinate seen before it had reached [m]. *)
Definition first_to_reach (ls : list data_line) (c m : Z) : Prop :=
  exists p1 l p2,
    ls = p1 ++ l :: p2
    /\ coord_of l = c
    /\ aggregate (p1 ++ [l]) c = m
    /\ Forall (fun l' => aggregate p1 (coord_of l') < m) p1.

(** What the loops maintain about [best_move] and [best_playouts] after
    the lines [ls]. *)
Definition best_inv (ls : list data_line) (bm bp : Z) : Prop :=
  (ls = [] /\ bm = pass /\ bp = -1)
  \/ (on_board bm
      /\ bp = aggregate ls bm
      /\ (forall c, aggregate ls c <= bp)
      /\ first_to_reach ls bm bp).

(** The header totals of the replies whose header parses. *)
Fixpoint header_sums (rs : list cstring) : Z * Z :=
  match rs with
  | [] => (0, 0)
  | r :: rs' =>
      let '(p, t) := header_sums rs' in
      match scan_header r with
      | Some (_, hp, ht) => (hp + p, ht + t)
      | None => (p, t)
      end
  end.

End WithBoard.

(** A coordinate parser to run the aggregation on examples: [pass],
    [resign], or a column letter (without [i]) and a row number, as GTP
    writes coordinates. *)
Definition gtp_coord (s : cstring) (size : Z) : Z :=
  if strcasecmp0 s (str "pass") then -1
  else if strcasecmp0 s (str "resign") then -2
  else
    match s with
    | c :: rest =>
        let xc := code (tolower c) in
        atoi rest * size + (xc - 97 - (if 105 <? xc then 1 else 0) + 1)
    | [] => 0
    end.

End Aggregator.

(** ** A slave thread: [slave_loop] and [slave_thread] *)

Module Worker.

(** What a thread does, in order.  A lock or a wake-up records the shared
    state that the thread finds, an unlock or a wait the state it leaves. *)
Inductive event :=
| ELock (found : shared)
| EUnlock (left : shared)
| EWaitCmd (left found : shared)   (* pthread_cond_wait(&cmd_cond, ...) *)
| ESignalReply                     (* pthread_cond_signal(&reply_cond) *)
| EFputs (data : cstring)
| EFclose
| ELog (prefix msg : cstring).

(** The locals of [slave_loop]. [to_send] is an offset into [gtp_cmds]. *)
Record worker := mkWorker {
  to_send : option nat;
  cmd_id : Z;
  reply_id : Z;
  resend : bool;
  buf : cstring
}.

(** What the environment supplies to one iteration of [slave_loop]: the
    states found at the wake-ups from [cmd_cond], the lines that [fgets]
    returns (the end of the list is the end of the connection), and the
    state found when the lock is taken again. *)
Record round := mkRound {
  r_wakes : list shared;
  r_lines : list cstring;
  r_relock : shared
}.

Definition current_cmd (s : shared) : option cstring :=
  match gtp_cmd s with
  | Some off => Some (skipn off (gtp_cmds s))
  | None => None
  end.

(** The inner loop that waits for a new command; [None] when the thread is
    still waiting after the last wake-up. *)
Fixpoint wait_cmd (w : worker) (s : shared) (wakes : list shared)
  : list event * option (worker * shared) :=
  if (cmd_id w =? reply_id w) && negb (resend w) then
    match wakes with
    | [] => ([], None)
    | s' :: wakes' =>
        let id :=
          match current_cmd s' with
          | Some c => atoi c
          | None => cmd_id w
          end in
        let '(ev, r) :=
          wait_cmd (mkWorker (gtp_cmd s') id (reply_id w) (resend w) (buf w))
            s' wakes' in
        (EWaitCmd s s' :: ev, r)
    end
  else ([], Some (w, s)).

Definition first_is (c : ascii) (l : cstring) : bool :=
  match l with x :: _ => Ascii.eqb x c | [] => false end.

Definition second_isdigit (l : cstring) : bool :=
  match l with _ :: x :: _ => isdigit x | _ => false end.

(** A line that carries a reply id: [=] or [?] and then a digit. *)
Definition has_id (line : cstring) : bool :=
  (first_is "=" line || first_is "?" line) && second_isdigit line.

(** The loop that reads the reply.  The result is the reply id, the text
    read into the buffer, and whether a blank line ended it. *)
Fixpoint read_reply (rid : Z) (text : cstring) (lines : list cstring)
  : Z * cstring * bool :=
  match lines with
  | [] => (rid, text, false)
  | line :: lines' =>
      if first_is NL line then (rid, text ++ line, true)
      else
        let rid' :=
          if (rid <? 0) && has_id line then atoi (skipn 1 line) else rid in
        read_reply rid' (text ++ line) lines'
  end.





(** [gtp_replies[reply_count++] = buf]: the slot takes the pointer [buf],
    not a copy of the reply; [None] outside the array. *)
Definition deposit (s : shared) (buf : nat) : option shared :=
  if (0 <=? reply_count s)
     && (Z.to_nat (reply_count s) <? length (gtp_replies s))%nat
  then Some (mkShared (gtp_cmds s) (gtp_cmd s) (active_slaves s)
               (reply_count s + 1)
               (<[Z.to_nat (reply_count s) := Some buf]> (gtp_replies s)))
  else None.

Inductive iter_end :=
| Waiting                                 (* blocked on [cmd_cond] *)
| Fault                                   (* assertion or array bound *)
| Cut (s : shared)                        (* connection lost, lock held *)
| Next (w : worker) (s : shared).         (* next iteration, lock held *)

Section WithSize.

Variable CMDS_SIZE : nat.

(** The parameter [buf] of [slave_loop]: the pointer to the buffer
    [slave_buf] of the thread. *)
Variable slave_buf : nat.

(** One iteration of the [for (;;)] of [slave_loop], entered with the lock
    held in state [s].  The field [buf] of the worker is what the buffer
    holds at the end of the iteration. *)
Definition slave_iter (w : worker) (s : shared) (r : round)
  : list event * iter_end :=
  match wait_cmd w s (r_wakes r) with
  | (ev, None) => (ev, Waiting)
  | (ev, Some (w1, s1)) =>
      match to_send w1, current_cmd s1 with
      | Some ts, Some cur =>
          let out := firstn CMDS_SIZE (skipn ts (gtp_cmds s1)) in
          let cid := atoi cur in
          let '(rid, reply, complete) := read_reply (-1) [] (r_lines r) in
          let s2 := r_relock r in
          let io := ev ++ [EUnlock s1; EFputs out; ELock s2] in
          if negb complete then (io, Cut s2)
          else if (rid =? cid) && first_is "=" reply then
            match deposit s2 slave_buf with
            | Some s3 =>
                (io ++ [ESignalReply],
                 Next (mkWorker (to_send w1) cid rid (resend w1) reply) s3)
            | None => (io, Fault)
            end
          else (io, Next (mkWorker (Some O) cid rid true reply) s2)
      | _, _ => (ev, Fault)
      end
  end.

Inductive loop_end :=
| Running            (* blocked, or the rounds observed are used up *)
| Failed
| Returned (s : shared).

Fixpoint slave_loop (w : worker) (s : shared) (rs : list round)
  : list event * loop_end :=
  match rs with
  | [] => ([], Running)
  | r :: rs' =>
      match slave_iter w s r with
      | (ev, Waiting) => (ev, Running)
      | (ev, Fault) => (ev, Failed)
      | (ev, Cut s') => (ev, Returned s')
      | (ev, Next w' s') =>
          let '(ev', e) := slave_loop w' s' rs' in (ev ++ ev', e)
      end
  end.

(** A connection of a slave machine: the lines read during the identity
    check, the state found when the lock is taken, and the rounds of the
    service loop. *)
Record connection := mkConnection {
  c_hello : list cstring;
  c_lock : shared;
  c_rounds : list round
}.

(** The minimal check of the slave identity. The second line is read only
    when the first one is accepted. *)
Definition identity_ok (hello : list cstring) : bool :=
  match hello with
  | [] => false
  | l1 :: rest =>
      if strncasecmp0 l1 (str "= Pachi") 7 then
        match rest with
        | [] => false
        | l2 :: _ => strcmp0 l2 [NL]
        end
      else false
  end.

Definition with_active (s : shared) (n : Z) : shared :=
  mkShared (gtp_cmds s) (gtp_cmd s) n (reply_count s) (gtp_replies s).

(** [slave_thread] over the connections that it accepts in turn. *)
Fixpoint slave_thread (resend : bool) (cs : list connection) : list event :=
  match cs with
  | [] => []
  | c :: cs' =>
      EFputs (str "name" ++ [NL]) ::
      if identity_ok (c_hello c) then
        let s0 := with_active (c_lock c) (active_slaves (c_lock c) + 1) in
        let w := mkWorker (gtp_cmd s0) (-1) (-1) resend [NL] in
        match slave_loop w s0 (c_rounds c) with
        | (ev, Returned s) =>
            if 0 <? active_slaves s then
              ELock (c_lock c) :: ev
              ++ [EUnlock (with_active s (active_slaves s - 1)); EFclose]
              ++ slave_thread true cs'
            else ELock (c_lock c) :: ev
        | (ev, _) => ELock (c_lock c) :: ev
        end
      else
        ELog (str "? ") (str "bad slave" ++ [NL]) :: EFclose
        :: slave_thread resend cs'
  end.

End WithSize.

End Worker.

(** ** The command log and the coordinator: [update_cmd],
    [distributed_notify], [distributed_genmove] *)

Module Coordinator.

Import Quorum Aggregator.

(** The shared state, and the static [gtp_id] of [update_cmd]. *)
Record master := mkMaster { m_shared : shared; m_gtp_id : Z }.

Inductive parse_code := P_OK.

(** What the coordinator does on the lock and the conditions. *)
Inductive action :=
| CLock
| CBroadcastCmd                 (* pthread_cond_broadcast(&cmd_cond) *)
| CWaitReply (w : wait)         (* a wait on [reply_cond] *)
| CUnlock.

Definition set_log (s : shared) (text : cstring) (off : option nat) : shared :=
  mkShared text off (active_slaves s) (reply_count s) (gtp_replies s).

Definition set_reply_count (s : shared) (n : Z) : shared :=
  mkShared (gtp_cmds s) (gtp_cmd s) (active_slaves s) n (gtp_replies s).

(** The commands of a log, as a slave reads them: its lines, each with
    its newline; what follows the last newline, if anything, is the last
    one. *)
Fixpoint commands (log : cstring) : list cstring :=
  match log with
  | [] => []
  | c :: log' =>
      if Ascii.eqb c NL then [c] :: commands log'
      else
        match commands log' with
        | [] => [[c]]
        | l :: ls => (c :: l) :: ls
        end
  end.

(** [memcpy(dst + off, src, len)] inside the string [dst]. *)
Definition overwrite (dst : cstring) (off : nat) (src : cstring) (len : nat)
  : cstring :=
  firstn off dst ++ firstn len src ++ skipn (off + len) dst.

Section WithHeaders.

(** From the headers that are not part of this file: the macros on
    command ids (distributed.h), the tests on command names (gtp.h), the
    size of the log (40 * MAX_GAMELEN, board.h) and the printers of
    colours and coordinates. *)
Variable DIST_GAMELEN : Z.
Variable force_reply : Z -> Z.
Variable prevent_reply : Z -> Z.
Variable is_gamestart : cstring -> bool.
Variable is_reset : cstring -> bool.
Variable CMDS_SIZE : nat.
Variable stone : Type.
Variable stone2str : stone -> cstring.
Variable coord2str : Z -> cstring.

(** The [do ... while (id == gtp_id)] of [update_cmd], on the values that
    [fast_random(65535)] returns; [None] when they are used up. *)
Fixpoint fresh_id (moves gtp_id : Z) (rnd : list Z) : option (Z * list Z) :=
  match rnd with
  | [] => None
  | r :: rnd' =>
      let id := force_reply (moves + r * DIST_GAMELEN) in
      if id =? gtp_id then fresh_id moves gtp_id rnd' else Some (id, rnd')
  end.

(** The text ["%d %s %s"] of a command. *)
Definition command_text (id : Z) (cmd args : cstring) : cstring :=
  print_int id ++ [SP] ++ cmd ++ [SP]
  ++ (match args with [] => [NL] | _ => args end).

(** [snprintf(gtp_cmd, gtp_cmds + CMDS_SIZE - gtp_cmd, ...)]: the text
    replaces what the log holds from the offset on, cut to the room left. *)
Definition write_cmd (log : cstring) (off : nat) (text : cstring) : cstring :=
  firstn off log ++ firstn (CMDS_SIZE - off - 1) text.

(** [update_cmd(b, cmd, args)] with [moves = b->moves]. [None] when the
    assertion [gtp_cmd] fails or the random values are used up. *)
Definition update_cmd (m : master) (moves : Z) (cmd args : cstring)
    (rnd : list Z) : option (master * list Z) :=
  let s := m_shared m in
  match gtp_cmd s with
  | None => None
  | Some off =>
      match fresh_id (if is_reset cmd then 0 else moves) (m_gtp_id m) rnd with
      | None => None
      | Some (id, rnd') =>
          let log := write_cmd (gtp_cmds s) off (command_text id cmd args) in
          Some (mkMaster (set_reply_count (set_log s log (Some off)) 0) id,
                rnd')
      end
  end.

(** The branch of [distributed_notify] that preserves the history: the id
    of the latest command is rewritten over its own digits, and [gtp_cmd]
    moves to the end of the log.  [None] when the digits do not fit the
    local buffer of 32 characters. *)
Definition keep_history (s : shared) (off : nat) : option shared :=
  let cur := skipn off (gtp_cmds s) in
  let id := prevent_reply (atoi cur) in
  let len := strspn_digits cur in
  let b := firstn 31 (print_padded len id) in
  if (len <=? 31)%nat then
    Some (set_log s (overwrite (gtp_cmds s) off b len)
            (Some (off + length cur)%nat))
  else None.

(** The commands that are not sent to the slaves. *)
Definition not_forwarded (slaves_quit : bool) (cmd : cstring) : bool :=
  (strcasecmp0 cmd (str "quit") && negb slaves_quit)
  || strcasecmp0 cmd (str "uct_genbook")
  || strcasecmp0 cmd (str "uct_dumpbook")
  || strcasecmp0 cmd (str "kgs-chat").

Definition translate (cmd : cstring) : cstring :=
  if strcasecmp0 cmd (str "genmove") then str "pachi-genmoves"
  else if strcasecmp0 cmd (str "kgs-genmove_cleanup")
       then str "pachi-genmoves_cleanup"
  else if strcasecmp0 cmd (str "final_score") then str "final_status_list"
  else cmd.

(** The commands whose replies the engine collects later. *)
Definition replies_later (cmd : cstring) : bool :=
  strcasecmp0 cmd (str "pachi-genmoves")
  || strcasecmp0 cmd (str "pachi-genmoves_cleanup")
  || strcasecmp0 cmd (str "final_status_list").

(** The part of [distributed_notify] that updates the log, between taking
    the lock and the broadcast. *)
Definition append_cmd (m : master) (moves : Z) (cmd args : cstring)
    (rnd : list Z) : option (master * list Z) :=
  let s := m_shared m in
  let s1 :=
    match gtp_cmd s with
    | None => Some (set_log s (gtp_cmds s) (Some O))
    | Some off =>
        if is_gamestart cmd then Some (set_log s (gtp_cmds s) (Some O))
        else keep_history s off
    end in
  match s1 with
  | None => None
  | Some s1 => update_cmd (mkMaster s1 (m_gtp_id m)) moves (translate cmd) args rnd
  end.

Record notified := mkNotified {
  n_code : option parse_code;   (* [None]: no return within the run *)
  n_master : master;
  n_events : list action
}.

(** [distributed_notify] entered with the master state [m], which is the
    state found when the lock is taken if it is taken. *)
Definition distributed_notify (slaves_quit : bool) (m : master) (moves : Z)
    (cmd args : cstring) (rnd : list Z) (wakes : list wake) : notified :=
  if not_forwarded slaves_quit cmd then mkNotified (Some P_OK) m []
  else
    match append_cmd m moves cmd args rnd with
    | None => mkNotified None m [CLock]
    | Some (m1, _) =>
        if replies_later (translate cmd) then
          mkNotified (Some P_OK) m1 [CLock; CBroadcastCmd; CUnlock]
        else
          match get_replies 0 (m_shared m1) wakes with
          | (ws, Some s2) =>
              mkNotified (Some P_OK) (mkMaster s2 (m_gtp_id m1))
                ([CLock; CBroadcastCmd] ++ map CWaitReply ws ++ [CUnlock])
          | (ws, None) =>
              mkNotified None m1
                ([CLock; CBroadcastCmd] ++ map CWaitReply ws)
          end
    end.

(** *** The shape of the log, for the statements below *)

(** The test of the reply flag of an id (distributed.h). *)
Variable reply_disabled : Z -> bool.

(** The text of a command as [update_cmd] writes it: the digits of an id
    that is an [int], a space, and the rest. *)
Definition is_tail (line : cstring) : Prop :=
  exists id rest, line = print_nat id ++ SP :: rest /\ 0 <= id <= INT_MAX.

(** A command of the log: one line, with the newline that ends it. *)
Definition is_line (l : cstring) : Prop :=
  exists body, l = body ++ [NL] /\ ~ In NL body.

(** The log is the sequence of commands [hist], one per line, followed by
    the command at [gtp_cmd], one line too; the ids of [hist] have the
    reply flag cleared, and the id of the command at [gtp_cmd] has it
    set. *)
Definition log_inv (s : shared) : Prop :=
  exists (hist : list cstring) (tail : cstring),
    gtp_cmds s = concat hist ++ tail
    /\ gtp_cmd s = Some (length (concat hist))
    /\ Forall (fun l => is_line l /\ reply_disabled (atoi l) = true) hist
    /\ is_line tail
    /\ reply_disabled (atoi tail) = false
    /\ is_tail tail.

(** The new command fits in the log. *)
Definition room (log cmd args : cstring) : Prop :=
  (length log + length cmd + length args + 14 <= CMDS_SIZE)%nat.

(** Values of [fast_random(65535)]. *)
Definition random16 (rnd : list Z) : Prop :=
  Forall (fun r => 0 <= r < 65535) rnd.

(** What the comment of [update_cmd] asks of a command: [cmd] is a single
    word, and [args] is empty or ends with a newline, its only one. *)
Definition one_line (cmd args : cstring) : Prop :=
  ~ In NL cmd /\ (args = [] \/ exists a, args = a ++ [NL] /\ ~ In NL a).

(** The states of the master: before the first command; after the log
    update of [distributed_notify]; after the [update_cmd] of
    [distributed_genmove]; and after the slave threads have changed the
    counters and the replies, which is all they write.  The commands
    satisfy [ok], and each of them has fitted in the log. *)
Inductive reachable_by (ok : cstring -> cstring -> Prop) : master -> Prop :=
| reach_start (s : shared) (gid : Z) :
    gtp_cmd s = None -> reachable_by ok (mkMaster s gid)
| reach_notify (m : master) (moves : Z) (cmd args : cstring)
    (rnd : list Z) (m' : master) (rnd' : list Z) :
    reachable_by ok m ->
    ok cmd args ->
    0 <= moves < DIST_GAMELEN -> random16 rnd ->
    room (gtp_cmds (m_shared m)) (translate cmd) args ->
    append_cmd m moves cmd args rnd = Some (m', rnd') ->
    reachable_by ok m'
| reach_play (m : master) (moves : Z) (args : cstring)
    (rnd : list Z) (m' : master) (rnd' : list Z) :
    reachable_by ok m ->
    ok (str "play") args ->
    0 <= moves < DIST_GAMELEN -> random16 rnd ->
    room (gtp_cmds (m_shared m)) (str "play") args ->
    update_cmd m moves (str "play") args rnd = Some (m', rnd') ->
    reachable_by ok m'
| reach_slaves (m : master) (active count : Z) (replies : list (option nat)) :
    reachable_by ok m ->
    reachable_by ok
      (mkMaster
         (mkShared (gtp_cmds (m_shared m)) (gtp_cmd (m_shared m))
            active count replies)
         (m_gtp_id m)).

(** The states reached with any commands that fit. *)
Definition reachable : master -> Prop := reachable_by (fun _ _ => True).

Variable pass : Z.
Variable board_size : Z.
Variable board_size2 : nat.
Variable str2coord : cstring -> Z -> Z.

(** The arguments ["%s %s\n"] of the play command, in 64 characters. *)
Definition play_args (color : stone) (coord : Z) : cstring :=
  firstn 63 (stone2str color ++ [SP] ++ coord2str coord ++ [NL]).

Record generated := mkGenerated {
  g_move : option selection;    (* [None]: no return within the run *)
  g_master : master;
  g_events : list action
}.

(** [select_best_move] on the strings that the slots address; [None]
    also when a slot is outside the array or addresses no buffer. *)
Definition select_replies (bufs : buffers) (s : shared) : option selection :=
  match replies_of bufs s with
  | None => None
  | Some rs => select_best_move pass board_size board_size2 str2coord rs
  end.

(** [distributed_genmove] from taking the lock to releasing it, with the
    state [m] found at the lock, the deadline [time_limit] (a [long]), and
    what the buffers of the slave threads hold when [select_best_move]
    reads them. *)
Definition distributed_genmove (m : master) (moves : Z) (time_limit : Z)
    (color : stone) (rnd : list Z) (wakes : list wake) (bufs : buffers)
  : generated :=
  match get_replies (inject_Z time_limit) (m_shared m) wakes with
  | (ws, None) => mkGenerated None m (CLock :: map CWaitReply ws)
  | (ws, Some s1) =>
      let ev := CLock :: map CWaitReply ws in
      match select_replies bufs s1 with
      | None => mkGenerated None (mkMaster s1 (m_gtp_id m)) ev
      | Some sel =>
          match update_cmd (mkMaster s1 (m_gtp_id m)) moves (str "play")
                  (play_args color (sel_move sel)) rnd with
          | None => mkGenerated None (mkMaster s1 (m_gtp_id m)) ev
          | Some (m2, _) =>
              mkGenerated (Some sel) m2 (ev ++ [CBroadcastCmd; CUnlock])
          end
      end
  end.

End WithHeaders.

End Coordinator.

(** ** Values of the parameters, to run the model on examples *)

Module Sample.

Import Coordinator.

(** The macros on command ids in the style of distributed.h: the id of a
    command that wants a reply is the move number plus a multiple of
    [DIST_GAMELEN], at least [DIST_GAMELEN]. *)
Definition DIST_GAMELEN : Z := 1000.
Definition force_reply (id : Z) : Z := id + DIST_GAMELEN.
Definition prevent_reply (id : Z) : Z := Z.rem id DIST_GAMELEN.
Definition reply_disabled (id : Z) : bool := id <? DIST_GAMELEN.

Definition is_gamestart (cmd : cstring) : bool :=
  strcasecmp0 cmd (str "boardsize").

Definition is_reset (cmd : cstring) : bool :=
  is_gamestart cmd || strcasecmp0 cmd (str "clear_board").

Definition CMDS_SIZE : nat := 40 * 600.

Inductive colour := Black | White.

Definition colour_str (c : colour) : cstring :=
  match c with Black => str "b" | White => str "w" end.

(** Coordinates as GTP writes them, on a board with a border. *)
Definition coord_str (size : Z) (c : Z) : cstring :=
  if c =? -1 then str "pass"
  else if c =? -2 then str "resign"
  else
    let x := c mod size in
    ascii_of_nat (Z.to_nat (64 + x + (if 8 <? x then 1 else 0)))
    :: print_int (c / size).

Definition notify (slaves_quit : bool) :=
  distributed_notify DIST_GAMELEN force_reply prevent_reply is_gamestart
    is_reset CMDS_SIZE slaves_quit.

Definition genmove :=
  distributed_genmove DIST_GAMELEN force_reply is_reset CMDS_SIZE colour
    colour_str (coord_str 21) (-1) 21 441 Aggregator.gtp_coord.

(** The state that the master finds when the threads [0] to [n - 1] have
    stored their replies to the command of [s]. *)
Definition with_replies (s : shared) (n : nat) : shared :=
  mkShared (gtp_cmds s) (gtp_cmd s) (active_slaves s)
    (Z.of_nat n) (map Some (seq 0 n)).

End Sample.

(** ** The vote on the dead groups: [scmp], [distributed_dead_group_list] *)

Module DeadGroups.

Import Quorum.

(** [strcasecmp(a, b)]: the difference of the first characters that
    differ once in lower case, the end of a string counting as 0. *)
Fixpoint strcasecmp (a b : cstring) : Z :=
  match a, b with
  | [], [] => 0
  | [], y :: _ => - code (tolower y)
  | x :: _, [] => code (tolower x)
  | x :: a', y :: b' =>
      if code (tolower x) =? code (tolower y) then strcasecmp a' b'
      else code (tolower x) - code (tolower y)
  end.

(** [scmp] on the strings that the two pointers address. *)
Definition scmp (p1 p2 : cstring) : Z := strcasecmp p1 p2.

(** [scmp] as [qsort] calls it, on two slots of the array, with what the
    buffers hold. *)
Definition scmp_at (bufs : buffers) (p1 p2 : option nat) : Z :=
  match deref bufs p1, deref bufs p2 with
  | Some a, Some b => scmp a b
  | _, _ => 0
  end.

(** The locals of the loop that finds the most popular reply. *)
Record vote := mkVote { best_reply : nat; best_count : nat; count : nat }.

(** The loop [for (reply = 1; reply < reply_count; reply++)], with [prev]
    the string at [reply - 1] and [rest] the strings from [reply] on. *)
Fixpoint popular_loop (prev : cstring) (rest : list cstring) (reply : nat)
    (v : vote) : vote :=
  match rest with
  | [] => v
  | cur :: rest' =>
      let c := if strcmp0 cur prev then S (count v) else 1%nat in
      popular_loop cur rest' (S reply)
        (if (best_count v <? c)%nat then mkVote reply c c
         else mkVote (best_reply v) (best_count v) c)
  end.

(** The vote over the sorted replies; the array holds one reply at
    least. *)
Definition most_popular (sorted : list cstring) : option vote :=
  match sorted with
  | [] => None
  | r0 :: rest => Some (popular_loop r0 rest 1 (mkVote 0 1 1))
  end.

(** The loop that picks the groups.  [t] is the text at [dead]; [start]
    tells that [dead] was just advanced past a space or a newline, so
    that the loop test looks at [t]; otherwise the loop is walking to the
    next newline ([strchr]).  The result lists the texts handed to
    [str2coord]. *)
Fixpoint dead_walk (start : bool) (t : cstring) : list cstring :=
  let walk :=
    match t with
    | [] => []
    | c :: t' => dead_walk (Ascii.eqb c NL) t'
    end in
  if start then
    match t with
    | c :: _ => if Ascii.eqb c NL then [] else t :: walk
    | [] => [t]
    end
  else walk.

(** The texts of the groups of the reply [dead], after ["id "]. *)
Definition dead_groups (dead : cstring) : list cstring :=
  match strchr dead SP with
  | Some (_ :: t) => dead_walk true t
  | _ => []
  end.

(** The text up to the first newline. *)
Fixpoint first_line (t : cstring) : cstring :=
  match t with
  | [] => []
  | c :: t' => if Ascii.eqb c NL then [] else c :: first_line t'
  end.

Section WithBoard.

(** [qsort] of the C library, on the slots and with the comparison it is
    given: which of the sorted arrangements it returns is not specified.
    The size of the board and the parser of coordinates come from board.h
    and move.c. *)
Variable qsort :
  (option nat -> option nat -> Z) -> list (option nat) -> list (option nat).
Variable board_size : Z.
Variable str2coord : cstring -> Z -> Z.

Record dead_list := mkDeadList {
  d_shared : shared;        (* the state at the unlock *)
  d_best : vote;
  d_queue : list Z          (* the coordinates given to [mq_add], in order *)
}.

(** [distributed_dead_group_list] entered with the state [s] found at the
    lock, and with what the buffers of the slave threads hold when the
    function reads them.  [None] when the master is still blocked, when
    there is no reply, or when a slot is outside the array or addresses
    no buffer. *)
Definition distributed_dead_group_list (s : shared) (wakes : list wake)
    (bufs : buffers) : list wait * option dead_list :=
  match get_replies 0 s wakes with
  | (ws, None) => (ws, None)
  | (ws, Some s1) =>
      match reply_slots s1 with
      | None => (ws, None)
      | Some slots0 =>
          let slots := qsort (scmp_at bufs) slots0 in
          match deref_all bufs slots with
          | None => (ws, None)
          | Some sorted =>
              match most_popular sorted with
              | None => (ws, None)
              | Some v =>
                  match sorted !! best_reply v with
                  | None => (ws, None)
                  | Some dead =>
                      (ws,
                       Some (mkDeadList
                               (mkShared (gtp_cmds s1) (gtp_cmd s1)
                                  (active_slaves s1) (reply_count s1)
                                  (slots
                                   ++ skipn (Z.to_nat (reply_count s1))
                                        (gtp_replies s1)))
                               v
                               (map (fun t => str2coord t board_size)
                                  (dead_groups dead))))
                  end
              end
          end
      end
  end.

End WithBoard.

(** The number of times [x] occurs in [l]. *)
Fixpoint occurrences (x : cstring) (l : list cstring) : nat :=
  match l with
  | [] => O
  | y :: l' => ((if cstr_eqb y x then 1 else 0) + occurrences x l')%nat
  end.

(** An insertion sort, to run the vote on examples. *)
Fixpoint insert_sorted (cmp : option nat -> option nat -> Z) (x : option nat)
    (l : list (option nat)) : list (option nat) :=
  match l with
  | [] => [x]
  | y :: l' => if cmp x y <=? 0 then x :: l else y :: insert_sorted cmp x l'
  end.

Definition insertion_sort (cmp : option nat -> option nat -> Z)
    (l : list (option nat)) : list (option nat) :=
  fold_right (insert_sorted cmp) [] l.

End DeadGroups.

(** ** The engine arguments: [distributed_state_init] *)

Module Config.

(** The fields of [struct distributed] that the arguments set. *)
Record distributed := mkDist {
  slave_port : option cstring;
  proxy_port : option cstring;
  max_slaves : Z;
  slaves_quit : bool
}.

(** [strcspn(s, ",")] *)
Fixpoint strcspn_comma (s : cstring) : nat :=
  match s with
  | [] => O
  | c :: s' => if Ascii.eqb c "," then O else S (strcspn_comma s')
  end.

(** The name and the value of an option: [strchr(optspec, '=')] and the
    NUL written over the sign. *)
Fixpoint split_eq (optspec : cstring) : cstring * option cstring :=
  match optspec with
  | [] => ([], None)
  | c :: t =>
      if Ascii.eqb c "=" then ([], Some t)
      else let '(n, v) := split_eq t in (c :: n, v)
  end.

Definition is_some {A} (o : option A) : bool :=
  match o with Some _ => true | None => false end.

(** The chain of tests on one option.  The second component is the name
    reported as invalid, if any. *)
Definition set_option (d : distributed) (optspec : cstring)
  : distributed * option cstring :=
  let '(optname, optval) := split_eq optspec in
  if strcasecmp0 optname (str "slave_port") && is_some optval then
    (mkDist optval (proxy_port d) (max_slaves d) (slaves_quit d), None)
  else if strcasecmp0 optname (str "proxy_port") && is_some optval then
    (mkDist (slave_port d) optval (max_slaves d) (slaves_quit d), None)
  else if strcasecmp0 optname (str "max_slaves") && is_some optval then
    (mkDist (slave_port d) (proxy_port d)
       (match optval with Some v => atoi v | None => 0 end) (slaves_quit d),
     None)
  else if strcasecmp0 optname (str "slaves_quit") then
    (mkDist (slave_port d) (proxy_port d) (max_slaves d)
       (match optval with
        | Some v => negb (atoi v =? 0)
        | None => true
        end),
     None)
  else (d, Some optname).

(** The [while] loop over the options, which runs until [next] is at the
    end of the string; [fuel] bounds the number of iterations. *)
Fixpoint arg_loop (fuel : nat) (next : cstring) (d : distributed)
    (invalid : list cstring) : distributed * list cstring :=
  match fuel with
  | O => (d, invalid)
  | S fuel' =>
      match next with
      | [] => (d, invalid)
      | _ =>
          let n := strcspn_comma next in
          let '(d', w) := set_option d (firstn n next) in
          arg_loop fuel' (skipn (S n) next) d'
            (match w with Some name => invalid ++ [name] | None => invalid end)
      end
  end.

Definition defaults : distributed := mkDist None None 100 false.

Inductive started :=
| Exit1 (invalid : list cstring)
| Started (d : distributed) (invalid : list cstring)
    (replies : list (option nat))    (* the reply array from [calloc] *)
    (slave_threads proxy_threads : nat).

(** [distributed_state_init(arg, b)]: the arguments, the reply array, the
    exit when [slave_port] is missing, the threads. *)
Definition distributed_state_init (arg : option cstring) : started :=
  let '(d, invalid) :=
    match arg with
    | Some a => arg_loop (length a) a defaults []
    | None => (defaults, [])
    end in
  match slave_port d with
  | None => Exit1 invalid
  | Some _ =>
      let n := Z.to_nat (max_slaves d) in
      Started d invalid (replicate n None) n
        (if is_some (proxy_port d) then n else O)
  end.

(** *** The options one by one, for the statements below *)

(** The options that the loop visits: the texts between the commas; a
    comma at the end ends the list. *)
Fixpoint opt_tokens (started : bool) (cur : cstring) (s : cstring)
  : list cstring :=
  match s with
  | [] => if started then [cur] else []
  | c :: s' =>
      if Ascii.eqb c "," then cur :: opt_tokens false [] s'
      else opt_tokens true (cur ++ [c]) s'
  end.

Definition options (arg : cstring) : list cstring := opt_tokens false [] arg.

(** The value of the last option of [opts] named [key], in any case of
    the letters; with [valued], only options that have a value count. *)
Fixpoint last_option (key : cstring) (valued : bool) (opts : list cstring)
  : option (option cstring) :=
  match opts with
  | [] => None
  | o :: opts' =>
      match last_option key valued opts' with
      | Some v => Some v
      | None =>
          let '(n, v) := split_eq o in
          if strcasecmp0 n key && (negb valued || is_some v)
          then Some v else None
      end
  end.

(** One turn of the loop on the option [o]. *)
Definition turn (acc : distributed * list cstring) (o : cstring)
  : distributed * list cstring :=
  let '(d', w) := set_option (fst acc) o in
  (d', match w with Some name => snd acc ++ [name] | None => snd acc end).

Definition valid_option (o : cstring) : bool :=
  let '(n, v) := split_eq o in
  ((strcasecmp0 n (str "slave_port") || strcasecmp0 n (str "proxy_port")
    || strcasecmp0 n (str "max_slaves")) && is_some v)
  || strcasecmp0 n (str "slaves_quit").

End Config.

(** ** Runs of a slave thread that nothing disturbs *)

Module WorkerRuns.

Import Worker.

Definition is_signal (e : event) : bool :=
  match e with ESignalReply => true | _ => false end.

Definition is_wait_cmd (e : event) : bool :=
  match e with EWaitCmd _ _ => true | _ => false end.

(** [n] rounds of the thread with the buffer [slave_buf] in which the
    slave sends the lines [lines] and no other thread touches the shared
    state: each round finds the state that the round before has left. *)
Fixpoint quiet_rounds (slave_buf : nat) (lines : list cstring) (s : shared)
    (n : nat) : list round :=
  match n with
  | O => []
  | S n' =>
      mkRound [] lines s
      :: quiet_rounds slave_buf lines
           (match deposit s slave_buf with Some s' => s' | None => s end) n'
  end.

End WorkerRuns.

(** * Properties *)

(** ** Printing and reading decimal numbers *)

Module LibcFacts.

Lemma digit_char_ok (d : Z) :
  0 <= d < 10 ->
  isdigit (digit_char d) = true /\ code (digit_char d) - 48 = d.
Proof.
  intros H.
  assert (E : d = 0 \/ d = 1 \/ d = 2 \/ d = 3 \/ d = 4 \/ d = 5 \/ d = 6
              \/ d = 7 \/ d = 8 \/ d = 9) by lia.
  repeat (destruct E as [->|E]; [split; reflexivity|]).
  subst. split; reflexivity.
Qed.

Lemma isdigit_plain (c : ascii) :
  isdigit c = true ->
  isspace c = false /\ Ascii.eqb c "-" = false /\ Ascii.eqb c "+" = false.
Proof.
  intros H. repeat split.
  - unfold isdigit, isspace in *. apply andb_true_iff in H as [H1 H2].
    apply orb_false_iff. split; [lia|]. apply andb_false_iff. right. lia.
  - destruct (Ascii.eqb c "-") eqn:E; [|reflexivity].
    apply Ascii.eqb_eq in E. subst. discriminate.
  - destruct (Ascii.eqb c "+") eqn:E; [|reflexivity].
    apply Ascii.eqb_eq in E. subst. discriminate.
Qed.

Lemma dec_value_app (ds1 ds2 : cstring) :
  forall acc, dec_value acc (ds1 ++ ds2) = dec_value (dec_value acc ds1) ds2.
Proof. induction ds1 as [|c ds1 IH]; intros acc; simpl; [reflexivity|apply IH]. Qed.

Lemma scan_digits_app (ds rest : cstring) :
  forallb isdigit ds = true -> starts_with_digit rest = false ->
  forall acc, scan_digits acc (ds ++ rest) = (dec_value acc ds, rest).
Proof.
  intros Hds Hrest. induction ds as [|c ds IH]; intros acc.
  - destruct rest as [|x rest]; [reflexivity|].
    cbn [starts_with_digit] in Hrest. cbn [app scan_digits dec_value].
    now rewrite Hrest.
  - cbn [forallb] in Hds. apply andb_true_iff in Hds as [Hc Hds].
    cbn [app scan_digits dec_value]. rewrite Hc. now apply IH.
Qed.

Lemma strspn_digits_app (ds rest : cstring) :
  forallb isdigit ds = true -> starts_with_digit rest = false ->
  strspn_digits (ds ++ rest) = length ds.
Proof.
  intros Hds Hrest. induction ds as [|c ds IH].
  - destruct rest as [|x rest]; [reflexivity|].
    cbn [starts_with_digit] in Hrest. cbn [app strspn_digits length].
    now rewrite Hrest.
  - cbn [forallb] in Hds. apply andb_true_iff in Hds as [Hc Hds].
    cbn [app strspn_digits length]. rewrite Hc. now rewrite IH.
Qed.

Lemma atoi_digits (ds rest : cstring) :
  ds <> [] -> forallb isdigit ds = true -> starts_with_digit rest = false ->
  atoi (ds ++ rest) = wrap_int (dec_value 0 ds).
Proof.
  intros Hne Hds Hrest. destruct ds as [|c ds]; [contradiction|].
  pose proof Hds as Hds'. cbn [forallb] in Hds'.
  apply andb_true_iff in Hds' as [Hc _].
  destruct (isdigit_plain c Hc) as (Hsp & Hm & Hp).
  unfold atoi, scan_int.
  change ((c :: ds) ++ rest) with (c :: ds ++ rest).
  cbn [skip_space]. rewrite Hsp. unfold scan_sign. rewrite Hm, Hp.
  cbn [starts_with_digit]. rewrite Hc.
  change (c :: ds ++ rest) with ((c :: ds) ++ rest).
  now rewrite scan_digits_app.
Qed.

Lemma digits_of_isdigit (fuel : nat) :
  forall n, 0 <= n -> forallb isdigit (digits_of fuel n) = true.
Proof.
  induction fuel as [|f IH]; intros n Hn; simpl; [reflexivity|].
  destruct (n <? 10) eqn:E.
  - apply Z.ltb_lt in E. simpl.
    destruct (digit_char_ok n) as [-> _]; [lia|reflexivity].
  - apply Z.ltb_ge in E. rewrite forallb_app, IH by (apply Z.div_pos; lia).
    simpl. destruct (digit_char_ok (n mod 10)) as [-> _]; [|reflexivity].
    apply Z.mod_pos_bound. lia.
Qed.

Lemma digits_of_value (fuel : nat) :
  forall n, 0 <= n < 2 ^ Z.of_nat fuel -> dec_value 0 (digits_of fuel n) = n.
Proof.
  induction fuel as [|f IH]; intros n Hn.
  - simpl in *. lia.
  - simpl digits_of. destruct (n <? 10) eqn:E.
    + apply Z.ltb_lt in E. simpl.
      destruct (digit_char_ok n) as [_ ->]; lia.
    + apply Z.ltb_ge in E. rewrite dec_value_app, IH.
      * simpl. destruct (digit_char_ok (n mod 10)) as [_ ->].
        -- apply Z.mod_pos_bound. lia.
        -- pose proof (Z.div_mod n 10). lia.
      * rewrite Nat2Z.inj_succ, Z.pow_succ_r in Hn by lia.
        split; [apply Z.div_pos; lia|].
        apply Z.div_lt_upper_bound; lia.
Qed.

Lemma digits_of_length_le (fuel : nat) :
  forall (n : Z) (k : nat),
    0 <= n < 10 ^ Z.of_nat (S k) -> (length (digits_of fuel n) <= S k)%nat.
Proof.
  induction fuel as [|f IH]; intros n k Hn; simpl; [lia|].
  destruct (n <? 10) eqn:E; simpl; [lia|].
  apply Z.ltb_ge in E. rewrite length_app. simpl.
  destruct k as [|k].
  - simpl in Hn. lia.
  - specialize (IH (n / 10) k).
    rewrite (Nat2Z.inj_succ (S k)), Z.pow_succ_r in Hn by lia.
    assert (0 <= n / 10 < 10 ^ Z.of_nat (S k)).
    { split; [apply Z.div_pos; lia|]. apply Z.div_lt_upper_bound; lia. }
    specialize (IH H). lia.
Qed.

Lemma digits_of_length_mono (fa : nat) :
  forall (fb : nat) (a b : Z),
    0 <= a <= b -> b < 2 ^ Z.of_nat fb -> (0 < fb)%nat ->
    (length (digits_of fa a) <= length (digits_of fb b))%nat.
Proof.
  induction fa as [|fa IH]; intros fb a b Hab Hb Hfb; simpl; [lia|].
  destruct fb as [|fb]; [lia|]. simpl.
  destruct (a <? 10) eqn:Ea.
  - destruct (b <? 10); simpl; [lia|]. rewrite length_app. simpl. lia.
  - apply Z.ltb_ge in Ea. destruct (b <? 10) eqn:Eb.
    + apply Z.ltb_lt in Eb. lia.
    + apply Z.ltb_ge in Eb. rewrite !length_app. simpl.
      rewrite Nat2Z.inj_succ, Z.pow_succ_r in Hb by lia.
      assert (Hq : b / 10 < 2 ^ Z.of_nat fb)
        by (apply Z.div_lt_upper_bound; lia).
      assert (1 <= b / 10) by (apply Z.div_le_lower_bound; lia).
      assert (0 < fb)%nat.
      { destruct fb; [simpl in Hq; lia|lia]. }
      specialize (IH fb (a / 10) (b / 10)).
      assert (0 <= a / 10 <= b / 10).
      { split; [apply Z.div_pos; lia|apply Z.div_le_mono; lia]. }
      specialize (IH H1 Hq H0). lia.
Qed.

Lemma print_nat_fuel (n : Z) :
  0 <= n -> n < 2 ^ Z.of_nat (S (Z.to_nat (Z.log2 n))).
Proof.
  intros Hn. rewrite Nat2Z.inj_succ, Z2Nat.id by apply Z.log2_nonneg.
  destruct (Z.eq_dec n 0) as [->|Hz]; [reflexivity|].
  apply Z.log2_spec. lia.
Qed.

Lemma print_nat_isdigit (n : Z) :
  0 <= n -> forallb isdigit (print_nat n) = true.
Proof. intros H. now apply digits_of_isdigit. Qed.

Lemma print_nat_value (n : Z) : 0 <= n -> dec_value 0 (print_nat n) = n.
Proof.
  intros H. apply digits_of_value. split; [assumption|].
  now apply print_nat_fuel.
Qed.

Lemma print_nat_nonempty (n : Z) : print_nat n <> [].
Proof.
  unfold print_nat. simpl. destruct (n <? 10); [discriminate|].
  now destruct (digits_of _ _).
Qed.

Lemma print_nat_length_int (n : Z) :
  0 <= n <= INT_MAX -> (length (print_nat n) <= 10)%nat.
Proof.
  intros H. apply digits_of_length_le. unfold INT_MAX in H.
  change (10 ^ Z.of_nat 10) with 10000000000. lia.
Qed.

Lemma print_nat_length_mono (a b : Z) :
  0 <= a <= b -> (length (print_nat a) <= length (print_nat b))%nat.
Proof.
  intros H. apply digits_of_length_mono; [assumption| |lia].
  apply print_nat_fuel. lia.
Qed.

(** Reading back the id that starts a command. *)
Lemma atoi_print_nat (n : Z) (rest : cstring) :
  0 <= n <= INT_MAX ->
  atoi (print_nat n ++ SP :: rest) = n
  /\ strspn_digits (print_nat n ++ SP :: rest) = length (print_nat n).
Proof.
  intros H. split.
  - rewrite atoi_digits.
    + rewrite print_nat_value by lia. unfold wrap_int, INT_MAX in *.
      rewrite Z.mod_small; lia.
    + apply print_nat_nonempty.
    + apply print_nat_isdigit. lia.
    + reflexivity.
  - apply strspn_digits_app; [apply print_nat_isdigit; lia|reflexivity].
Qed.

Lemma zeros_isdigit (k : nat) : forallb isdigit (repeat "0"%char k) = true.
Proof. induction k; simpl; [reflexivity|assumption]. Qed.

Lemma zeros_value (k : nat) : dec_value 0 (repeat "0"%char k) = 0.
Proof. induction k; simpl; [reflexivity|assumption]. Qed.

(** The id field after the rewrite: its width, and the id read back. *)
Lemma print_padded_field (w : nat) (n : Z) (rest : cstring) :
  0 <= n <= INT_MAX -> (length (print_nat n) <= w)%nat ->
  length (print_padded w n) = w
  /\ atoi (print_padded w n ++ SP :: rest) = n.
Proof.
  intros Hn Hw. unfold print_padded.
  replace (n <? 0) with false by (symmetry; apply Z.ltb_ge; lia).
  rewrite Z.abs_eq by lia. simpl app. simpl length. rewrite Nat.sub_0_r.
  split.
  - rewrite length_app, repeat_length. lia.
  - rewrite atoi_digits.
    + rewrite dec_value_app, zeros_value, print_nat_value by lia.
      unfold wrap_int, INT_MAX in *. rewrite Z.mod_small; lia.
    + pose proof (print_nat_nonempty n). now destruct (repeat _ _), (print_nat n).
    + rewrite forallb_app, zeros_isdigit, print_nat_isdigit by lia. reflexivity.
    + reflexivity.
Qed.

End LibcFacts.

(** ** The quorum wait *)

Module QuorumFacts.

Import Quorum.


Lemma nonzero_pos (t : Q) : (0 < t)%Q -> nonzero t = true.
Proof.
  intros H. unfold nonzero. destruct (Qeq_bool t 0) eqn:E; [|reflexivity].
  apply Qeq_bool_iff in E. rewrite E in H. exfalso. revert H. apply Qlt_irrefl.
Qed.

Lemma next_wait_empty (time_limit : Q) (s : shared) :
  reply_count s = 0 -> next_wait time_limit s = Wait.
Proof.
  intros H. unfold next_wait. rewrite H. simpl.
  now rewrite andb_false_r.
Qed.

(** A break leaves at least one reply. *)
Lemma after_wake_break (time_limit : Q) (s : shared) (now : Q) :
  after_wake time_limit s now = Break -> reply_count s <> 0.
Proof.
  unfold after_wake. destruct (reply_count s =? 0) eqn:E.
  - discriminate.
  - intros _. now apply Z.eqb_neq.
Qed.

Lemma get_replies_returns (ws : list wake) :
  forall (time_limit : Q) (s s' : shared),
    snd (get_replies time_limit s ws) = Some s' -> reply_count s' <> 0.
Proof.
  induction ws as [|k ws IH]; intros tl s s'; simpl.
  - destruct (reply_count s =? 0) eqn:E; simpl.
    + discriminate.
    + destruct (reply_count s <? active_slaves s); simpl; [discriminate|].
      intros [= <-]. now apply Z.eqb_neq.
  - destruct ((reply_count s =? 0) || (reply_count s <? active_slaves s)) eqn:E.
    + destruct (after_wake tl (w_state k) (w_now k)) eqn:A.
      * simpl. intros [= <-]. eapply after_wake_break, A.
      * destruct (get_replies time_limit (w_state k) ws) as [t r] eqn:G.
        simpl. intros ->. apply (IH time_limit (w_state k)). now rewrite G.
    + simpl. intros [= <-]. apply orb_false_iff in E as [E _].
      now apply Z.eqb_neq.
Qed.

(** In the result of a run, each state is one that the master found. *)
Lemma get_replies_state (ws : list wake) :
  forall (time_limit : Q) (s s' : shared),
    snd (get_replies time_limit s ws) = Some s' ->
    s' = s \/ In s' (map w_state ws).
Proof.
  induction ws as [|k ws IH]; intros tl s s'; simpl.
  - destruct ((reply_count s =? 0) || (reply_count s <? active_slaves s));
      simpl; [discriminate|]. intros [= <-]. now left.
  - destruct ((reply_count s =? 0) || (reply_count s <? active_slaves s)).
    + destruct (after_wake tl (w_state k) (w_now k)).
      * simpl. intros [= <-]. right. now left.
      * destruct (get_replies time_limit (w_state k) ws) as [t r] eqn:G.
        simpl. intros ->.
        destruct (IH time_limit (w_state k) s') as [->|H].
        -- now rewrite G.
        -- right. now left.
        -- right. now right.
    + simpl. intros [= <-]. now left.
Qed.

Lemma get_replies_blocked (ws : list wake) :
  forall (time_limit : Q) (s : shared),
    reply_count s = 0 ->
    Forall (fun k => reply_count (w_state k) = 0) ws ->
    get_replies time_limit s ws = (repeat Wait (S (length ws)), None).
Proof.
  induction ws as [|k ws IH]; intros tl s Hs Hws; simpl.
  - rewrite Hs. simpl. now rewrite next_wait_empty.
  - rewrite Hs. simpl. inversion Hws as [|? ? Hk Hws']; subst.
    unfold after_wake. rewrite Hk. simpl.
    rewrite (IH tl (w_state k) Hk Hws').
    now rewrite next_wait_empty.
Qed.

(** C1. [get_replies] never returns without a reply.  Whatever the
    deadline and the number of active slaves, (1) a run that returns leaves
    [reply_count >= 1]; (2) as long as the wake-ups find no reply, every
    wait is the wait without a deadline and the function does not return;
    (3) a first wake-up that finds a reply of every active slave makes it
    return there. *)
Theorem get_replies_never_empty (time_limit : Q) (s : shared) (ws : list wake) :
  0 <= reply_count s ->
  Forall (fun k => 0 <= reply_count (w_state k)) ws ->
  (forall s', snd (get_replies time_limit s ws) = Some s' ->
              1 <= reply_count s')
  /\ (reply_count s = 0 ->
      Forall (fun k => reply_count (w_state k) = 0) ws ->
      get_replies time_limit s ws = (repeat Wait (S (length ws)), None)
      /\ forall k rest,
           1 <= reply_count (w_state k) ->
           active_slaves (w_state k) <= reply_count (w_state k) ->
           get_replies time_limit s (ws ++ k :: rest)
           = (repeat Wait (S (length ws)), Some (w_state k))).
Proof.
  intros Hs Hws. split.
  - intros s' H.
    assert (reply_count s' <> 0) by (eapply get_replies_returns, H).
    assert (0 <= reply_count s').
    { destruct (get_replies_state _ _ _ _ H) as [->|Hin]; [assumption|].
      apply in_map_iff in Hin as (k & <- & Hin).
      rewrite Forall_forall in Hws. now apply Hws, list_elem_of_In. }
    lia.
  - intros H0 Hz. split; [now apply get_replies_blocked|].
    intros k rest H1 HA. clear Hs Hws. revert s H0.
    induction Hz as [|k0 ws Hk0 Hz IH]; intros s H0; simpl.
    + rewrite H0. simpl. unfold after_wake.
      replace (reply_count (w_state k) =? 0) with false
        by (symmetry; apply Z.eqb_neq; lia).
      replace (active_slaves (w_state k) <=? reply_count (w_state k))
        with true by (symmetry; apply Z.leb_le; lia).
      now rewrite next_wait_empty.
    + rewrite H0. simpl. unfold after_wake at 1. rewrite Hk0. simpl.
      rewrite (IH (w_state k0) Hk0). now rewrite next_wait_empty.
Qed.

Lemma get_replies_never_empty_witness :
  let s0 := mkShared [] None 0 0 [None] in
  let s1 := mkShared [] None 1 1 [Some 0%nat] in
  get_replies 5 s0 [mkWake s0 7; mkWake s1 8] = ([Wait; Wait], Some s1)
  /\ 1 <= reply_count s1.
Proof.
  intros s0 s1.
  pose proof (get_replies_never_empty 5 s0 [mkWake s0 7; mkWake s1 8]) as H.
  destruct H as [H1 _].
  - simpl. lia.
  - repeat constructor; simpl; lia.
  - split; [reflexivity|]. apply H1. reflexivity.
Defined.





End QuorumFacts.

(** ** The aggregation *)

Module AggregatorFacts.

Import Aggregator.

Lemma wrap_int_small (z : Z) : - 2 ^ 31 <= z <= INT_MAX -> wrap_int z = z.
Proof.
  unfold wrap_int, INT_MAX. intros H.
  rewrite Z.mod_small; lia.
Qed.

Lemma wrap_int_nonneg (z : Z) : 0 <= z <= INT_MAX -> wrap_int z = z.
Proof. intros H. apply wrap_int_small. unfold INT_MAX in *. lia. Qed.

Lemma wrap_int_range (z : Z) : - 2 ^ 31 <= wrap_int z <= INT_MAX.
Proof.
  unfold wrap_int, INT_MAX.
  pose proof (Z.mod_pos_bound (z + 2 ^ 31) (2 ^ 32)). lia.
Qed.

Lemma wrap_int_add_l (a b : Z) : wrap_int (wrap_int a + b) = wrap_int (a + b).
Proof.
  unfold wrap_int.
  replace ((a + 2 ^ 31) mod 2 ^ 32 - 2 ^ 31 + b + 2 ^ 31)
    with ((a + 2 ^ 31) mod 2 ^ 32 + b) by lia.
  rewrite Zplus_mod_idemp_l. f_equal. f_equal. lia.
Qed.

Section WithBoard.

Variable pass : Z.
Variable board_size : Z.
Variable board_size2 : nat.
Variable str2coord : cstring -> Z -> Z.

Local Abbreviation init_acc := (init_acc pass board_size2).
Local Abbreviation add_line := (add_line board_size str2coord).
Local Abbreviation add_lines := (add_lines board_size str2coord).
Local Abbreviation data_loop := (data_loop board_size str2coord).
Local Abbreviation add_reply := (add_reply board_size str2coord).
Local Abbreviation add_replies := (add_replies board_size str2coord).
Local Abbreviation select_best_move :=
  (select_best_move pass board_size board_size2 str2coord).
Local Abbreviation coord_of := (coord_of board_size str2coord).
Local Abbreviation aggregate := (aggregate board_size str2coord).
Local Abbreviation merged := (merged board_size str2coord).
Local Abbreviation on_board := (on_board board_size2).
Local Abbreviation well_formed := (well_formed board_size board_size2 str2coord).

(** *** The loops as folds over the lines read *)

Lemma data_loop_lines (t : cstring) :
  forall (start : bool) (a : acc),
    data_loop start t a = add_lines a (visited_lines start t).
Proof.
  induction t as [|c t IH]; intros start a; simpl.
  - destruct start; [|reflexivity].
    destruct (scan_data []); simpl; [|reflexivity].
    now destruct (add_line a d).
  - destruct start; [|apply IH].
    destruct (scan_data (c :: t)); simpl; [|reflexivity].
    destruct (add_line a d); [apply IH|reflexivity].
Qed.

Lemma add_lines_app (ls1 ls2 : list data_line) :
  forall a, add_lines a (ls1 ++ ls2)
            = match add_lines a ls1 with
              | Some a' => add_lines a' ls2
              | None => None
              end.
Proof.
  induction ls1 as [|l ls1 IH]; intros a; simpl; [reflexivity|].
  destruct (add_line a l); [apply IH|reflexivity].
Qed.

Lemma add_line_totals (a : acc) (p t : Z) (l : data_line) :
  add_line (with_totals a p t) l
  = option_map (fun a' => with_totals a' p t) (add_line a l).
Proof.
  unfold add_line. simpl.
  destruct (stats_get (stats a) (str2coord (l_move l) board_size)); simpl;
    [|reflexivity].
  now destruct (best_playouts a <? _).
Qed.

Lemma add_lines_totals (ls : list data_line) :
  forall (a : acc) (p t : Z),
    add_lines (with_totals a p t) ls
    = option_map (fun a' => with_totals a' p t) (add_lines a ls).
Proof.
  induction ls as [|l ls IH]; intros a p t; simpl; [reflexivity|].
  rewrite add_line_totals. destruct (add_line a l); simpl; [apply IH|reflexivity].
Qed.

Lemma add_reply_lines (a : acc) (r : cstring) :
  add_reply a r
  = match scan_header r with
    | None => Some a
    | Some (_, p, t) =>
        option_map
          (fun a' => with_totals a' (int_add (total_playouts a) p)
                       (int_add (total_threads a) t))
          (add_lines a (reply_lines r))
    end.
Proof.
  unfold add_reply, reply_lines.
  destruct (scan_header r) as [[[id p] t]|]; [|reflexivity].
  rewrite data_loop_lines.
  now rewrite <- add_lines_totals.
Qed.

Lemma add_replies_lines (rs : list cstring) :
  forall a : acc,
    add_replies a rs
    = option_map
        (fun a' =>
           with_totals a'
             (fst (add_headers (total_playouts a) (total_threads a) rs))
             (snd (add_headers (total_playouts a) (total_threads a) rs)))
        (add_lines a (all_lines rs)).
Proof.
  induction rs as [|r rs IH]; intros a; simpl.
  - now destruct a.
  - rewrite add_reply_lines.
    change (all_lines (r :: rs)) with (reply_lines r ++ all_lines rs).
    rewrite add_lines_app. unfold reply_lines.
    destruct (scan_header r) as [[[id p] t]|]; simpl.
    + destruct (add_lines a (visited_lines false r)) as [a'|]; simpl;
        [|reflexivity].
      rewrite IH. simpl. rewrite add_lines_totals.
      destruct (add_lines a' (all_lines rs)); reflexivity.
    + apply IH.
Qed.

Lemma add_headers_sums (rs : list cstring) :
  forall p t : Z,
    wrap_int p = p -> wrap_int t = t ->
    add_headers p t rs
    = (wrap_int (p + fst (header_sums rs)), wrap_int (t + snd (header_sums rs))).
Proof.
  induction rs as [|r rs IH]; intros p t Hp Ht; simpl.
  - now rewrite !Z.add_0_r, Hp, Ht.
  - destruct (header_sums rs) as [sp st] eqn:E.
    destruct (scan_header r) as [[[id hp] ht]|]; simpl.
    + rewrite IH.
      * simpl. unfold int_add. rewrite !wrap_int_add_l.
        f_equal; f_equal; lia.
      * unfold int_add. apply wrap_int_small, wrap_int_range.
      * unfold int_add. apply wrap_int_small, wrap_int_range.
    + now rewrite IH.
Qed.

(** *** Counts and merges over lists of lines *)

Lemma aggregate_app (ls1 ls2 : list data_line) (c : Z) :
  aggregate (ls1 ++ ls2) c = aggregate ls1 c + aggregate ls2 c.
Proof. induction ls1 as [|l ls1 IH]; simpl; [reflexivity|]. rewrite IH. lia. Qed.

Lemma sum_playouts_app (ls1 ls2 : list data_line) :
  sum_playouts (ls1 ++ ls2) = sum_playouts ls1 + sum_playouts ls2.
Proof. induction ls1 as [|l ls1 IH]; simpl; [reflexivity|]. rewrite IH. lia. Qed.

Lemma merged_app (ls1 ls2 : list data_line) (c : Z) :
  forall s, merged (ls1 ++ ls2) c s = merged ls2 c (merged ls1 c s).
Proof. induction ls1 as [|l ls1 IH]; intros s; simpl; [reflexivity|]. apply IH. Qed.

Lemma aggregate_bounds (ls : list data_line) (c : Z) :
  Forall (fun l => on_board (coord_of l) /\ 0 <= l_playouts l) ls ->
  0 <= aggregate ls c <= sum_playouts ls.
Proof.
  induction 1 as [|l ls [_ Hl] _ IH]; simpl; [lia|].
  destruct (coord_of l =? c); lia.
Qed.

Lemma aggregate_off_board (ls : list data_line) (c : Z) :
  Forall (fun l => on_board (coord_of l) /\ 0 <= l_playouts l) ls ->
  ~ on_board c -> aggregate ls c = 0.
Proof.
  induction 1 as [|l ls [Hl _] _ IH]; intros Hc; simpl; [reflexivity|].
  destruct (coord_of l =? c) eqn:E.
  - apply Z.eqb_eq in E. now rewrite E in Hl.
  - now rewrite IH.
Qed.

Lemma merged_playouts (ls : list data_line) (c : Z) :
  forall s,
    Forall (fun l => on_board (coord_of l) /\ 0 <= l_playouts l) ls ->
    0 <= playouts s -> playouts s + sum_playouts ls <= INT_MAX ->
    playouts (merged ls c s) = playouts s + aggregate ls c.
Proof.
  induction ls as [|l ls IH]; intros s Hls Hs Hsum; simpl; [lia|].
  inversion Hls as [|? ? [_ Hl] Hls']; subst. simpl in Hsum.
  pose proof (aggregate_bounds ls c Hls') as Hb.
  destruct (coord_of l =? c).
  - assert (E : playouts (stats_add_result s (l_value l) (l_playouts l))
                = playouts s + l_playouts l).
    { simpl. unfold int_add. apply wrap_int_nonneg. lia. }
    rewrite IH; try assumption; rewrite E; lia.
  - rewrite IH; try assumption; lia.
Qed.

Lemma well_formedb_ok (ls : list data_line) :
  well_formedb board_size board_size2 str2coord ls = true -> well_formed ls.
Proof.
  unfold Aggregator.well_formedb, Aggregator.well_formed.
  intros H. apply andb_true_iff in H as [HF Hs]. split.
  - rewrite forallb_forall in HF. apply Forall_forall. intros l Hl.
    apply list_elem_of_In, HF in Hl.
    apply andb_true_iff in Hl as [Hl Hn].
    apply andb_true_iff in Hl as [Hlo Hhi].
    unfold Aggregator.on_board. lia.
  - lia.
Qed.

Lemma well_formed_snoc (ls : list data_line) (l : data_line) :
  well_formed (ls ++ [l]) ->
  well_formed ls /\ on_board (coord_of l) /\ 0 <= l_playouts l
  /\ sum_playouts ls + l_playouts l <= INT_MAX.
Proof.
  intros [HF Hs]. apply Forall_app in HF as [HF Hl].
  inversion Hl as [|? ? [Hb Hn] _]; subst.
  rewrite sum_playouts_app in Hs. simpl in Hs.
  split; [split; [assumption|lia]|].
  split; [exact Hb|]. split; [exact Hn|lia].
Qed.

Lemma stats_get_on_board (st : list move_stats) (c : Z) :
  on_board c -> stats_get st c = st !! slot c.
Proof.
  intros [H _]. unfold stats_get.
  replace (0 <=? c + 2) with true by (symmetry; apply Z.leb_le; lia).
  reflexivity.
Qed.

Lemma slot_inj (c c' : Z) : on_board c -> on_board c' -> slot c = slot c' -> c = c'.
Proof. unfold slot. intros [H _] [H' _] E. lia. Qed.

Lemma slot_bound (c : Z) : on_board c -> (slot c < board_size2 + 2)%nat.
Proof. unfold slot. intros [H H']. lia. Qed.

(** *** The invariant of the loops *)

Lemma add_lines_inv (ls : list data_line) :
  on_board pass ->
  well_formed ls ->
  exists a,
    add_lines init_acc ls = Some a
    /\ length (stats a) = (board_size2 + 2)%nat
    /\ (forall c, on_board c ->
                  stats_get (stats a) c = Some (merged ls c zero_stats))
    /\ best_inv pass board_size board_size2 str2coord ls
         (best_move a) (best_playouts a).
Proof.
  intros Hpass. induction ls as [|l ls IH] using rev_ind; intros Hwf.
  - exists init_acc. simpl. repeat split.
    + apply length_replicate.
    + intros c Hc. rewrite stats_get_on_board by assumption.
      apply lookup_replicate_2. now apply slot_bound.
    + left. repeat split.
  - apply well_formed_snoc in Hwf as (Hwf & Hb & Hn & Hsum).
    destruct (IH Hwf) as (a & Ha & Hlen & Hst & Hbest).
    destruct Hwf as [HF _].
    rewrite add_lines_app, Ha. simpl. unfold add_line.
    fold (coord_of l). set (c := coord_of l) in *.
    rewrite (Hst c Hb).
    set (new := stats_add_result (merged ls c zero_stats) (l_value l)
                  (l_playouts l)).
    assert (Hnew : playouts new = aggregate ls c + l_playouts l).
    { pose proof (aggregate_bounds ls c HF) as Hb'.
      unfold new. simpl.
      rewrite merged_playouts; simpl; try assumption; try lia.
      unfold int_add. apply wrap_int_nonneg. lia. }
    assert (Hagg : forall c', aggregate (ls ++ [l]) c'
                              = aggregate ls c'
                                + (if c =? c' then l_playouts l else 0)).
    { intros c'. rewrite aggregate_app. simpl. fold c. lia. }
    assert (Hst' : forall c', on_board c' ->
              stats_get (<[slot c := new]> (stats a)) c'
              = Some (merged (ls ++ [l]) c' zero_stats)).
    { intros c' Hc'. rewrite stats_get_on_board by assumption.
      rewrite merged_app. simpl. fold c.
      destruct (c =? c') eqn:E.
      - apply Z.eqb_eq in E. subst c'.
        rewrite list_lookup_insert_eq; [reflexivity|].
        rewrite Hlen. now apply slot_bound.
      - apply Z.eqb_neq in E.
        rewrite list_lookup_insert_ne.
        + rewrite <- stats_get_on_board by assumption. now apply Hst.
        + intros Hs. apply E. now apply slot_inj. }
    clearbody new.
    destruct (best_playouts a <? playouts new) eqn:Hlt.
    + apply Z.ltb_lt in Hlt.
      eexists. split; [reflexivity|]. simpl.
      split; [now rewrite length_insert|]. split; [exact Hst'|].
      right. split; [assumption|]. split; [|split].
      * rewrite Hagg, Z.eqb_refl. lia.
      * intros c'. rewrite Hagg. destruct (c =? c') eqn:E.
        -- apply Z.eqb_eq in E. subst c'. lia.
        -- destruct Hbest as [(-> & _ & Hbp)|(_ & _ & Hmax & _)].
           ++ simpl. pose proof (aggregate_bounds [] c' ltac:(constructor)).
              simpl in *. lia.
           ++ specialize (Hmax c'). lia.
      * exists ls, l, []. repeat split.
        -- rewrite Hagg, Z.eqb_refl. lia.
        -- destruct Hbest as [(-> & _ & _)|(_ & _ & Hmax & _)];
             [constructor|].
           apply Forall_forall. intros l' _. specialize (Hmax (coord_of l')).
           lia.
    + apply Z.ltb_ge in Hlt.
      eexists. split; [reflexivity|]. simpl.
      split; [now rewrite length_insert|]. split; [exact Hst'|].
      destruct Hbest as [(-> & _ & Hbp)|(Hbm & Hbp & Hmax & Hfirst)].
      * exfalso. simpl in *. lia.
      * right. split; [assumption|].
        assert (Hsame : aggregate (ls ++ [l]) (best_move a)
                        = aggregate ls (best_move a)).
        { rewrite Hagg. destruct (c =? best_move a) eqn:E; [|lia].
          apply Z.eqb_eq in E. rewrite <- E in *. lia. }
        split; [|split].
        -- now rewrite Hsame.
        -- intros c'. rewrite Hagg. destruct (c =? c') eqn:E.
           ++ apply Z.eqb_eq in E. subst c'. lia.
           ++ specialize (Hmax c'). lia.
        -- destruct Hfirst as (p1 & l0 & p2 & -> & Hc0 & Hr & Hp1).
           exists p1, l0, (p2 ++ [l]). repeat split; try assumption.
           now rewrite <- app_assoc.
Qed.

(** *** [select_best_move] in terms of the lines read *)

Lemma select_best_move_lines (rs : list cstring) :
  on_board pass -> rs <> [] -> well_formed (all_lines rs) ->
  exists a,
    add_lines init_acc (all_lines rs) = Some a
    /\ select_best_move rs
       = Some (mkSelection (best_move a)
                 (merged (all_lines rs) (best_move a) zero_stats)
                 (wrap_int (fst (header_sums rs)))
                 (wrap_int (snd (header_sums rs))))
    /\ on_board (best_move a)
    /\ best_inv pass board_size board_size2 str2coord (all_lines rs)
         (best_move a) (best_playouts a).
Proof.
  intros Hpass Hne Hwf.
  destruct (add_lines_inv (all_lines rs) Hpass Hwf)
    as (a & Ha & Hlen & Hst & Hbest).
  assert (Hbm : on_board (best_move a)).
  { destruct Hbest as [(_ & -> & _)|(H & _)]; assumption. }
  exists a. split; [assumption|]. split; [|split; assumption].
  assert (E : select_best_move rs
              = match add_replies init_acc rs with
                | None => None
                | Some a0 =>
                    match stats_get (stats a0) (best_move a0) with
                    | None => None
                    | Some bs =>
                        Some (mkSelection (best_move a0) bs
                                (total_playouts a0) (total_threads a0))
                    end
                end).
  { destruct rs; [easy|reflexivity]. }
  rewrite E, add_replies_lines, Ha.
  cbn [option_map with_totals stats best_move total_playouts total_threads
       Aggregator.init_acc].
  rewrite (Hst _ Hbm), add_headers_sums by reflexivity.
  reflexivity.
Qed.

Lemma all_lines_perm (rs rs' : list cstring) :
  Permutation rs rs' -> Permutation (all_lines rs) (all_lines rs').
Proof.
  induction 1 as [|r rs rs' _ IH|r1 r2 rs|rs1 rs2 rs3 _ IH1 _ IH2].
  - constructor.
  - change (Permutation (reply_lines r ++ all_lines rs)
              (reply_lines r ++ all_lines rs')).
    now apply Permutation_app_head.
  - change (Permutation (reply_lines r2 ++ reply_lines r1 ++ all_lines rs)
              (reply_lines r1 ++ reply_lines r2 ++ all_lines rs)).
    rewrite !app_assoc. apply Permutation_app_tail, Permutation_app_comm.
  - now transitivity (all_lines rs2).
Qed.

Lemma aggregate_perm (ls ls' : list data_line) (c : Z) :
  Permutation ls ls' -> aggregate ls c = aggregate ls' c.
Proof. induction 1; simpl; lia. Qed.

Lemma sum_playouts_perm (ls ls' : list data_line) :
  Permutation ls ls' -> sum_playouts ls = sum_playouts ls'.
Proof. induction 1; simpl; lia. Qed.

Lemma well_formed_perm (ls ls' : list data_line) :
  Permutation ls ls' -> well_formed ls -> well_formed ls'.
Proof.
  intros HP [HF Hs]. split.
  - rewrite Forall_forall in *. intros l Hl. apply HF.
    apply list_elem_of_In. apply list_elem_of_In in Hl.
    eapply Permutation_in; [symmetry; exact HP|exact Hl].
  - now rewrite <- (sum_playouts_perm _ _ HP).
Qed.

(** C2, as the specification words it, fails for some replies: a negative
    playout count lowers an aggregate after it was recorded as the best.
    Here D4 comes to 10 and then to 2, Q4 to 5, and D4 is returned. *)
Lemma negative_playouts_counterexample :
  let r := str "=1 15 1" ++ [NL] ++ str "D4 10 0.5" ++ [NL]
           ++ str "D4 -8 0.5" ++ [NL] ++ str "Q4 5 0.5" ++ [NL] in
  let d4 := gtp_coord (str "D4") 21 in
  let q4 := gtp_coord (str "Q4") 21 in
  option_map sel_move (Aggregator.select_best_move (-1) 21 441 gtp_coord [r])
  = Some d4
  /\ Aggregator.aggregate 21 gtp_coord (all_lines [r]) d4 = 2
  /\ Aggregator.aggregate 21 gtp_coord (all_lines [r]) q4 = 5.
Proof. vm_compute. repeat split. Qed.

(** C2, amended.  The lines of the replies are those that the inner loop
    reads ([all_lines]): after each newline of a reply whose header parses,
    a move, a count and a value, white space skipped first, up to the
    first read that fails.  When these lines carry coordinates of the board
    and playout counts that are not negative and sum up to an [int]:
    the statistics returned are the merge of the lines of the selected
    coordinate, whose count is its aggregate; no coordinate has a larger
    aggregate; the selected coordinate is the first one that reached this
    maximum (the pass when no line was read); and when the maximum is
    reached by one coordinate only, every permutation of the replies
    selects the same move. *)
Theorem select_best_move_max (rs : list cstring) :
  on_board pass -> rs <> [] -> well_formed (all_lines rs) ->
  exists sel,
    select_best_move rs = Some sel
    /\ sel_stats sel = merged (all_lines rs) (sel_move sel) zero_stats
    /\ playouts (sel_stats sel) = aggregate (all_lines rs) (sel_move sel)
    /\ (forall c, aggregate (all_lines rs) c
                  <= aggregate (all_lines rs) (sel_move sel))
    /\ ((all_lines rs = [] /\ sel_move sel = pass)
        \/ first_to_reach board_size str2coord (all_lines rs) (sel_move sel)
             (aggregate (all_lines rs) (sel_move sel)))
    /\ (forall rs',
          Permutation rs rs' ->
          (forall c, c <> sel_move sel ->
                     aggregate (all_lines rs) c
                     < aggregate (all_lines rs) (sel_move sel)) ->
          exists sel',
            select_best_move rs' = Some sel' /\ sel_move sel' = sel_move sel).
Proof.
  intros Hpass Hne Hwf.
  destruct (select_best_move_lines rs Hpass Hne Hwf)
    as (a & Ha & Hsel & Hbm & Hbest).
  eexists. split; [exact Hsel|]. simpl.
  assert (Hmax : forall c, aggregate (all_lines rs) c
                           <= aggregate (all_lines rs) (best_move a)).
  { destruct Hbest as [(-> & _)|(_ & Hbp & Hmax & _)].
    - intros c. simpl. lia.
    - intros c. rewrite <- Hbp. apply Hmax. }
  split; [reflexivity|]. split; [|split; [exact Hmax|split]].
  - destruct Hwf as [HF Hs].
    rewrite merged_playouts; simpl; try assumption; lia.
  - destruct Hbest as [(E & Hp & _)|(_ & Hbp & _ & Hfirst)].
    + left. now split.
    + right. now rewrite <- Hbp.
  - intros rs' HP Huniq.
    pose proof (all_lines_perm _ _ HP) as HL.
    assert (Hne' : rs' <> []).
    { intros ->. apply Permutation_nil_r in HP. contradiction. }
    destruct (select_best_move_lines rs' Hpass Hne'
                (well_formed_perm _ _ HL Hwf))
      as (a' & _ & Hsel' & _ & Hbest').
    eexists. split; [exact Hsel'|]. simpl.
    assert (Hmax' : forall c, aggregate (all_lines rs') c
                              <= aggregate (all_lines rs') (best_move a')).
    { destruct Hbest' as [(-> & _)|(_ & Hbp & Hmax' & _)].
      - intros c. simpl. lia.
      - intros c. rewrite <- Hbp. apply Hmax'. }
    destruct (Z.eq_dec (best_move a') (best_move a)) as [E|E]; [exact E|].
    exfalso. specialize (Huniq _ E). specialize (Hmax' (best_move a)).
    rewrite <- !(aggregate_perm _ _ _ HL) in Hmax'. lia.
Qed.

(** *** Lines and headers that do not parse *)

Lemma visited_lines_header (h t : cstring) :
  ~ In NL h -> visited_lines false (h ++ NL :: t) = visited_lines true t.
Proof.
  induction h as [|c h IH]; intros Hh; simpl.
  - reflexivity.
  - destruct (Ascii.eqb c NL) eqn:E.
    + apply Ascii.eqb_eq in E. exfalso. apply Hh. now left.
    + apply IH. intros Hin. apply Hh. now right.
Qed.


(** When every line of a text, read at its start, gives its own three
    fields whatever follows it, the lines that the loop reads are the lines
    of the text. *)
Lemma visited_lines_data (ls : list (cstring * data_line)) (t : cstring) :
  Forall (fun p => ~ In NL (fst p)
                   /\ forall rest, scan_data (fst p ++ NL :: rest)
                                   = Some (snd p)) ls ->
  visited_lines true (concat (map (fun p => fst p ++ [NL]) ls) ++ t)
  = map snd ls ++ visited_lines true t.
Proof.
  induction 1 as [|[l d] ls [Hl Hd] _ IH]; [reflexivity|].
  cbn [map concat fst snd] in *.
  rewrite <- !app_assoc. cbn [app].
  set (rest := concat (map (fun p => fst p ++ [NL]) ls) ++ t) in *.
  specialize (Hd rest).
  destruct l as [|c l].
  - cbn [app] in *.
    change (visited_lines true (NL :: rest))
      with (match scan_data (NL :: rest) with
            | None => []
            | Some x => x :: visited_lines (Ascii.eqb NL NL) rest
            end).
    rewrite Hd, Ascii.eqb_refl, IH. reflexivity.
  - cbn [app] in *.
    change (visited_lines true (c :: l ++ NL :: rest))
      with (match scan_data (c :: l ++ NL :: rest) with
            | None => []
            | Some x => x :: visited_lines (Ascii.eqb c NL) (l ++ NL :: rest)
            end).
    rewrite Hd.
    destruct (Ascii.eqb c NL) eqn:E.
    + apply Ascii.eqb_eq in E. exfalso. apply Hl. now left.
    + rewrite visited_lines_header, IH; [reflexivity|].
      intros Hin. apply Hl. now right.
Qed.

Lemma reply_lines_data (h : cstring) (ls : list (cstring * data_line)) :
  ~ In NL h -> scan_header (h ++ NL :: concat (map (fun p => fst p ++ [NL]) ls))
               <> None ->
  Forall (fun p => ~ In NL (fst p)
                   /\ forall rest, scan_data (fst p ++ NL :: rest)
                                   = Some (snd p)) ls ->
  reply_lines (h ++ NL :: concat (map (fun p => fst p ++ [NL]) ls))
  = map snd ls.
Proof.
  intros Hh Hhdr Hls. unfold reply_lines.
  destruct (scan_header _); [|contradiction].
  rewrite visited_lines_header by assumption.
  rewrite <- (app_nil_r (concat _)), visited_lines_data by assumption.
  cbn. apply app_nil_r.
Qed.

Lemma reply_lines_no_header (r : cstring) :
  scan_header r = None -> reply_lines r = [].
Proof. intros H. unfold reply_lines. now rewrite H. Qed.

Lemma reply_lines_no_body (h : cstring) :
  ~ In NL h -> reply_lines (h ++ [NL]) = [].
Proof.
  intros Hh. unfold reply_lines.
  destruct (scan_header (h ++ [NL])); [|reflexivity].
  now rewrite visited_lines_header.
Qed.



End WithBoard.

(** A line of white space is not a line of its own for the loop: the read
    at its start skips it and takes the line after it, which is read again
    at its own start.  Here D4 is counted twice and wins over Q4. *)
Lemma blank_line_read_again :
  let r := str "=1 25 1" ++ [NL] ++ [SP] ++ [NL] ++ str "D4 10 0.5" ++ [NL]
           ++ str "Q4 15 0.5" ++ [NL] in
  map l_playouts (all_lines [r]) = [10; 10; 15]
  /\ option_map sel_move (Aggregator.select_best_move (-1) 21 441 gtp_coord [r])
     = Some (gtp_coord (str "D4") 21).
Proof. vm_compute. split; reflexivity. Qed.




Lemma select_best_move_max_witness :
  let ra := str "=1 1500 4" ++ [NL] ++ str "D4 1000 0.55" ++ [NL]
            ++ str "Q16 500 0.60" ++ [NL] in
  let rb := str "=1 1700 4" ++ [NL] ++ str "D4 800 0.50" ++ [NL]
            ++ str "Q4 900 0.70" ++ [NL] in
  exists sel,
    Aggregator.select_best_move (-1) 21 441 gtp_coord [ra; rb] = Some sel
    /\ sel_move sel = gtp_coord (str "D4") 21
    /\ playouts (sel_stats sel) = 1800.
Proof.
  intros ra rb.
  destruct (select_best_move_max (-1) 21 441 gtp_coord [ra; rb])
    as (sel & Hsel & _ & Hp & _).
  - unfold on_board. lia.
  - discriminate.
  - apply well_formedb_ok. vm_compute. reflexivity.
  - exists sel. split; [exact Hsel|].
    assert (E : sel_move sel = gtp_coord (str "D4") 21).
    { revert Hsel. vm_compute. now intros [= <-]. }
    split; [exact E|]. rewrite Hp, E. vm_compute. reflexivity.
Defined.

End AggregatorFacts.

(** ** The slave threads *)

Module WorkerFacts.

Import Worker.

Lemma cstr_eqb_eq (a b : cstring) : cstr_eqb a b = true <-> a = b.
Proof.
  revert b. induction a as [|x a IH]; intros [|y b]; simpl;
    try (split; [discriminate|discriminate]); [tauto|].
  rewrite andb_true_iff, Ascii.eqb_eq, IH. split.
  - now intros [-> ->].
  - now intros [= -> ->].
Qed.

Lemma read_reply_keeps (lines : list cstring) :
  forall (rid : Z) (text : cstring),
    0 <= rid -> fst (fst (read_reply rid text lines)) = rid.
Proof.
  induction lines as [|l lines IH]; intros rid text H; simpl.
  - reflexivity.
  - destruct (first_is NL l); [reflexivity|].
    replace (rid <? 0) with false by (symmetry; apply Z.ltb_ge; lia).
    simpl. now apply IH.
Qed.

Lemma has_id_not_blank (l : cstring) : has_id l = true -> first_is NL l = false.
Proof.
  destruct l as [|c l]; [discriminate|]. unfold has_id. simpl.
  destruct (Ascii.eqb c NL) eqn:E; [|reflexivity].
  apply Ascii.eqb_eq in E. subst c. discriminate.
Qed.

Lemma wait_cmd_resend (w : worker) (s : shared) (wakes : list shared) :
  resend w = true -> wait_cmd w s wakes = ([], Some (w, s)).
Proof.
  intros H. destruct wakes; simpl; rewrite H; now rewrite andb_false_r.
Qed.



Section WithSize.

Variable CMDS_SIZE : nat.
Variable slave_buf : nat.

Local Abbreviation slave_iter := (slave_iter CMDS_SIZE slave_buf).
Local Abbreviation slave_loop := (slave_loop CMDS_SIZE slave_buf).
Local Abbreviation slave_thread := (slave_thread CMDS_SIZE slave_buf).


Lemma strncasecmp0_pachi (l : cstring) :
  strncasecmp0 l (str "= Pachi") 7 = true
  <-> map tolower (firstn 7 l) = str "= pachi".
Proof. unfold strncasecmp0, strcasecmp0. apply cstr_eqb_eq. Qed.

(** C7. On every connection the thread first sends [name]; the slave is
    accepted exactly when the first line read starts with "= Pachi", the
    letters in either case, and the line read next is the empty line.
    Otherwise the thread logs, closes the connection and goes on with the
    next connection, and it takes no lock: [active_slaves] is not
    touched.  An accepted slave enters [slave_loop] with [active_slaves]
    incremented under the lock. *)
Theorem identity_check (resend : bool) (c : connection) (cs : list connection) :
  (identity_ok (c_hello c) = true
   <-> exists l1 rest,
         c_hello c = l1 :: [NL] :: rest
         /\ map tolower (firstn 7 l1) = str "= pachi")
  /\ (identity_ok (c_hello c) = false ->
      slave_thread resend (c :: cs)
      = EFputs (str "name" ++ [NL])
        :: ELog (str "? ") (str "bad slave" ++ [NL])
        :: EFclose :: slave_thread resend cs)
  /\ (identity_ok (c_hello c) = true ->
      let s0 := with_active (c_lock c) (active_slaves (c_lock c) + 1) in
      exists tl,
        slave_thread resend (c :: cs)
        = EFputs (str "name" ++ [NL]) :: ELock (c_lock c)
          :: fst (slave_loop (mkWorker (gtp_cmd s0) (-1) (-1) resend [NL])
                    s0 (c_rounds c))
          ++ tl).
Proof.
  split; [|split].
  - unfold identity_ok. destruct (c_hello c) as [|l1 [|l2 rest]].
    + split; [discriminate|]. now intros (? & ? & [=] & _).
    + destruct (strncasecmp0 l1 (str "= Pachi") 7);
        (split; [discriminate|]); now intros (? & ? & [=] & _).
    + destruct (strncasecmp0 l1 (str "= Pachi") 7) eqn:E.
      * unfold strcmp0. rewrite cstr_eqb_eq. split.
        -- intros ->. exists l1, rest. split; [reflexivity|].
           now apply strncasecmp0_pachi.
        -- now intros (? & ? & [= <- -> <-] & _).
      * split; [discriminate|]. intros (? & ? & [= <- -> <-] & H).
        apply strncasecmp0_pachi in H. congruence.
  - intros H. simpl. now rewrite H.
  - intros H s0. cbn [Worker.slave_thread]. rewrite H. fold s0.
    destruct (Worker.slave_loop CMDS_SIZE slave_buf
                (mkWorker (gtp_cmd s0) (-1) (-1) resend [NL]) s0 (c_rounds c))
      as [ev e].
    simpl fst. destruct e as [| |sr].
    + exists []. now rewrite app_nil_r.
    + exists []. now rewrite app_nil_r.
    + destruct (0 <? active_slaves sr).
      * eexists. reflexivity.
      * exists []. now rewrite app_nil_r.
Qed.

End WithSize.



Lemma identity_check_witness :
  let s := mkShared [] None 0 0 [None] in
  let bad := mkConnection [str "= GNU Go" ++ [NL]; [NL]] s [] in
  Worker.slave_thread 100 0 false [bad]
  = [EFputs (str "name" ++ [NL]);
     ELog (str "? ") (str "bad slave" ++ [NL]); EFclose].
Proof.
  intros s bad.
  destruct (identity_check 100 0 false bad []) as (_ & H & _).
  apply H. reflexivity.
Defined.

End WorkerFacts.

(** ** The coordinator *)

Module CoordinatorFacts.

Import Quorum Aggregator Coordinator.

Section WithHeaders.

Variable DIST_GAMELEN : Z.
Variable force_reply : Z -> Z.
Variable prevent_reply : Z -> Z.
Variable is_gamestart : cstring -> bool.
Variable is_reset : cstring -> bool.
Variable CMDS_SIZE : nat.
Variable stone : Type.
Variable stone2str : stone -> cstring.
Variable coord2str : Z -> cstring.
Variable pass : Z.
Variable board_size : Z.
Variable board_size2 : nat.
Variable str2coord : cstring -> Z -> Z.

Local Abbreviation distributed_notify :=
  (distributed_notify DIST_GAMELEN force_reply prevent_reply is_gamestart
     is_reset CMDS_SIZE).
Local Abbreviation update_cmd :=
  (update_cmd DIST_GAMELEN force_reply is_reset CMDS_SIZE).
Local Abbreviation distributed_genmove :=
  (distributed_genmove DIST_GAMELEN force_reply is_reset CMDS_SIZE stone
     stone2str coord2str pass board_size board_size2 str2coord).
Local Abbreviation fresh_id := (fresh_id DIST_GAMELEN force_reply).

(** C8. For [quit] when [slaves_quit] is false, [uct_genbook],
    [uct_dumpbook] and [kgs-chat], in any case of the letters,
    [distributed_notify] returns [P_OK] at once: the state is the one it
    was entered with, and the lock is not taken, nothing is broadcast and
    nothing is waited for. *)
Theorem notify_passes_through (slaves_quit : bool) (m : master) (moves : Z)
    (cmd args : cstring) (rnd : list Z) (wakes : list wake) :
  (strcasecmp0 cmd (str "quit") = true /\ slaves_quit = false)
  \/ strcasecmp0 cmd (str "uct_genbook") = true
  \/ strcasecmp0 cmd (str "uct_dumpbook") = true
  \/ strcasecmp0 cmd (str "kgs-chat") = true ->
  distributed_notify slaves_quit m moves cmd args rnd wakes
  = mkNotified (Some P_OK) m [].
Proof.
  intros H. unfold Coordinator.distributed_notify.
  replace (not_forwarded slaves_quit cmd) with true; [reflexivity|].
  symmetry. unfold not_forwarded.
  destruct H as [[H1 H2]|[H|[H|H]]].
  - rewrite H1, H2. reflexivity.
  - rewrite H. now rewrite ?orb_true_r.
  - rewrite H. now rewrite ?orb_true_r.
  - rewrite H. now rewrite ?orb_true_r.
Qed.

Lemma fresh_id_new (moves gtp_id : Z) (rnd : list Z) :
  forall id rnd',
    fresh_id moves gtp_id rnd = Some (id, rnd') ->
    id <> gtp_id
    /\ exists r, In r rnd /\ id = force_reply (moves + r * DIST_GAMELEN).
Proof.
  induction rnd as [|r rnd IH]; intros id rnd'; simpl; [discriminate|].
  destruct (force_reply (moves + r * DIST_GAMELEN) =? gtp_id) eqn:E.
  - intros H. destruct (IH _ _ H) as (Hne & r0 & Hin & Hr0).
    split; [assumption|]. exists r0. split; [now right|assumption].
  - intros [= <- <-]. apply Z.eqb_neq in E. split; [assumption|].
    exists r. split; [now left|reflexivity].
Qed.

(** C3, amended.  The play command that [distributed_genmove] issues is
    written at [gtp_cmd], which has not moved: the log keeps what precedes
    the command just broadcast, and from [gtp_cmd] on it holds the play
    command with a new id in place of that command; [reply_count] is 0. *)
Theorem genmove_overwrites_tail (m : master) (moves time_limit : Z)
    (color : stone) (rnd : list Z) (wakes : list wake) (bufs : buffers)
    (ws : list wait) (s1 : shared) (off : nat) (sel : selection) :
  get_replies (inject_Z time_limit) (m_shared m) wakes = (ws, Some s1) ->
  gtp_cmd s1 = Some off ->
  (off <= length (gtp_cmds s1))%nat ->
  g_move (distributed_genmove m moves time_limit color rnd wakes bufs)
  = Some sel ->
  let m' :=
    g_master (distributed_genmove m moves time_limit color rnd wakes bufs) in
  let text := command_text (m_gtp_id m') (str "play")
                (play_args stone stone2str coord2str color (sel_move sel)) in
  m_gtp_id m' <> m_gtp_id m
  /\ gtp_cmd (m_shared m') = Some off
  /\ firstn off (gtp_cmds (m_shared m')) = firstn off (gtp_cmds s1)
  /\ skipn off (gtp_cmds (m_shared m')) = firstn (CMDS_SIZE - off - 1) text
  /\ reply_count (m_shared m') = 0.
Proof.
  intros Hg Hoff Hlen. unfold Coordinator.distributed_genmove. rewrite Hg.
  destruct (select_replies pass board_size board_size2 str2coord bufs s1)
    as [sel0|]; [|discriminate].
  unfold Coordinator.update_cmd. cbn [m_shared m_gtp_id]. rewrite Hoff.
  destruct (fresh_id (if is_reset (str "play") then 0 else moves)
              (m_gtp_id m) rnd) as [[id rnd']|] eqn:E;
    [|simpl; discriminate].
  simpl. intros [= <-].
  apply fresh_id_new in E as [Hne _].
  unfold write_cmd.
  assert (Hl : length (firstn off (gtp_cmds s1)) = off)
    by (apply firstn_length_le; assumption).
  repeat split.
  - assumption.
  - rewrite firstn_app, Hl, Nat.sub_diag. simpl.
    rewrite app_nil_r, firstn_firstn, Nat.min_id. reflexivity.
  - rewrite skipn_app, Hl, Nat.sub_diag. simpl.
    rewrite skipn_all2 by lia. reflexivity.
Qed.

End WithHeaders.

Lemma notify_passes_through_witness :
  let m := mkMaster (mkShared (str "4000 boardsize 19" ++ [NL]) (Some O)
                       2 1 [Some 0%nat; None]) 4000 in
  Sample.notify false m 0 (str "QUIT") [] [5] []
  = mkNotified (Some P_OK) m [].
Proof.
  intros m. apply notify_passes_through. left. split; reflexivity.
Defined.

(** C3, as the specification words it, fails: after [genmove] the log
    holds the play command where the [pachi-genmoves] command was, and
    that command is gone.  The run: [boardsize 19], answered by one slave;
    [genmove b]; then [distributed_genmove], to which the slave answers
    with 100 playouts for D4. *)
Lemma genmove_keeps_history_counterexample :
  let m0 := mkMaster (mkShared [] None 1 0 [None]) (-1) in
  let s1 := mkShared (str "4000 boardsize 19" ++ [NL]) (Some O) 1 0 [None] in
  let n1 := Sample.notify false m0 0 (str "boardsize") (str "19" ++ [NL]) [3]
              [mkWake (Sample.with_replies s1 1) 1] in
  let n2 := Sample.notify false (n_master n1) 0 (str "genmove")
              (str "b" ++ [NL]) [7] [] in
  let answer := str "=8000 100 1" ++ [NL] ++ str "D4 100 0.5" ++ [NL; NL] in
  let g := Sample.genmove (n_master n2) 0 0 Sample.Black [9]
             [mkWake (Sample.with_replies (m_shared (n_master n2)) 1) 2]
             [answer] in
  gtp_cmds (m_shared (n_master n2))
  = str "0000 boardsize 19" ++ [NL] ++ str "8000 pachi-genmoves b" ++ [NL]
  /\ option_map sel_move (g_move g) = Some (gtp_coord (str "D4") 21)
  /\ gtp_cmds (m_shared (g_master g))
     = str "0000 boardsize 19" ++ [NL] ++ str "10000 play b D4" ++ [NL]
  /\ gtp_cmds (m_shared (g_master g))
     <> str "0000 boardsize 19" ++ [NL] ++ str "0000 pachi-genmoves b"
        ++ [NL] ++ str "10000 play b D4" ++ [NL].
Proof. vm_compute. repeat split. discriminate. Qed.

Lemma genmove_overwrites_tail_witness :
  let log := str "0000 boardsize 19" ++ [NL] ++ str "8000 pachi-genmoves b"
             ++ [NL] in
  let m := mkMaster (mkShared log (Some 18%nat) 1 0 [None]) 8000 in
  let answer := str "=8000 100 1" ++ [NL] ++ str "D4 100 0.5" ++ [NL; NL] in
  let g := Sample.genmove m 0 0 Sample.Black [9]
             [mkWake (Sample.with_replies (m_shared m) 1) 2] [answer] in
  gtp_cmd (m_shared (g_master g)) = Some 18%nat
  /\ skipn 18 (gtp_cmds (m_shared (g_master g)))
     = str "10000 play b D4" ++ [NL].
Proof.
  intros log m answer g.
  edestruct (genmove_overwrites_tail Sample.DIST_GAMELEN Sample.force_reply
               Sample.is_reset Sample.CMDS_SIZE Sample.colour
               Sample.colour_str (Sample.coord_str 21) (-1) 21 441 gtp_coord
               m 0 0 Sample.Black [9]
               [mkWake (Sample.with_replies (m_shared m) 1) 2] [answer])
    as (_ & H2 & _ & H4 & _).
  - vm_compute. reflexivity.
  - reflexivity.
  - vm_compute. lia.
  - vm_compute. reflexivity.
  - split; [exact H2|]. unfold g, Sample.genmove. rewrite H4.
    vm_compute. reflexivity.
Defined.

End CoordinatorFacts.

(** ** The command log *)

Module CommandLogFacts.

Import Coordinator LibcFacts.

Lemma skipn_at_length {A} (l k : list A) : skipn (length l) (l ++ k) = k.
Proof. induction l; simpl; [reflexivity|assumption]. Qed.

Lemma firstn_at_length {A} (l k : list A) : firstn (length l) (l ++ k) = l.
Proof. induction l; simpl; [reflexivity|now f_equal]. Qed.

Lemma skipn_past_length {A} (l k : list A) (n : nat) :
  skipn (length l + n) (l ++ k) = skipn n k.
Proof. induction l; simpl; [reflexivity|assumption]. Qed.

(** *** The lines of a log *)

Lemma commands_line (body rest : cstring) :
  ~ In NL body -> commands (body ++ NL :: rest) = (body ++ [NL]) :: commands rest.
Proof.
  induction body as [|c body IH]; intros H.
  - reflexivity.
  - cbn [app commands].
    destruct (Ascii.eqb c NL) eqn:E.
    + apply Ascii.eqb_eq in E. exfalso. apply H. now left.
    + rewrite IH; [reflexivity|]. intros Hin. apply H. now right.
Qed.

Lemma commands_concat (hist : list cstring) (rest : cstring) :
  Forall is_line hist -> commands (concat hist ++ rest) = hist ++ commands rest.
Proof.
  induction 1 as [|l hist (body & -> & Hb) _ IH]; [reflexivity|].
  cbn [concat app]. rewrite <- !app_assoc. cbn [app].
  now rewrite commands_line, IH.
Qed.

Lemma commands_one (l : cstring) : is_line l -> commands l = [l].
Proof.
  intros (body & -> & Hb).
  change (body ++ [NL]) with (body ++ NL :: []) at 1.
  now rewrite commands_line.
Qed.

Lemma digits_no_newline (ds : cstring) :
  forallb isdigit ds = true -> ~ In NL ds.
Proof.
  intros H Hin. rewrite forallb_forall in H. apply H in Hin. discriminate.
Qed.

Lemma print_padded_isdigit (w : nat) (n : Z) :
  0 <= n -> forallb isdigit (print_padded w n) = true.
Proof.
  intros Hn. unfold print_padded.
  replace (n <? 0) with false by (symmetry; apply Z.ltb_ge; lia).
  rewrite Z.abs_eq by lia. cbn [app].
  now rewrite forallb_app, zeros_isdigit, print_nat_isdigit.
Qed.

(** A line that starts with digits and a space stays a line when other
    digits take their place. *)
Lemma is_line_digits (ds ds' rest : cstring) :
  forallb isdigit ds' = true ->
  is_line (ds ++ SP :: rest) -> is_line (ds' ++ SP :: rest).
Proof.
  intros Hd (body & E & Hb).
  destruct (exists_last (l := rest)) as (rest' & x & ->).
  { intros ->. change (ds ++ [SP]) with (ds ++ [SP]) in E.
    apply app_inj_tail in E as [_ E]. discriminate E. }
  change (ds ++ SP :: rest' ++ [x]) with (ds ++ (SP :: rest') ++ [x]) in E.
  rewrite app_assoc in E. apply app_inj_tail in E as [<- ->].
  exists (ds' ++ SP :: rest'). split.
  - now rewrite <- app_assoc.
  - pose proof (digits_no_newline ds' Hd) as Hd'.
    rewrite in_app_iff in *. cbn [In] in *. intuition discriminate.
Qed.

Lemma translate_line (cmd args : cstring) :
  one_line cmd args -> one_line (translate cmd) args.
Proof.
  intros [Hc Ha]. split; [|exact Ha]. unfold translate.
  destruct (strcasecmp0 cmd (str "genmove"));
    [simpl; intuition discriminate|].
  destruct (strcasecmp0 cmd (str "kgs-genmove_cleanup"));
    [simpl; intuition discriminate|].
  destruct (strcasecmp0 cmd (str "final_score"));
    [simpl; intuition discriminate|].
  exact Hc.
Qed.

Section WithHeaders.

Variable DIST_GAMELEN : Z.
Variable force_reply : Z -> Z.
Variable prevent_reply : Z -> Z.
Variable is_gamestart : cstring -> bool.
Variable is_reset : cstring -> bool.
Variable CMDS_SIZE : nat.
Variable reply_disabled : Z -> bool.

(** What the statements need of the macros of distributed.h: an id made
    by [force_reply] from a move number and 16 random bits is an [int]
    with the reply flag set, and [prevent_reply] yields an id that is not
    larger, with the flag cleared. *)
Hypothesis force_reply_ok :
  forall mv r,
    0 <= mv < DIST_GAMELEN -> 0 <= r < 65535 ->
    0 <= force_reply (mv + r * DIST_GAMELEN) <= INT_MAX
    /\ reply_disabled (force_reply (mv + r * DIST_GAMELEN)) = false.
Hypothesis prevent_reply_ok :
  forall id,
    0 <= id ->
    0 <= prevent_reply id <= id /\ reply_disabled (prevent_reply id) = true.

Local Abbreviation update_cmd :=
  (update_cmd DIST_GAMELEN force_reply is_reset CMDS_SIZE).
Local Abbreviation append_cmd :=
  (append_cmd DIST_GAMELEN force_reply prevent_reply is_gamestart is_reset
     CMDS_SIZE).
Local Abbreviation keep_history := (keep_history prevent_reply).
Local Abbreviation log_inv := (log_inv reply_disabled).
Local Abbreviation room := (room CMDS_SIZE).
Local Abbreviation reachable_by :=
  (reachable_by DIST_GAMELEN force_reply prevent_reply is_gamestart is_reset
     CMDS_SIZE).

Lemma fresh_id_ok (mv gid : Z) (rnd : list Z) (id : Z) (rnd' : list Z) :
  fresh_id DIST_GAMELEN force_reply mv gid rnd = Some (id, rnd') ->
  0 <= mv < DIST_GAMELEN -> random16 rnd ->
  0 <= id <= INT_MAX /\ reply_disabled id = false.
Proof.
  revert id rnd'. induction rnd as [|r rnd IH]; intros id rnd' H Hmv Hrnd;
    simpl in H; [discriminate|].
  inversion Hrnd as [|? ? Hr Hrnd']; subst.
  destruct (force_reply (mv + r * DIST_GAMELEN) =? gid).
  - now apply (IH id rnd').
  - injection H as <- <-. now apply force_reply_ok.
Qed.

Lemma command_text_tail (id : Z) (cmd args : cstring) :
  0 <= id <= INT_MAX ->
  exists rest,
    command_text id cmd args = print_nat id ++ SP :: rest
    /\ (length (command_text id cmd args) <= length cmd + length args + 13)%nat.
Proof.
  intros Hid. unfold command_text, print_int.
  replace (id <? 0) with false by (symmetry; apply Z.ltb_ge; lia).
  eexists. split; [reflexivity|].
  pose proof (print_nat_length_int id Hid).
  rewrite !length_app. simpl. destruct args; simpl; lia.
Qed.

Lemma command_text_line (id : Z) (cmd args : cstring) :
  0 <= id -> one_line cmd args -> is_line (command_text id cmd args).
Proof.
  intros Hid [Hc Ha]. unfold command_text, print_int.
  replace (id <? 0) with false by (symmetry; apply Z.ltb_ge; lia).
  pose proof (digits_no_newline _ (print_nat_isdigit id Hid)) as Hd.
  destruct Ha as [->|(a & -> & Ha)].
  - exists (print_nat id ++ [SP] ++ cmd ++ [SP]). split.
    + cbn [app]; repeat (rewrite <- app_assoc; cbn [app]); reflexivity.
    + rewrite !in_app_iff. cbn [In]. intuition discriminate.
  - exists (print_nat id ++ [SP] ++ cmd ++ [SP] ++ a). split.
    + destruct a; cbn [app]; repeat (rewrite <- app_assoc; cbn [app]);
        reflexivity.
    + rewrite !in_app_iff. cbn [In]. intuition discriminate.
Qed.

(** [update_cmd] at the offset [length pre] of the log [pre ++ old]. *)
Lemma update_cmd_log (m : master) (moves : Z) (cmd args : cstring)
    (rnd : list Z) (m' : master) (rnd' : list Z) (pre old : cstring) :
  gtp_cmds (m_shared m) = pre ++ old ->
  gtp_cmd (m_shared m) = Some (length pre) ->
  0 <= moves < DIST_GAMELEN -> random16 rnd ->
  room (gtp_cmds (m_shared m)) cmd args ->
  update_cmd m moves cmd args rnd = Some (m', rnd') ->
  let text := command_text (m_gtp_id m') cmd args in
  gtp_cmds (m_shared m') = pre ++ text
  /\ gtp_cmd (m_shared m') = Some (length pre)
  /\ 0 <= m_gtp_id m' <= INT_MAX
  /\ reply_disabled (atoi text) = false
  /\ is_tail text.
Proof.
  intros Hlog Hoff Hmv Hrnd Hroom. unfold Coordinator.update_cmd.
  rewrite Hoff.
  destruct (fresh_id DIST_GAMELEN force_reply
              (if is_reset cmd then 0 else moves) (m_gtp_id m) rnd)
    as [[id rnd0]|] eqn:E; [|discriminate].
  intros [= <- <-]. cbn [m_gtp_id m_shared].
  apply fresh_id_ok in E as [Hid Hflag];
    [|destruct (is_reset cmd); lia|assumption].
  destruct (command_text_tail id cmd args Hid) as (rest & Htext & Hlen).
  unfold Coordinator.room in Hroom. rewrite Hlog, length_app in Hroom.
  cbn [set_reply_count set_log gtp_cmds gtp_cmd].
  split; [|split; [reflexivity|split; [assumption|split]]].
  - unfold write_cmd. rewrite Hlog, firstn_at_length.
    f_equal. apply firstn_all2. lia.
  - rewrite Htext. destruct (atoi_print_nat id rest Hid) as [-> _].
    assumption.
  - exists id, rest. now split.
Qed.

(** The rewrite of the id of the latest command, at the offset
    [length pre] of the log [pre ++ tail]. *)
Lemma keep_history_inv (s : shared) (pre tail : cstring) :
  gtp_cmds s = pre ++ tail ->
  is_tail tail ->
  let off := length pre in
  let len := strspn_digits tail in
  exists tail',
    keep_history s off
    = Some (set_log s (pre ++ tail') (Some (length (pre ++ tail'))))
    /\ reply_disabled (atoi tail') = true
    /\ length tail' = length tail
    /\ firstn len tail' = print_padded len (prevent_reply (atoi tail))
    /\ length (print_padded len (prevent_reply (atoi tail))) = len
    /\ skipn len tail' = skipn len tail
    /\ (is_line tail -> is_line tail').
Proof.
  intros Hlog (id & rest & -> & Hid) off len.
  destruct (atoi_print_nat id rest Hid) as [Hatoi Hspn].
  destruct (prevent_reply_ok id) as [Hp Hpflag]; [lia|].
  set (pid := prevent_reply id) in *.
  assert (Hlen : len = length (print_nat id)) by exact Hspn.
  assert (Hw : (length (print_nat pid) <= len)%nat).
  { rewrite Hlen. apply print_nat_length_mono. lia. }
  destruct (print_padded_field len pid rest) as [Hfl Hfa]; [lia|assumption|].
  pose proof (print_nat_length_int id Hid) as H10.
  exists (print_padded len pid ++ SP :: rest).
  assert (Hcur : skipn off (gtp_cmds s) = print_nat id ++ SP :: rest).
  { rewrite Hlog. apply skipn_at_length. }
  split; [|split; [|split; [|split; [|split; [|split]]]]].
  - unfold Coordinator.keep_history. rewrite Hcur, Hatoi. fold len. fold pid.
    replace (len <=? 31)%nat with true by (symmetry; apply Nat.leb_le; lia).
    f_equal. unfold set_log. f_equal.
    + unfold overwrite. rewrite Hlog. unfold off.
      rewrite firstn_at_length.
      rewrite (firstn_all2 (n := 31)) by lia.
      rewrite (firstn_all2 (n := len)) by lia.
      now rewrite skipn_past_length, Hlen, skipn_at_length.
    + f_equal. rewrite !length_app. simpl. fold off. lia.
  - now rewrite Hfa.
  - rewrite !length_app. simpl. lia.
  - rewrite Hatoi. fold pid. rewrite <- Hfl at 1. apply firstn_at_length.
  - rewrite Hatoi. exact Hfl.
  - rewrite <- Hfl at 1. rewrite skipn_at_length, Hlen. now rewrite skipn_at_length.
  - apply is_line_digits. apply print_padded_isdigit. lia.
Qed.

(** In every state reached, whatever the commands: the text at [gtp_cmd]
    is a command as [update_cmd] writes it. *)
Lemma reachable_tail (ok : cstring -> cstring -> Prop) (m : master) :
  reachable_by ok m ->
  gtp_cmd (m_shared m) = None
  \/ exists pre tail,
       gtp_cmds (m_shared m) = pre ++ tail
       /\ gtp_cmd (m_shared m) = Some (length pre)
       /\ is_tail tail.
Proof.
  induction 1 as [s gid Hs
                 |m moves cmd args rnd m' rnd' _ IH _ Hmv Hrnd Hroom Happ
                 |m moves args rnd m' rnd' _ IH _ Hmv Hrnd Hroom Hup
                 |m active count replies _ IH].
  - now left.
  - right. unfold Coordinator.append_cmd in Happ.
    assert (Hstart :
      update_cmd (mkMaster (set_log (m_shared m) (gtp_cmds (m_shared m))
                              (Some O)) (m_gtp_id m))
        moves (translate cmd) args rnd = Some (m', rnd') ->
      exists pre tail,
        gtp_cmds (m_shared m') = pre ++ tail
        /\ gtp_cmd (m_shared m') = Some (length pre) /\ is_tail tail).
    { intros Hup.
      apply (update_cmd_log _ _ _ _ _ _ _ [] (gtp_cmds (m_shared m))) in Hup
        as (H1 & H2 & _ & _ & H5); try assumption; try reflexivity.
      exists (@nil ascii). eexists.
      split; [exact H1|split; [exact H2|exact H5]]. }
    destruct (gtp_cmd (m_shared m)) as [off|] eqn:Hoff; [|now apply Hstart].
    destruct (is_gamestart cmd); [now apply Hstart|].
    destruct IH as [IH|(pre & tail & Hlog & Hoff' & Htail)]; [discriminate|].
    assert (off = length pre) by congruence. subst off.
    destruct (keep_history_inv _ pre tail Hlog Htail)
      as (tail' & Hk & _ & Hl & _).
    rewrite Hk in Happ.
    set (M := mkMaster _ _) in Happ.
    assert (HL : gtp_cmds (m_shared M) = (pre ++ tail') ++ [])
      by (simpl; now rewrite app_nil_r).
    assert (HR : room (gtp_cmds (m_shared M)) (translate cmd) args).
    { unfold Coordinator.room in *. simpl.
      rewrite Hlog in Hroom. rewrite !length_app in *. lia. }
    destruct (update_cmd_log M _ _ _ _ _ _ (pre ++ tail') [] HL eq_refl Hmv
                Hrnd HR Happ) as (H1 & H2 & _ & _ & H5).
    exists (pre ++ tail'). eexists.
    split; [exact H1|split; [exact H2|exact H5]].
  - right.
    destruct IH as [IH|(pre & tail & Hlog & Hoff & _)].
    + unfold Coordinator.update_cmd in Hup. now rewrite IH in Hup.
    + destruct (update_cmd_log _ _ _ _ _ _ _ pre tail Hlog Hoff Hmv Hrnd
                  Hroom Hup) as (H1 & H2 & _ & _ & H5).
      exists pre. eexists.
      split; [exact H1|split; [exact H2|exact H5]].
  - exact IH.
Qed.

(** In every state reached with commands of one line, the log is the
    history of the commands, with one flag. *)
Lemma reachable_inv (m : master) :
  reachable_by one_line m ->
  gtp_cmd (m_shared m) = None \/ log_inv (m_shared m).
Proof.
  induction 1 as [s gid Hs
                 |m moves cmd args rnd m' rnd' _ IH Hok Hmv Hrnd Hroom Happ
                 |m moves args rnd m' rnd' _ IH Hok Hmv Hrnd Hroom Hup
                 |m active count replies _ IH].
  - now left.
  - right. unfold Coordinator.append_cmd in Happ.
    apply translate_line in Hok.
    assert (Hstart :
      update_cmd (mkMaster (set_log (m_shared m) (gtp_cmds (m_shared m))
                              (Some O)) (m_gtp_id m))
        moves (translate cmd) args rnd = Some (m', rnd') ->
      log_inv (m_shared m')).
    { intros Hup.
      apply (update_cmd_log _ _ _ _ _ _ _ [] (gtp_cmds (m_shared m))) in Hup
        as (H1 & H2 & H3 & H4 & H5); try assumption; try reflexivity.
      exists [], (command_text (m_gtp_id m') (translate cmd) args).
      split; [exact H1|]. split; [exact H2|]. split; [constructor|].
      split; [apply command_text_line; [lia|assumption]|].
      split; assumption. }
    destruct (gtp_cmd (m_shared m)) as [off|] eqn:Hoff; [|now apply Hstart].
    destruct (is_gamestart cmd); [now apply Hstart|].
    destruct IH as [IH|(hist & tail & Hlog & Hoff' & Hhist & Hline & _ & Htail)];
      [discriminate|].
    assert (off = length (concat hist)) by congruence. subst off.
    destruct (keep_history_inv _ (concat hist) tail Hlog Htail)
      as (tail' & Hk & Hflag & Hl & _ & _ & _ & Hline').
    rewrite Hk in Happ.
    set (M := mkMaster _ _) in Happ.
    assert (HL : gtp_cmds (m_shared M) = (concat hist ++ tail') ++ [])
      by (simpl; now rewrite app_nil_r).
    assert (HR : room (gtp_cmds (m_shared M)) (translate cmd) args).
    { unfold Coordinator.room in *. simpl.
      rewrite Hlog in Hroom. rewrite !length_app in *. lia. }
    destruct (update_cmd_log M _ _ _ _ _ _ (concat hist ++ tail') [] HL
                eq_refl Hmv Hrnd HR Happ) as (H1 & H2 & H3 & H4 & H5).
    exists (hist ++ [tail']),
      (command_text (m_gtp_id m') (translate cmd) args).
    rewrite concat_app. cbn [concat]. rewrite app_nil_r.
    split; [exact H1|]. split; [exact H2|]. split.
    { apply Forall_app. split; [assumption|].
      constructor; [|constructor]. split; [now apply Hline'|assumption]. }
    split; [apply command_text_line; [lia|assumption]|].
    split; assumption.
  - right.
    destruct IH as [IH|(hist & tail & Hlog & Hoff & Hhist & _ & _ & _)].
    + unfold Coordinator.update_cmd in Hup. now rewrite IH in Hup.
    + destruct (update_cmd_log _ _ _ _ _ _ _ (concat hist) tail Hlog Hoff
                  Hmv Hrnd Hroom Hup) as (H1 & H2 & H3 & H4 & H5).
      exists hist, (command_text (m_gtp_id m') (str "play") args).
      split; [exact H1|]. split; [exact H2|]. split; [assumption|].
      split; [apply command_text_line; [lia|assumption]|].
      split; assumption.
  - exact IH.
Qed.

Lemma no_flag_filter (hist : list cstring) :
  Forall (fun l => reply_disabled (atoi l) = true) hist ->
  List.filter (fun l => negb (reply_disabled (atoi l))) hist = [].
Proof.
  induction 1 as [|l hist Hl _ IH]; simpl; [reflexivity|].
  now rewrite Hl.
Qed.

(** C6, amended.  In every state of the master reached through commands
    of one line that have found room in the log ([room]), once a command
    is logged:
    the commands of the log, its lines, are a history of commands whose
    ids have the reply flag cleared, followed by the command at
    [gtp_cmd], whose id has the flag set; exactly one command has the
    flag set.  The rewrite that precedes an append replaces the digits of
    the id at [gtp_cmd] by [prevent_reply] of it, printed with zeros on
    the left over the same number of characters: the length of the log
    and every character outside the id field are unchanged, [gtp_cmd]
    moves to the end of the log, and no command has the flag set until
    the new command is written. *)
Theorem one_reply_flag (m : master) (off : nat) :
  reachable_by one_line m ->
  gtp_cmd (m_shared m) = Some off ->
  let log := gtp_cmds (m_shared m) in
  let cur := skipn off log in
  let len := strspn_digits cur in
  let flagged := fun l => negb (reply_disabled (atoi l)) in
  exists hist s1,
    commands log = hist ++ [cur]
    /\ off = length (concat hist)
    /\ Forall (fun l => reply_disabled (atoi l) = true) hist
    /\ reply_disabled (atoi cur) = false
    /\ length (List.filter flagged (commands log)) = 1%nat
    /\ keep_history (m_shared m) off = Some s1
    /\ length (gtp_cmds s1) = length log
    /\ firstn off (gtp_cmds s1) = firstn off log
    /\ firstn len (skipn off (gtp_cmds s1))
       = print_padded len (prevent_reply (atoi cur))
    /\ length (print_padded len (prevent_reply (atoi cur))) = len
    /\ skipn (off + len) (gtp_cmds s1) = skipn (off + len) log
    /\ gtp_cmd s1 = Some (length log)
    /\ List.filter flagged (commands (gtp_cmds s1)) = [].
Proof.
  intros Hm Hoff log cur len flagged.
  destruct (reachable_inv m Hm)
    as [Hn|(hist & tail & Hlog & Hoff' & Hhist & Hline & Hflag & Htail)];
    [congruence|].
  assert (off = length (concat hist)) by congruence. subst off.
  assert (Hcur : cur = tail).
  { unfold cur, log. rewrite Hlog. apply skipn_at_length. }
  assert (Hlines : Forall is_line hist).
  { eapply Forall_impl; [exact Hhist|]. now intros l [H _]. }
  assert (Hflags : Forall (fun l => reply_disabled (atoi l) = true) hist).
  { eapply Forall_impl; [exact Hhist|]. now intros l [_ H]. }
  assert (Hcmds : commands log = hist ++ [tail]).
  { unfold log. rewrite Hlog, commands_concat by assumption.
    now rewrite commands_one. }
  destruct (keep_history_inv _ (concat hist) tail Hlog Htail)
    as (tail' & Hk & Hflag' & Hl & Hf & Hfl & Hs & Hline').
  unfold len. rewrite Hcur.
  exists hist. eexists.
  split; [exact Hcmds|]. split; [reflexivity|]. split; [exact Hflags|].
  split; [exact Hflag|]. split.
  { rewrite Hcmds, List.filter_app, no_flag_filter by assumption.
    unfold flagged. simpl. now rewrite Hflag. }
  split; [exact Hk|]. cbn [set_log gtp_cmds gtp_cmd]. unfold log.
  rewrite Hlog. repeat split.
  - rewrite !length_app. lia.
  - now rewrite !firstn_at_length.
  - now rewrite skipn_at_length.
  - exact Hfl.
  - now rewrite !skipn_past_length.
  - rewrite !length_app. f_equal. lia.
  - rewrite commands_concat, commands_one by (try assumption; now apply Hline').
    rewrite List.filter_app, no_flag_filter by assumption.
    unfold flagged. simpl. now rewrite Hflag'.
Qed.

End WithHeaders.

Lemma sample_force_reply_ok (mv r : Z) :
  0 <= mv < Sample.DIST_GAMELEN -> 0 <= r < 65535 ->
  0 <= Sample.force_reply (mv + r * Sample.DIST_GAMELEN) <= INT_MAX
  /\ Sample.reply_disabled (Sample.force_reply (mv + r * Sample.DIST_GAMELEN))
     = false.
Proof.
  unfold Sample.force_reply, Sample.reply_disabled, Sample.DIST_GAMELEN,
    INT_MAX.
  intros Hmv Hr. split; [lia|]. apply Z.ltb_ge. lia.
Qed.

Lemma sample_prevent_reply_ok (id : Z) :
  0 <= id ->
  0 <= Sample.prevent_reply id <= id
  /\ Sample.reply_disabled (Sample.prevent_reply id) = true.
Proof.
  unfold Sample.prevent_reply, Sample.reply_disabled, Sample.DIST_GAMELEN.
  intros Hid. rewrite Z.rem_mod_nonneg by lia.
  pose proof (Z.mod_pos_bound id 1000). pose proof (Z.mod_le id 1000).
  split; [lia|]. apply Z.ltb_lt. lia.
Qed.

Lemma one_line_args (cmd a : cstring) :
  forallb (fun c => negb (Ascii.eqb c NL)) (cmd ++ a) = true ->
  one_line cmd (a ++ [NL]).
Proof.
  intros H. rewrite forallb_app in H. apply andb_true_iff in H as [Hc Ha].
  assert (K : forall l, forallb (fun c => negb (Ascii.eqb c NL)) l = true ->
                        ~ In NL l).
  { intros l Hl Hin. rewrite forallb_forall in Hl. apply Hl in Hin.
    discriminate. }
  split; [now apply K|]. right. exists a. split; [reflexivity|now apply K].
Qed.

(** C6, as the specification words it, fails when the log is full.  The
    first command has an argument of 24000 characters and is cut to the
    size of the log; the command after it finds no room: nothing of it is
    written, [gtp_cmd] is at the end of the log, and no command of the
    log has the reply flag set. *)
Lemma full_log_counterexample :
  let long := repeat "a"%char (Z.to_nat 24000) ++ [NL] in
  let m0 := mkMaster (mkShared [] None 1 0 [None]) (-1) in
  let flagged := fun l => negb (Sample.reply_disabled (atoi l)) in
  let append :=
    append_cmd Sample.DIST_GAMELEN Sample.force_reply Sample.prevent_reply
      Sample.is_gamestart Sample.is_reset Sample.CMDS_SIZE in
  match append m0 0 (str "play") long [3] with
  | Some (m1, _) =>
      match append m1 1 (str "play") (str "b D4" ++ [NL]) [7] with
      | Some (m2, _) =>
          Z.of_nat (length (gtp_cmds (m_shared m1))) = 23999
          /\ option_map Z.of_nat (gtp_cmd (m_shared m2)) = Some 23999
          /\ skipn (Sample.CMDS_SIZE - 1) (gtp_cmds (m_shared m2)) = []
          /\ firstn 10 (gtp_cmds (m_shared m2)) = str "0000 play "
          /\ List.filter flagged (commands (gtp_cmds (m_shared m2))) = []
      | None => False
      end
  | None => False
  end.
Proof. vm_compute. repeat split. Qed.

Lemma one_reply_flag_witness :
  let log := str "0000 boardsize 19" ++ [NL] ++ str "8001 play b D4" ++ [NL] in
  let m2 := mkMaster (mkShared log (Some 18%nat) 1 0 [None]) 8001 in
  commands log = [str "0000 boardsize 19" ++ [NL]; str "8001 play b D4" ++ [NL]]
  /\ length (List.filter (fun l => negb (Sample.reply_disabled (atoi l)))
               (commands log)) = 1%nat
  /\ exists s1,
       keep_history Sample.prevent_reply (m_shared m2) 18 = Some s1
       /\ gtp_cmds s1
          = str "0000 boardsize 19" ++ [NL] ++ str "0001 play b D4" ++ [NL].
Proof.
  intros log m2.
  pose (m0 := mkMaster (mkShared [] None 1 0 [None]) (-1)).
  pose (m1 := mkMaster (mkShared (str "4000 boardsize 19" ++ [NL])
                          (Some O) 1 0 [None]) 4000).
  assert (R0 : reachable_by Sample.DIST_GAMELEN Sample.force_reply
                 Sample.prevent_reply Sample.is_gamestart Sample.is_reset
                 Sample.CMDS_SIZE one_line m0)
    by (apply reach_start; reflexivity).
  assert (R1 : reachable_by Sample.DIST_GAMELEN Sample.force_reply
                 Sample.prevent_reply Sample.is_gamestart Sample.is_reset
                 Sample.CMDS_SIZE one_line m1).
  { apply (reach_notify _ _ _ _ _ _ _ m0 0 (str "boardsize")
             (str "19" ++ [NL]) [3] m1 []); try exact R0.
    - apply one_line_args. reflexivity.
    - unfold Sample.DIST_GAMELEN. lia.
    - repeat constructor; lia.
    - unfold room, Sample.CMDS_SIZE. simpl length. lia.
    - vm_compute. reflexivity. }
  assert (R2 : reachable_by Sample.DIST_GAMELEN Sample.force_reply
                 Sample.prevent_reply Sample.is_gamestart Sample.is_reset
                 Sample.CMDS_SIZE one_line m2).
  { apply (reach_notify _ _ _ _ _ _ _ m1 1 (str "play") (str "b D4" ++ [NL])
             [7] m2 []); try exact R1.
    - apply one_line_args. reflexivity.
    - unfold Sample.DIST_GAMELEN. lia.
    - repeat constructor; lia.
    - unfold room, Sample.CMDS_SIZE. simpl length. lia.
    - vm_compute. reflexivity. }
  destruct (one_reply_flag Sample.DIST_GAMELEN Sample.force_reply
              Sample.prevent_reply Sample.is_gamestart Sample.is_reset
              Sample.CMDS_SIZE Sample.reply_disabled
              sample_force_reply_ok sample_prevent_reply_ok m2 18 R2 eq_refl)
    as (hist & s1 & Hc & _ & _ & _ & Hn & Hk & _).
  split; [reflexivity|]. split; [exact Hn|].
  exists s1. split; [exact Hk|].
  revert Hk. vm_compute. now intros [= <-].
Defined.

End CommandLogFacts.

(** * Further properties *)

(** ** The quorum wait and the deadline *)

Module QuorumDeadline.

Import Quorum.

Lemma Qlt_bool_lt (a b : Q) : Qlt_bool a b = true -> (a < b)%Q.
Proof.
  unfold Qlt_bool. intros H. apply negb_true_iff in H.
  apply Qnot_le_lt. intros Hle. apply Qle_bool_iff in Hle. congruence.
Qed.

(** A turn of the loop leaves the deadline where it is or pulls it in. *)
Lemma after_wake_continue (tl T : Q) (s : shared) (now tl' : Q) :
  (0 < tl)%Q -> (tl <= T)%Q -> (0 <= now)%Q ->
  after_wake tl s now = Continue tl' ->
  (0 < tl')%Q /\ (tl' <= T)%Q.
Proof.
  intros Hpos Hle Hnow. unfold after_wake.
  destruct (reply_count s =? 0); [intros [= <-]; now split|].
  destruct (active_slaves s <=? reply_count s); [discriminate|].
  destruct (nonzero tl && Qle_bool tl now); [discriminate|].
  destruct (Z.quot (active_slaves s) 2 <=? reply_count s); simpl.
  - destruct (negb (nonzero tl) || Qlt_bool (now + EXTRA_TIME) tl) eqn:E.
    + intros [= <-]. split.
      * apply Qlt_le_trans with (0 + EXTRA_TIME)%Q; [reflexivity|].
        apply Qplus_le_compat; [assumption|apply Qle_refl].
      * apply orb_true_iff in E as [E|E].
        -- rewrite QuorumFacts.nonzero_pos in E by assumption. discriminate.
        -- apply Qlt_bool_lt in E. apply Qlt_le_weak.
           eapply Qlt_le_trans; eassumption.
    + intros [= <-]. now split.
  - intros [= <-]. now split.
Qed.

Lemma waits_within (ws : list wake) :
  forall (tl T : Q) (s : shared),
    (0 < tl)%Q -> (tl <= T)%Q -> 0 < reply_count s ->
    Forall (fun k => 0 < reply_count (w_state k) /\ (0 <= w_now k)%Q) ws ->
    Forall (fun w => exists t, w = TimedWait t /\ (0 < t)%Q /\ (t <= T)%Q)
      (fst (get_replies tl s ws)).
Proof.
  induction ws as [|k ws IH]; intros tl T s Hpos Hle Hs Hws.
  - simpl. destruct ((reply_count s =? 0) || _); simpl; [|constructor].
    constructor; [|constructor]. exists tl. unfold next_wait.
    rewrite QuorumFacts.nonzero_pos by assumption.
    replace (0 <? reply_count s) with true by (symmetry; apply Z.ltb_lt; lia).
    now repeat split.
  - inversion Hws as [|? ? [Hk Hnow] Hws']; subst.
    assert (Hw : exists t, next_wait tl s = TimedWait t
                           /\ (0 < t)%Q /\ (t <= T)%Q).
    { exists tl. unfold next_wait.
      rewrite QuorumFacts.nonzero_pos by assumption.
      replace (0 <? reply_count s) with true
        by (symmetry; apply Z.ltb_lt; lia).
      now repeat split. }
    cbn [get_replies].
    destruct ((reply_count s =? 0) || _); simpl; [|constructor].
    destruct (after_wake tl (w_state k) (w_now k)) as [|tl'] eqn:A.
    + simpl. constructor; [assumption|constructor].
    + destruct (after_wake_continue tl T _ _ _ Hpos Hle Hnow A) as [Hp' Hl'].
      specialize (IH tl' T (w_state k) Hp' Hl' Hk Hws').
      destruct (get_replies tl' (w_state k) ws) as [t r]. simpl in *.
      constructor; assumption.
Qed.

(** Once a reply is there, [get_replies] with a deadline only waits with a
    deadline, and never with a later one than the deadline it was given:
    the half-second of grace can pull the deadline in, not push it out. *)
Theorem get_replies_waits_within_deadline (time_limit : Q) (s : shared)
    (ws : list wake) :
  (0 < time_limit)%Q -> 0 < reply_count s ->
  Forall (fun k => 0 < reply_count (w_state k) /\ (0 <= w_now k)%Q) ws ->
  Forall (fun w => exists t, w = TimedWait t /\ (0 < t)%Q
                             /\ (t <= time_limit)%Q)
    (fst (get_replies time_limit s ws)).
Proof.
  intros Hpos Hs Hws. apply waits_within; try assumption. apply Qle_refl.
Qed.

Lemma get_replies_waits_within_deadline_witness :
  let s1 := mkShared [] None 4 1 [Some 0%nat; None; None; None] in
  let s2 := mkShared [] None 4 2 [Some 0%nat; Some 1%nat; None; None] in
  fst (get_replies 20 s1 [mkWake s2 10; mkWake s2 (21 # 2)])
  = [TimedWait 20; TimedWait (10 + EXTRA_TIME)]
  /\ Forall (fun w => exists t, w = TimedWait t /\ (0 < t)%Q /\ (t <= 20)%Q)
       (fst (get_replies 20 s1 [mkWake s2 10; mkWake s2 (21 # 2)])).
Proof.
  intros s1 s2. split; [reflexivity|].
  apply (get_replies_waits_within_deadline 20 s1).
  - reflexivity.
  - simpl. lia.
  - repeat constructor; simpl; try lia; discriminate.
Defined.

Lemma returns_by (pre : list wake) :
  forall (tl T : Q) (s : shared) (k : wake) (post : list wake),
    (0 < tl)%Q -> (tl <= T)%Q -> 0 < reply_count s ->
    Forall (fun k => 0 < reply_count (w_state k) /\ (0 <= w_now k)%Q)
      (pre ++ [k]) ->
    (T <= w_now k)%Q ->
    exists s',
      snd (get_replies tl s (pre ++ k :: post)) = Some s'
      /\ In s' (s :: map w_state (pre ++ [k])).
Proof.
  induction pre as [|k0 pre IH]; intros tl T s k post Hpos Hle Hs Hws Hk.
  - simpl app. cbn [get_replies].
    destruct ((reply_count s =? 0) || _); [|exists s; split; [reflexivity|now left]].
    inversion Hws as [|? ? [Hrk Hnow] _]; subst.
    assert (A : after_wake tl (w_state k) (w_now k) = Break).
    { unfold after_wake.
      replace (reply_count (w_state k) =? 0) with false
        by (symmetry; apply Z.eqb_neq; lia).
      destruct (active_slaves (w_state k) <=? reply_count (w_state k));
        [reflexivity|].
      rewrite QuorumFacts.nonzero_pos by assumption.
      replace (Qle_bool tl (w_now k)) with true; [reflexivity|].
      symmetry. apply Qle_bool_iff. eapply Qle_trans; eassumption. }
    rewrite A. exists (w_state k). split; [reflexivity|]. right. now left.
  - simpl app. cbn [get_replies].
    destruct ((reply_count s =? 0) || _); [|exists s; split; [reflexivity|now left]].
    inversion Hws as [|? ? [Hrk Hnow] Hws']; subst.
    destruct (after_wake tl (w_state k0) (w_now k0)) as [|tl'] eqn:A.
    + exists (w_state k0). split; [reflexivity|]. right. now left.
    + destruct (after_wake_continue tl T _ _ _ Hpos Hle Hnow A) as [Hp' Hl'].
      destruct (IH tl' T (w_state k0) k post Hp' Hl' Hrk Hws' Hk)
        as (s' & Hs' & Hin).
      destruct (get_replies tl' (w_state k0) (pre ++ k :: post)) as [t r].
      simpl in *. exists s'. split; [assumption|]. right. exact Hin.
Qed.

(** With a deadline and a reply in hand, [get_replies] has returned by
    the first wake-up that comes at or after the deadline: it returns the
    state found at that wake-up or at an earlier one, whatever comes
    later. *)
Theorem get_replies_returns_by_deadline (time_limit : Q) (s : shared)
    (pre : list wake) (k : wake) (post : list wake) :
  (0 < time_limit)%Q -> 0 < reply_count s ->
  Forall (fun k => 0 < reply_count (w_state k) /\ (0 <= w_now k)%Q)
    (pre ++ [k]) ->
  (time_limit <= w_now k)%Q ->
  exists s',
    snd (get_replies time_limit s (pre ++ k :: post)) = Some s'
    /\ In s' (s :: map w_state (pre ++ [k])).
Proof.
  intros Hpos Hs Hws Hk. apply (returns_by pre time_limit time_limit);
    try assumption. apply Qle_refl.
Qed.

Lemma get_replies_returns_by_deadline_witness :
  let s1 := mkShared [] None 4 1 [Some 0%nat; None; None; None] in
  exists s',
    snd (get_replies 20 s1 [mkWake s1 5; mkWake s1 21; mkWake s1 30])
    = Some s'
    /\ In s' (s1 :: map w_state [mkWake s1 5; mkWake s1 21]).
Proof.
  intros s1.
  apply (get_replies_returns_by_deadline 20 s1 [mkWake s1 5] (mkWake s1 21)
           [mkWake s1 30]).
  - reflexivity.
  - simpl. lia.
  - repeat constructor; simpl; try lia; discriminate.
  - discriminate.
Defined.

End QuorumDeadline.

(** ** More on the slave threads *)

Module WorkerMore.

Import Worker WorkerRuns.

Lemma deposit_frame (s s' : shared) (buf : nat) :
  deposit s buf = Some s' ->
  gtp_cmds s' = gtp_cmds s /\ gtp_cmd s' = gtp_cmd s
  /\ active_slaves s' = active_slaves s
  /\ reply_count s' = reply_count s + 1
  /\ length (gtp_replies s') = length (gtp_replies s)
  /\ gtp_replies s' !! Z.to_nat (reply_count s) = Some (Some buf)
  /\ forall i, i <> Z.to_nat (reply_count s) ->
               gtp_replies s' !! i = gtp_replies s !! i.
Proof.
  unfold deposit.
  destruct ((0 <=? reply_count s)
            && (Z.to_nat (reply_count s) <? length (gtp_replies s))%nat)
    eqn:E; [|discriminate].
  apply andb_true_iff in E as [_ E]. apply Nat.ltb_lt in E.
  intros [= <-]. simpl. repeat split.
  - apply length_insert.
  - now apply list_lookup_insert_eq.
  - intros i Hi. now apply list_lookup_insert_ne.
Qed.

Lemma read_reply_text (lines : list cstring) :
  forall (rid : Z) (text : cstring),
    Forall (fun l => first_is NL l = false) lines ->
    read_reply rid text lines
    = (fst (fst (read_reply rid text lines)), text ++ concat lines, false).
Proof.
  induction lines as [|l lines IH]; intros rid text H; simpl.
  - now rewrite app_nil_r.
  - inversion H as [|? ? Hl H']; subst. rewrite Hl.
    rewrite IH at 1 by assumption. now rewrite <- app_assoc.
Qed.

Lemma read_reply_blank (lines : list cstring) (blank : cstring)
    (rest : list cstring) :
  forall (rid : Z) (text : cstring),
    Forall (fun l => first_is NL l = false) lines ->
    first_is NL blank = true ->
    read_reply rid text (lines ++ blank :: rest)
    = (fst (fst (read_reply rid text lines)), text ++ concat lines ++ blank,
       true).
Proof.
  induction lines as [|l lines IH]; intros rid text Hl Hb; simpl.
  - now rewrite Hb.
  - inversion Hl as [|? ? Hl1 Hl']; subst. rewrite Hl1.
    rewrite IH by assumption. now rewrite <- !app_assoc.
Qed.

(** The framing of a reply.  The lines up to the first one that starts
    with a newline, that line included, are the reply; what the slave
    sends after it is not read, and without such a line the reply is not
    complete (the connection is lost). *)
Theorem read_reply_framing (rid : Z) (lines : list cstring)
    (blank : cstring) (rest : list cstring) :
  Forall (fun l => first_is NL l = false) lines ->
  first_is NL blank = true ->
  read_reply rid [] (lines ++ blank :: rest)
  = (fst (fst (read_reply rid [] lines)), concat lines ++ blank, true)
  /\ snd (read_reply rid [] lines) = false
  /\ snd (fst (read_reply rid [] lines)) = concat lines.
Proof.
  intros Hl Hb. split; [|split].
  - now apply read_reply_blank.
  - now rewrite read_reply_text.
  - now rewrite read_reply_text.
Qed.

Lemma read_reply_framing_witness :
  read_reply (-1) []
    [str "=8000 100 1" ++ [NL]; str "D4 100 0.5" ++ [NL]; [NL];
     str "=8001 late" ++ [NL]]
  = (8000, str "=8000 100 1" ++ [NL] ++ str "D4 100 0.5" ++ [NL] ++ [NL],
     true).
Proof.
  apply (read_reply_framing (-1)
           [str "=8000 100 1" ++ [NL]; str "D4 100 0.5" ++ [NL]] [NL]
           [str "=8001 late" ++ [NL]]).
  - repeat constructor.
  - reflexivity.
Defined.

Section WithSize.

Variable CMDS_SIZE : nat.
Variable slave_buf : nat.

Local Abbreviation slave_iter := (slave_iter CMDS_SIZE slave_buf).
Local Abbreviation slave_loop := (slave_loop CMDS_SIZE slave_buf).
Local Abbreviation slave_thread := (slave_thread CMDS_SIZE slave_buf).

Lemma slave_iter_resend (w : worker) (s : shared) (r : round) :
  resend w = true ->
  forallb (fun e => negb (is_wait_cmd e)) (fst (slave_iter w s r)) = true
  /\ forall w' s', snd (slave_iter w s r) = Next w' s' -> resend w' = true.
Proof.
  intros H. unfold Worker.slave_iter.
  rewrite WorkerFacts.wait_cmd_resend by assumption.
  destruct (to_send w); [|split; [reflexivity|discriminate]].
  destruct (current_cmd s); [|split; [reflexivity|discriminate]].
  destruct (read_reply (-1) [] (r_lines r)) as [[rid reply] complete].
  destruct complete; simpl; [|split; [reflexivity|discriminate]].
  destruct ((rid =? atoi c) && first_is "=" reply).
  - destruct (deposit (r_relock r) slave_buf); simpl.
    + split; [reflexivity|]. now intros w' s' [= <- _].
    + split; [reflexivity|discriminate].
  - simpl. split; [reflexivity|]. now intros w' s' [= <- _].
Qed.

(** The resend flag is never cleared.  Once it is set, an iteration that
    goes on to the next one leaves it set, an accepted reply included,
    and the loop never again waits for a new command on [cmd_cond]. *)
Theorem resend_never_cleared (w : worker) (s : shared) (rs : list round) :
  resend w = true ->
  (forall r w' s', snd (slave_iter w s r) = Next w' s' -> resend w' = true)
  /\ forallb (fun e => negb (is_wait_cmd e)) (fst (slave_loop w s rs)) = true.
Proof.
  intros H. split.
  - intros r. now apply slave_iter_resend.
  - revert w s H. induction rs as [|r rs IH]; intros w s H; simpl.
    + reflexivity.
    + destruct (slave_iter_resend w s r H) as [Hev Hnext].
      destruct (Worker.slave_iter CMDS_SIZE slave_buf w s r) as [ev e].
      simpl in *.
      destruct e as [| |s'|w' s']; try assumption.
      specialize (IH w' s' (Hnext w' s' eq_refl)).
      destruct (Worker.slave_loop CMDS_SIZE slave_buf w' s' rs) as [ev' e'].
      simpl in *. now rewrite forallb_app, Hev, IH.
Qed.

(** With the resend flag set, every accepted reply is stored again: when
    the slave answers [n] rounds in a row with the id of the command at
    [gtp_cmd] and no other thread runs, the loop signals [n] replies to
    this one command, one for each round, without waiting in between. *)
Theorem resend_stores_every_round (n : nat) :
  forall (w : worker) (s : shared) (ts : nat) (cur : cstring)
         (lines : list cstring) (rid : Z) (reply : cstring),
    resend w = true ->
    to_send w = Some ts ->
    current_cmd s = Some cur ->
    read_reply (-1) [] lines = (rid, reply, true) ->
    rid = atoi cur -> first_is "=" reply = true ->
    0 <= reply_count s ->
    (Z.to_nat (reply_count s) + n <= length (gtp_replies s))%nat ->
    length (List.filter is_signal
              (fst (slave_loop w s (quiet_rounds slave_buf lines s n)))) = n
    /\ forallb (fun e => negb (is_wait_cmd e))
         (fst (slave_loop w s (quiet_rounds slave_buf lines s n))) = true.
Proof.
  induction n as [|n IH];
    intros w s ts cur lines rid reply Hre Hts Hcur Hread Hid Heq Hrc Hcap.
  - split; reflexivity.
  - split; [|now apply resend_never_cleared].
    cbn [quiet_rounds Worker.slave_loop]. unfold Worker.slave_iter.
    cbn [r_wakes r_lines r_relock].
    rewrite WorkerFacts.wait_cmd_resend by assumption.
    rewrite Hts, Hcur, Hread. simpl negb. cbv iota.
    replace (rid =? atoi cur) with true by (symmetry; now apply Z.eqb_eq).
    rewrite Heq. simpl andb. cbv iota.
    destruct (deposit s slave_buf) as [s3|] eqn:E.
    + pose proof (deposit_frame _ _ _ E) as (H1 & H2 & H3 & H4 & H5 & _).
      destruct (IH (mkWorker (Some ts) (atoi cur) rid (resend w) reply)
                  s3 ts cur lines rid reply) as [IHn _];
        try assumption; try reflexivity.
      * unfold current_cmd in *. now rewrite H1, H2.
      * lia.
      * rewrite H4, H5. lia.
      * destruct (Worker.slave_loop CMDS_SIZE slave_buf _ s3
                    (quiet_rounds slave_buf lines s3 n)) as [ev' e'].
        simpl in *. now rewrite IHn.
    + exfalso. unfold deposit in E.
      replace (0 <=? reply_count s) with true in E
        by (symmetry; apply Z.leb_le; lia).
      replace (Z.to_nat (reply_count s) <? length (gtp_replies s))%nat
        with true in E by (symmetry; apply Nat.ltb_lt; lia).
      discriminate.
Qed.

End WithSize.

Lemma resend_stores_every_round_witness :
  let s := mkShared (str "8000 play b d4" ++ [NL]) (Some O) 1 0 [None; None; None] in
  let w := mkWorker (Some O) 7000 (-1) true [] in
  let lines := [str "=8000" ++ [NL]; [NL]] in
  let reply := str "=8000" ++ [NL] ++ [NL] in
  length (List.filter is_signal
            (fst (Worker.slave_loop 100 0 w s (quiet_rounds 0 lines s 3))))
  = 3%nat.
Proof.
  intros s w lines reply.
  apply (resend_stores_every_round 100 0 3 w s O
           (str "8000 play b d4" ++ [NL])
           lines 8000 reply); try reflexivity; simpl; lia.
Defined.

Lemma resend_never_cleared_witness :
  let s := mkShared (str "8000 play b d4" ++ [NL]) (Some O) 1 0 [None] in
  let w := mkWorker (Some O) 7000 (-1) true [] in
  let r := mkRound [] [str "=8000" ++ [NL]; [NL]] s in
  forallb (fun e => negb (is_wait_cmd e))
    (fst (Worker.slave_loop 100 0 w s [r; r])) = true.
Proof.
  intros s w r.
  apply (resend_never_cleared 100 0 w s [r; r]). reflexivity.
Defined.

End WorkerMore.

(** ** More on the coordinator *)

Module CoordinatorMore.

Lemma deref_all_length (bufs : buffers) (ps : list (option nat)) :
  forall rs, deref_all bufs ps = Some rs -> length rs = length ps.
Proof.
  induction ps as [|p ps IH]; intros rs; simpl.
  - now intros [= <-].
  - destruct (deref bufs p); [|discriminate].
    destruct (deref_all bufs ps); [|discriminate].
    intros [= <-]. simpl. f_equal. now apply IH.
Qed.

Lemma replies_of_length (bufs : buffers) (s : shared) (rs : list cstring) :
  replies_of bufs s = Some rs -> length rs = Z.to_nat (reply_count s).
Proof.
  unfold replies_of, reply_slots.
  destruct (Z.to_nat (reply_count s) <=? length (gtp_replies s))%nat eqn:E;
    [|discriminate].
  apply Nat.leb_le in E. intros H. apply deref_all_length in H.
  rewrite H. now apply firstn_length_le.
Qed.

Import Quorum Aggregator Coordinator Worker.

Section WithHeaders.

Variable DIST_GAMELEN : Z.
Variable force_reply : Z -> Z.
Variable prevent_reply : Z -> Z.
Variable is_gamestart : cstring -> bool.
Variable is_reset : cstring -> bool.
Variable CMDS_SIZE : nat.
Variable stone : Type.
Variable stone2str : stone -> cstring.
Variable coord2str : Z -> cstring.
Variable pass : Z.
Variable board_size : Z.
Variable board_size2 : nat.
Variable str2coord : cstring -> Z -> Z.

Local Abbreviation distributed_notify :=
  (distributed_notify DIST_GAMELEN force_reply prevent_reply is_gamestart
     is_reset CMDS_SIZE).
Local Abbreviation update_cmd :=
  (update_cmd DIST_GAMELEN force_reply is_reset CMDS_SIZE).
Local Abbreviation append_cmd :=
  (append_cmd DIST_GAMELEN force_reply prevent_reply is_gamestart is_reset
     CMDS_SIZE).
Local Abbreviation distributed_genmove :=
  (distributed_genmove DIST_GAMELEN force_reply is_reset CMDS_SIZE stone
     stone2str coord2str pass board_size board_size2 str2coord).
Local Abbreviation fresh_id := (fresh_id DIST_GAMELEN force_reply).
Local Abbreviation select_best_move :=
  (select_best_move pass board_size board_size2 str2coord).

Lemma update_cmd_result (m : master) (moves : Z) (cmd args : cstring)
    (rnd : list Z) (m' : master) (rnd' : list Z) :
  update_cmd m moves cmd args rnd = Some (m', rnd') ->
  exists off,
    gtp_cmd (m_shared m) = Some off
    /\ fresh_id (if is_reset cmd then 0 else moves) (m_gtp_id m) rnd
       = Some (m_gtp_id m', rnd')
    /\ m_shared m'
       = mkShared
           (write_cmd CMDS_SIZE (gtp_cmds (m_shared m)) off
              (command_text (m_gtp_id m') cmd args))
           (Some off) (active_slaves (m_shared m)) 0
           (gtp_replies (m_shared m)).
Proof.
  unfold Coordinator.update_cmd.
  destruct (gtp_cmd (m_shared m)) as [off|]; [|discriminate].
  destruct (fresh_id _ _ rnd) as [[id rnd0]|]; [|discriminate].
  intros [= <- <-]. exists off. repeat split.
Qed.

Lemma translate_names (cmd : cstring) :
  (strcasecmp0 cmd (str "genmove") = true ->
   translate cmd = str "pachi-genmoves")
  /\ (strcasecmp0 cmd (str "kgs-genmove_cleanup") = true ->
      translate cmd = str "pachi-genmoves_cleanup")
  /\ (strcasecmp0 cmd (str "final_score") = true ->
      translate cmd = str "final_status_list").
Proof.
  unfold translate, strcasecmp0. repeat split; intros H.
  - now rewrite H.
  - apply WorkerFacts.cstr_eqb_eq in H. rewrite H. reflexivity.
  - apply WorkerFacts.cstr_eqb_eq in H. rewrite H. reflexivity.
Qed.

(** The wait policy of [distributed_notify] for a command that is sent to
    the slaves.  [genmove], [kgs-genmove_cleanup] and [final_score] go
    out under the names [pachi-genmoves], [pachi-genmoves_cleanup] and
    [final_status_list], and for these the function returns at once,
    with [reply_count] 0 and no wait.  For every other command it
    returns only with one reply at least. *)
Theorem notify_wait_policy (slaves_quit : bool) (m : master) (moves : Z)
    (cmd args : cstring) (rnd : list Z) (wakes : list wake)
    (m1 : master) (rnd1 : list Z) :
  not_forwarded slaves_quit cmd = false ->
  append_cmd m moves cmd args rnd = Some (m1, rnd1) ->
  Forall (fun k => 0 <= reply_count (w_state k)) wakes ->
  let n := distributed_notify slaves_quit m moves cmd args rnd wakes in
  (strcasecmp0 cmd (str "genmove") = true
   \/ strcasecmp0 cmd (str "kgs-genmove_cleanup") = true
   \/ strcasecmp0 cmd (str "final_score") = true ->
   replies_later (translate cmd) = true)
  /\ (replies_later (translate cmd) = true ->
      n = mkNotified (Some P_OK) m1 [CLock; CBroadcastCmd; CUnlock]
      /\ reply_count (m_shared m1) = 0)
  /\ (replies_later (translate cmd) = false ->
      n_code n = Some P_OK ->
      1 <= reply_count (m_shared (n_master n))
      /\ exists ws,
           n_events n = [CLock; CBroadcastCmd] ++ map CWaitReply ws
                        ++ [CUnlock]).
Proof.
  intros Hfw Happ Hwakes n.
  assert (Hrc : reply_count (m_shared m1) = 0).
  { unfold Coordinator.append_cmd in Happ.
    destruct (match gtp_cmd (m_shared m) with
              | Some off =>
                  if is_gamestart cmd
                  then Some (set_log (m_shared m) (gtp_cmds (m_shared m))
                               (Some O))
                  else keep_history prevent_reply (m_shared m) off
              | None => Some (set_log (m_shared m) (gtp_cmds (m_shared m))
                                (Some O))
              end) as [s1|]; [|discriminate].
    apply update_cmd_result in Happ as (off & _ & _ & ->). reflexivity. }
  split; [|split].
  - destruct (translate_names cmd) as (T1 & T2 & T3).
    intros [H|[H|H]]; [rewrite (T1 H)|rewrite (T2 H)|rewrite (T3 H)];
      reflexivity.
  - intros Hl. subst n. unfold Coordinator.distributed_notify.
    rewrite Hfw, Happ, Hl. now split.
  - intros Hl. subst n. unfold Coordinator.distributed_notify.
    rewrite Hfw, Happ, Hl.
    destruct (get_replies 0 (m_shared m1) wakes) as [ws [s2|]] eqn:G;
      simpl; [|discriminate].
    intros _. split; [|now exists ws].
    assert (G2 : snd (get_replies 0 (m_shared m1) wakes) = Some s2)
      by now rewrite G.
    pose proof (QuorumFacts.get_replies_returns _ _ _ _ G2) as Hne.
    destruct (QuorumFacts.get_replies_state _ _ _ _ G2) as [->|Hin].
    + congruence.
    + apply in_map_iff in Hin as (k & <- & Hin).
      rewrite Forall_forall in Hwakes.
      apply list_elem_of_In, Hwakes in Hin. lia.
Qed.

(** A command that starts a game, and the first command ever, restart
    the log: whatever the log held, it now holds the new command alone,
    at the start of the buffer, cut to the size of the buffer. *)
Theorem gamestart_restarts_log (m : master) (moves : Z) (cmd args : cstring)
    (rnd : list Z) (m' : master) (rnd' : list Z) :
  gtp_cmd (m_shared m) = None \/ is_gamestart cmd = true ->
  append_cmd m moves cmd args rnd = Some (m', rnd') ->
  gtp_cmd (m_shared m') = Some O
  /\ gtp_cmds (m_shared m')
     = firstn (CMDS_SIZE - 1)
         (command_text (m_gtp_id m') (translate cmd) args)
  /\ reply_count (m_shared m') = 0
  /\ m_gtp_id m' <> m_gtp_id m.
Proof.
  intros H Happ. unfold Coordinator.append_cmd in Happ.
  assert (E : update_cmd
                (mkMaster (set_log (m_shared m) (gtp_cmds (m_shared m))
                             (Some O)) (m_gtp_id m))
                moves (translate cmd) args rnd = Some (m', rnd')).
  { destruct (gtp_cmd (m_shared m)) as [off|]; [|exact Happ].
    destruct H as [H|H]; [discriminate|]. now rewrite H in Happ. }
  apply update_cmd_result in E as (off & Hoff & Hid & ->).
  simpl in Hoff. injection Hoff as <-. simpl.
  apply CoordinatorFacts.fresh_id_new in Hid as [Hne _].
  repeat split; try assumption.
  unfold write_cmd. simpl. now rewrite Nat.sub_0_r.
Qed.

(** [distributed_genmove] never fails the assertion of
    [select_best_move]: when [get_replies] has returned, the slots
    counted by [reply_count] are within the reply array and address
    buffers, the lines read from these are well formed, and a new id is
    found, the move is selected and the play command is issued, with the
    broadcast and the unlock at the end. *)
Theorem genmove_selects (m : master) (moves time_limit : Z) (color : stone)
    (rnd : list Z) (wakes : list wake) (bufs : buffers) (ws : list wait)
    (s1 : shared) (rs : list cstring) (off : nat) (id : Z) (rnd' : list Z) :
  get_replies (inject_Z time_limit) (m_shared m) wakes = (ws, Some s1) ->
  0 <= reply_count s1 ->
  replies_of bufs s1 = Some rs ->
  on_board board_size2 pass ->
  well_formed board_size board_size2 str2coord (all_lines rs) ->
  gtp_cmd s1 = Some off ->
  fresh_id moves (m_gtp_id m) rnd = Some (id, rnd') ->
  is_reset (str "play") = false ->
  exists sel,
    select_best_move rs = Some sel
    /\ distributed_genmove m moves time_limit color rnd wakes bufs
       = mkGenerated (Some sel)
           (mkMaster
              (mkShared
                 (write_cmd CMDS_SIZE (gtp_cmds s1) off
                    (command_text id (str "play")
                       (play_args stone stone2str coord2str color
                          (sel_move sel))))
                 (Some off) (active_slaves s1) 0 (gtp_replies s1))
              id)
           ((CLock :: map CWaitReply ws) ++ [CBroadcastCmd; CUnlock]).
Proof.
  intros G Hrc Hrs Hpass Hwf Hoff Hid Hreset.
  assert (G2 : snd (get_replies (inject_Z time_limit) (m_shared m) wakes)
               = Some s1) by now rewrite G.
  pose proof (QuorumFacts.get_replies_returns _ _ _ _ G2) as Hne.
  assert (Hn : rs <> []).
  { pose proof (replies_of_length _ _ _ Hrs) as Hl.
    intros ->. simpl in Hl. lia. }
  destruct (AggregatorFacts.select_best_move_lines pass board_size
              board_size2 str2coord rs Hpass Hn Hwf)
    as (a & _ & Hsel & _).
  eexists. split; [exact Hsel|].
  unfold Coordinator.distributed_genmove, select_replies.
  rewrite G, Hrs, Hsel.
  unfold Coordinator.update_cmd. cbn [m_shared m_gtp_id].
  rewrite Hoff, Hreset, Hid. reflexivity.
Qed.

End WithHeaders.

Lemma notify_wait_policy_witness :
  let m := mkMaster (mkShared (str "4000 boardsize 19" ++ [NL]) (Some O)
                       1 1 [Some 0%nat]) 4000 in
  Sample.notify false m 0 (str "GenMove") (str "b" ++ [NL]) [7] []
  = mkNotified (Some P_OK)
      (mkMaster
         (mkShared (str "0000 boardsize 19" ++ [NL]
                    ++ str "8000 pachi-genmoves b" ++ [NL])
            (Some 18%nat) 1 0 [Some 0%nat]) 8000)
      [CLock; CBroadcastCmd; CUnlock].
Proof.
  intros m.
  edestruct (notify_wait_policy Sample.DIST_GAMELEN Sample.force_reply
               Sample.prevent_reply Sample.is_gamestart Sample.is_reset
               Sample.CMDS_SIZE false m 0 (str "GenMove") (str "b" ++ [NL])
               [7] []) as (H1 & H2 & _).
  - reflexivity.
  - vm_compute. reflexivity.
  - constructor.
  - apply H2. apply H1. left. reflexivity.
Defined.

Lemma gamestart_restarts_log_witness :
  let m := mkMaster (mkShared (str "0000 boardsize 19" ++ [NL]
                               ++ str "8000 play b D4" ++ [NL])
                       (Some 18%nat) 1 1 [Some 0%nat]) 8000 in
  exists m',
    append_cmd Sample.DIST_GAMELEN Sample.force_reply Sample.prevent_reply
      Sample.is_gamestart Sample.is_reset Sample.CMDS_SIZE m 1
      (str "boardsize") (str "9" ++ [NL]) [5] = Some (m', [])
    /\ gtp_cmd (m_shared m') = Some O
    /\ reply_count (m_shared m') = 0.
Proof.
  intros m. eexists. split; [vm_compute; reflexivity|].
  edestruct (gamestart_restarts_log Sample.DIST_GAMELEN Sample.force_reply
               Sample.prevent_reply Sample.is_gamestart Sample.is_reset
               Sample.CMDS_SIZE m 1 (str "boardsize") (str "9" ++ [NL]) [5])
    as (H1 & _ & H3 & _).
  - right. reflexivity.
  - vm_compute. reflexivity.
  - split; [exact H1|exact H3].
Defined.

Lemma genmove_selects_witness :
  let log := str "0000 boardsize 19" ++ [NL] ++ str "8000 pachi-genmoves b"
             ++ [NL] in
  let m := mkMaster (mkShared log (Some 18%nat) 1 0 [None]) 8000 in
  let answer := str "=8000 100 1" ++ [NL] ++ str "D4 100 0.5" ++ [NL; NL] in
  exists sel,
    g_move (Sample.genmove m 0 0 Sample.Black [9]
              [mkWake (Sample.with_replies (m_shared m) 1) 2] [answer])
    = Some sel.
Proof.
  intros log m answer.
  edestruct (genmove_selects Sample.DIST_GAMELEN Sample.force_reply
               Sample.is_reset Sample.CMDS_SIZE Sample.colour
               Sample.colour_str (Sample.coord_str 21) (-1) 21 441 gtp_coord
               m 0 0 Sample.Black [9]
               [mkWake (Sample.with_replies (m_shared m) 1) 2] [answer])
    as (sel & _ & H).
  - vm_compute. reflexivity.
  - simpl. lia.
  - reflexivity.
  - unfold on_board. lia.
  - apply AggregatorFacts.well_formedb_ok. vm_compute. reflexivity.
  - reflexivity.
  - vm_compute. reflexivity.
  - reflexivity.
  - exists sel. unfold Sample.genmove. now rewrite H.
Defined.

End CoordinatorMore.

(** ** From the coordinator to the slave threads *)

Module SyncFacts.

Import Coordinator Worker LibcFacts.

Section WithHeaders.

Variable DIST_GAMELEN : Z.
Variable force_reply : Z -> Z.
Variable is_reset : cstring -> bool.
Variable CMDS_SIZE : nat.
Variable slave_buf : nat.

(** An id made from a move number and 16 random bits is an [int]. *)
Hypothesis force_reply_int :
  forall mv r,
    0 <= mv < DIST_GAMELEN -> 0 <= r < 65535 ->
    0 <= force_reply (mv + r * DIST_GAMELEN) <= INT_MAX.

Local Abbreviation update_cmd :=
  (update_cmd DIST_GAMELEN force_reply is_reset CMDS_SIZE).
Local Abbreviation slave_iter := (slave_iter CMDS_SIZE slave_buf).

(** A new command reaches a slave thread that is in step.  After
    [update_cmd], the id that a thread reads at [gtp_cmd] is the new
    [gtp_id], which differs from the one before; so a thread that has
    answered the command before and waits on [cmd_cond] leaves its wait at
    the first wake-up, and what it sends is the new command and nothing
    else. *)
Theorem new_command_is_sent (m : master) (moves : Z) (cmd args : cstring)
    (rnd : list Z) (m' : master) (rnd' : list Z) (off : nat)
    (w : worker) (s : shared) (wakes : list shared) (lines : list cstring)
    (relock : shared) :
  update_cmd m moves cmd args rnd = Some (m', rnd') ->
  gtp_cmd (m_shared m) = Some off ->
  (off <= length (gtp_cmds (m_shared m)))%nat ->
  0 <= moves < DIST_GAMELEN -> random16 rnd ->
  room CMDS_SIZE (gtp_cmds (m_shared m)) cmd args ->
  cmd_id w = m_gtp_id m -> reply_id w = m_gtp_id m -> resend w = false ->
  let s' := m_shared m' in
  m_gtp_id m' <> m_gtp_id m
  /\ option_map atoi (current_cmd s') = Some (m_gtp_id m')
  /\ exists tl,
       fst (slave_iter w s (mkRound (s' :: wakes) lines relock))
       = EWaitCmd s s' :: EUnlock s'
         :: EFputs (command_text (m_gtp_id m') cmd args) :: tl.
Proof.
  intros Hup Hoff Hlen Hmv Hrnd Hroom Hc Hr Hre s'.
  apply (CoordinatorMore.update_cmd_result DIST_GAMELEN force_reply is_reset
           CMDS_SIZE) in Hup as (off' & Hoff' & Hid & Hs').
  assert (off' = off) by congruence. subst off'.
  pose proof (CoordinatorFacts.fresh_id_new _ _ _ _ _ _ _ Hid)
    as [Hne (r & Hin & Hidr)].
  assert (Hint : 0 <= m_gtp_id m' <= INT_MAX).
  { rewrite Hidr. apply force_reply_int.
    - destruct (is_reset cmd); lia.
    - unfold random16 in Hrnd. rewrite Forall_forall in Hrnd.
      now apply Hrnd, list_elem_of_In. }
  destruct (CommandLogFacts.command_text_tail (m_gtp_id m') cmd args Hint)
    as (rest & Htext & Htl).
  unfold room in Hroom.
  assert (Hcur : current_cmd s' = Some (command_text (m_gtp_id m') cmd args)).
  { unfold current_cmd, s'. rewrite Hs'. simpl. f_equal.
    unfold write_cmd.
    rewrite <- (firstn_length_le (gtp_cmds (m_shared m)) Hlen) at 1.
    rewrite CommandLogFacts.skipn_at_length. apply firstn_all2. lia. }
  assert (Hatoi : atoi (command_text (m_gtp_id m') cmd args) = m_gtp_id m').
  { rewrite Htext. now apply atoi_print_nat. }
  split; [assumption|]. split; [now rewrite Hcur; simpl; rewrite Hatoi|].
  unfold Worker.slave_iter. cbn [r_wakes r_lines r_relock wait_cmd].
  rewrite Hc, Hr, Hre, Z.eqb_refl. simpl andb. cbv iota.
  rewrite Hcur, Hatoi.
  assert (Hstop : wait_cmd
                    (mkWorker (gtp_cmd s') (m_gtp_id m') (m_gtp_id m) false
                       (buf w)) s' wakes
                  = ([], Some (mkWorker (gtp_cmd s') (m_gtp_id m')
                                 (m_gtp_id m) false (buf w), s'))).
  { destruct wakes; simpl;
      replace (m_gtp_id m' =? m_gtp_id m) with false
        by (symmetry; now apply Z.eqb_neq); reflexivity. }
  rewrite Hstop. cbn [to_send].
  assert (Hgc : gtp_cmd s' = Some off) by (unfold s'; now rewrite Hs').
  rewrite Hgc, Hcur.
  assert (Hout : firstn CMDS_SIZE (skipn off (gtp_cmds s'))
                 = command_text (m_gtp_id m') cmd args).
  { unfold current_cmd in Hcur. rewrite Hgc in Hcur.
    injection Hcur as ->. apply firstn_all2. lia. }
  rewrite Hout.
  destruct (read_reply (-1) [] lines) as [[rid reply] complete].
  destruct (negb complete); [eexists; reflexivity|].
  destruct ((rid =? atoi _) && first_is "=" reply); [|eexists; reflexivity].
  destruct (deposit relock slave_buf); eexists; reflexivity.
Qed.

End WithHeaders.

Lemma sample_force_reply_int (mv r : Z) :
  0 <= mv < Sample.DIST_GAMELEN -> 0 <= r < 65535 ->
  0 <= Sample.force_reply (mv + r * Sample.DIST_GAMELEN) <= INT_MAX.
Proof.
  unfold Sample.force_reply, Sample.DIST_GAMELEN, INT_MAX. lia.
Qed.

Lemma new_command_is_sent_witness :
  let s0 := mkShared (str "4000 boardsize 19" ++ [NL]) (Some O) 1 1
              [Some 0%nat] in
  let s1 := mkShared (str "9000 clear_board " ++ [NL]) (Some O) 1 0
              [Some 0%nat] in
  let w := mkWorker (Some O) 4000 4000 false (str "=4000" ++ [NL; NL]) in
  exists tl,
    fst (Worker.slave_iter Sample.CMDS_SIZE 0 w s0 (mkRound [s1] [] s1))
    = EWaitCmd s0 s1 :: EUnlock s1
      :: EFputs (str "9000 clear_board " ++ [NL]) :: tl.
Proof.
  intros s0 s1 w.
  edestruct (new_command_is_sent Sample.DIST_GAMELEN Sample.force_reply
               Sample.is_reset Sample.CMDS_SIZE 0 sample_force_reply_int
               (mkMaster s0 4000) 0 (str "clear_board") [] [8]
               (mkMaster s1 9000) [] O w s0 [] [] s1)
    as (_ & _ & tl & H).
  - vm_compute. reflexivity.
  - reflexivity.
  - simpl. lia.
  - unfold Sample.DIST_GAMELEN. lia.
  - repeat constructor; lia.
  - unfold room, Sample.CMDS_SIZE. simpl length. lia.
  - reflexivity.
  - reflexivity.
  - reflexivity.
  - exists tl. exact H.
Defined.

End SyncFacts.

(** ** The vote on the dead groups *)

Module DeadGroupsFacts.

Import Quorum DeadGroups.

Lemma strcasecmp_antisym (a : cstring) :
  forall b, strcasecmp b a = - strcasecmp a b.
Proof.
  induction a as [|x a IH]; intros [|y b]; simpl; try lia.
  rewrite (Z.eqb_sym (code (tolower y))).
  destruct (code (tolower x) =? code (tolower y)); [apply IH|lia].
Qed.

Lemma occurrences_app (x : cstring) (l1 l2 : list cstring) :
  occurrences x (l1 ++ l2) = (occurrences x l1 + occurrences x l2)%nat.
Proof. induction l1 as [|y l1 IH]; simpl; [reflexivity|]. rewrite IH. lia. Qed.

Lemma occurrences_perm (x : cstring) (l l' : list cstring) :
  Permutation l l' -> occurrences x l = occurrences x l'.
Proof. induction 1; simpl; lia. Qed.

Lemma occurrences_absent (x : cstring) (l : list cstring) :
  ~ In x l -> occurrences x l = O.
Proof.
  induction l as [|y l IH]; intros H; simpl; [reflexivity|].
  destruct (cstr_eqb y x) eqn:E.
  - apply WorkerFacts.cstr_eqb_eq in E. exfalso. apply H. now left.
  - rewrite IH; [reflexivity|]. intros Hin. apply H. now right.
Qed.

Lemma cstr_eqb_refl (x : cstring) : cstr_eqb x x = true.
Proof. now apply WorkerFacts.cstr_eqb_eq. Qed.

(** Any two entries of a sorted array are in order. *)
Lemma sorted_pair (l1 l2 l3 : list cstring) (a b : cstring) :
  StronglySorted (fun a b => scmp a b <= 0) (l1 ++ a :: l2 ++ b :: l3) ->
  scmp a b <= 0.
Proof.
  induction l1 as [|x l1 IH]; simpl; intros H.
  - inversion H as [|? ? _ HF]; subst. rewrite Forall_forall in HF.
    apply HF. apply list_elem_of_In, in_or_app. right. now left.
  - inversion H; subst. now apply IH.
Qed.

(** What the loop maintains after the entries [p], the last of which is
    [prev]: [count] is the number of entries equal to [prev], no string
    occurs more than [best_count] times, and the entry at [best_reply]
    occurs [best_count] times. *)
Lemma popular_loop_inv (rest : list cstring) :
  forall (p0 : list cstring) (prev : cstring) (v : vote),
    StronglySorted (fun a b => scmp a b <= 0) (p0 ++ prev :: rest) ->
    (forall a b, In a (p0 ++ prev :: rest) -> In b (p0 ++ prev :: rest) ->
                 scmp a b = 0 -> a = b) ->
    count v = occurrences prev (p0 ++ [prev]) ->
    (forall x, (occurrences x (p0 ++ [prev]) <= best_count v)%nat) ->
    (exists b, (p0 ++ [prev]) !! best_reply v = Some b
               /\ occurrences b (p0 ++ [prev]) = best_count v) ->
    let v' := popular_loop prev rest (length (p0 ++ [prev])) v in
    (forall x, (occurrences x (p0 ++ prev :: rest) <= best_count v')%nat)
    /\ exists b, (p0 ++ prev :: rest) !! best_reply v' = Some b
                 /\ occurrences b (p0 ++ prev :: rest) = best_count v'.
Proof.
  induction rest as [|cur rest IH]; intros p0 prev v Hs Hc I1 I2 I3.
  - simpl. now split.
  - cbn [popular_loop]. set (p := p0 ++ [prev]) in *.
    assert (El : p0 ++ prev :: cur :: rest = p ++ cur :: rest)
      by (unfold p; now rewrite <- app_assoc).
    assert (Hcount : (if strcmp0 cur prev then S (count v) else 1%nat)
                     = occurrences cur (p ++ [cur])).
    { rewrite occurrences_app. simpl. rewrite cstr_eqb_refl.
      unfold strcmp0. destruct (cstr_eqb cur prev) eqn:E.
      - apply WorkerFacts.cstr_eqb_eq in E. subst cur. rewrite I1. lia.
      - rewrite occurrences_absent; [reflexivity|].
        intros Hin. unfold p in Hin. apply in_app_or in Hin as [Hin|Hin].
        + apply in_split in Hin as (l1 & l2 & ->).
          assert (H1 : scmp cur prev <= 0).
          { apply (sorted_pair l1 l2 (cur :: rest)).
            now rewrite <- !app_assoc in Hs. }
          assert (H2 : scmp prev cur <= 0).
          { apply (sorted_pair (l1 ++ cur :: l2) [] rest).
            now rewrite <- !app_assoc in *. }
          assert (H3 : scmp cur prev = 0).
          { unfold scmp in *. rewrite (strcasecmp_antisym cur prev) in H2.
            lia. }
          apply Hc in H3.
          * subst cur. rewrite cstr_eqb_refl in E. discriminate.
          * apply in_or_app. right. right. now left.
          * apply in_or_app. right. now left.
        + destruct Hin as [->|[]]. rewrite cstr_eqb_refl in E.
          discriminate. }
    set (c := if strcmp0 cur prev then S (count v) else 1%nat) in *.
    replace (S (length p)) with (length ((p0 ++ [prev]) ++ [cur]))
      by (fold p; rewrite !length_app; simpl; lia).
    rewrite El. rewrite El in Hs, Hc.
    replace (p ++ cur :: rest) with ((p0 ++ [prev]) ++ cur :: rest) in *
      by reflexivity.
    apply IH.
    + exact Hs.
    + exact Hc.
    + fold p. destruct (best_count v <? c)%nat; simpl; exact Hcount.
    + fold p. intros x. rewrite occurrences_app. simpl.
      destruct (cstr_eqb cur x) eqn:E.
      * apply WorkerFacts.cstr_eqb_eq in E. subst x.
        rewrite occurrences_app in Hcount. simpl in Hcount.
        rewrite cstr_eqb_refl in Hcount.
        destruct (best_count v <? c)%nat eqn:L; simpl.
        -- lia.
        -- apply Nat.ltb_ge in L. lia.
      * specialize (I2 x).
        destruct (best_count v <? c)%nat eqn:L; simpl.
        -- apply Nat.ltb_lt in L. lia.
        -- lia.
    + fold p. destruct (best_count v <? c)%nat eqn:L; simpl.
      * exists cur. split.
        -- rewrite lookup_app_r by lia. now rewrite Nat.sub_diag.
        -- now rewrite <- Hcount.
      * apply Nat.ltb_ge in L. destruct I3 as (b & Hb & Hob).
        exists b. split.
        -- rewrite lookup_app_l; [assumption|].
           now apply lookup_lt_Some in Hb.
        -- rewrite occurrences_app. simpl.
           destruct (cstr_eqb cur b) eqn:E; [|lia].
           apply WorkerFacts.cstr_eqb_eq in E. subst b.
           rewrite occurrences_app in Hcount. simpl in Hcount.
           rewrite cstr_eqb_refl in Hcount. lia.
Qed.

Lemma most_popular_sorted (sorted : list cstring) :
  StronglySorted (fun a b => scmp a b <= 0) sorted ->
  (forall a b, In a sorted -> In b sorted -> scmp a b = 0 -> a = b) ->
  sorted <> [] ->
  exists v dead,
    most_popular sorted = Some v
    /\ sorted !! best_reply v = Some dead
    /\ occurrences dead sorted = best_count v
    /\ forall x, (occurrences x sorted <= best_count v)%nat.
Proof.
  intros Hs Hc Hne. destruct sorted as [|r0 rest]; [contradiction|].
  destruct (popular_loop_inv rest [] r0 (mkVote 0 1 1)) as (H1 & b & H2 & H3).
  - exact Hs.
  - exact Hc.
  - simpl. now rewrite cstr_eqb_refl.
  - intros x. simpl. destruct (cstr_eqb r0 x); lia.
  - exists r0. split; [reflexivity|]. simpl. now rewrite cstr_eqb_refl.
  - exists (popular_loop r0 rest 1 (mkVote 0 1 1)), b.
    split; [reflexivity|]. now repeat split.
Qed.

Lemma dead_walk_line (l t : cstring) :
  ~ In NL l -> dead_walk false (l ++ NL :: t) = dead_walk true t.
Proof.
  induction l as [|c l IH]; intros H.
  - simpl. now destruct t.
  - change ((c :: l) ++ NL :: t) with (c :: l ++ NL :: t).
    cbn [dead_walk].
    destruct (Ascii.eqb c NL) eqn:E.
    + apply Ascii.eqb_eq in E. exfalso. apply H. now left.
    + apply IH. intros Hin. apply H. now right.
Qed.

Lemma first_line_line (l t : cstring) :
  ~ In NL l -> first_line (l ++ NL :: t) = l.
Proof.
  induction l as [|c l IH]; intros H; simpl.
  - reflexivity.
  - destruct (Ascii.eqb c NL) eqn:E.
    + apply Ascii.eqb_eq in E. exfalso. apply H. now left.
    + f_equal. apply IH. intros Hin. apply H. now right.
Qed.

Lemma dead_walk_lines (ls : list cstring) (rest : cstring) :
  Forall (fun l => l <> [] /\ ~ In NL l) ls ->
  map first_line
    (dead_walk true (concat (map (fun l => l ++ [NL]) ls) ++ NL :: rest))
  = ls.
Proof.
  induction 1 as [|l ls [Hne Hnl] _ IH].
  - simpl. reflexivity.
  - destruct l as [|c l]; [contradiction|].
    assert (Hc : Ascii.eqb c NL = false).
    { destruct (Ascii.eqb c NL) eqn:E; [|reflexivity].
      apply Ascii.eqb_eq in E. exfalso. apply Hnl. now left. }
    assert (Hl : ~ In NL l) by (intros Hin; apply Hnl; now right).
    cbn [map concat]. rewrite <- !app_assoc.
    change ((c :: l) ++ [NL] ++ ?t) with (c :: l ++ NL :: t).
    cbn [dead_walk]. rewrite Hc. cbn [map].
    rewrite dead_walk_line by assumption. rewrite IH. f_equal.
    change (first_line (c :: l ++ NL :: ?t))
      with (if Ascii.eqb c NL then [] else c :: first_line (l ++ NL :: t)).
    rewrite Hc. f_equal. now apply first_line_line.
Qed.

Lemma strchr_first (hd t : cstring) (c : ascii) :
  ~ In c hd -> strchr (hd ++ c :: t) c = Some (c :: t).
Proof.
  induction hd as [|x hd IH]; intros H; simpl.
  - now rewrite Ascii.eqb_refl.
  - destruct (Ascii.eqb x c) eqn:E.
    + apply Ascii.eqb_eq in E. exfalso. apply H. now left.
    + apply IH. intros Hin. apply H. now right.
Qed.

Lemma strchr_none (s : cstring) (c : ascii) : ~ In c s -> strchr s c = None.
Proof.
  induction s as [|x s IH]; intros H; simpl; [reflexivity|].
  destruct (Ascii.eqb x c) eqn:E.
  - apply Ascii.eqb_eq in E. exfalso. apply H. now left.
  - apply IH. intros Hin. apply H. now right.
Qed.

(** The groups of a reply.  In a reply made of an id, a space, lines that
    are not empty and an empty line, [str2coord] is called once for each
    line, in order, on the text that starts with that line; what follows
    the empty line is not read.  A reply without a space yields no
    group. *)
Theorem dead_groups_lines (hd : cstring) (ls : list cstring) (rest : cstring) :
  ~ In SP hd ->
  Forall (fun l => l <> [] /\ ~ In NL l) ls ->
  map first_line
    (dead_groups
       (hd ++ SP :: concat (map (fun l => l ++ [NL]) ls) ++ NL :: rest))
  = ls
  /\ dead_groups hd = [].
Proof.
  intros Hhd Hls. split.
  - unfold dead_groups. rewrite strchr_first by assumption.
    now apply dead_walk_lines.
  - unfold dead_groups. now rewrite strchr_none.
Qed.

Lemma dead_groups_lines_witness :
  map first_line
    (dead_groups (str "=8000 A1" ++ [NL] ++ str "B2 C2" ++ [NL; NL]))
  = [str "A1"; str "B2 C2"].
Proof.
  apply (dead_groups_lines (str "=8000") [str "A1"; str "B2 C2"] []).
  - vm_compute. intuition discriminate.
  - repeat constructor; try discriminate; vm_compute; intuition discriminate.
Defined.

Lemma deref_all_map (bufs : buffers) (ps : list (option nat)) :
  forall rs, deref_all bufs ps = Some rs <-> map (deref bufs) ps = map Some rs.
Proof.
  induction ps as [|p ps IH]; intros rs; simpl.
  - split.
    + now intros [= <-].
    + destruct rs; [reflexivity|discriminate].
  - destruct (deref bufs p) as [a|].
    + destruct (deref_all bufs ps) as [rs0|] eqn:E.
      * split.
        -- intros [= <-]. simpl. f_equal. now apply IH.
        -- destruct rs as [|b rs]; [discriminate|]. simpl.
           intros [= -> H]. apply IH in H. congruence.
      * split; [discriminate|].
        destruct rs as [|b rs]; [discriminate|]. simpl.
        intros [= -> H]. apply IH in H. discriminate.
    + split; [destruct (deref_all bufs ps); discriminate|].
      destruct rs; discriminate.
Qed.

(** The strings at a permutation of the slots are a permutation of the
    strings at the slots. *)
Lemma deref_all_perm (bufs : buffers) (ps ps' : list (option nat))
    (rs : list cstring) :
  Permutation ps' ps -> deref_all bufs ps = Some rs ->
  exists rs', deref_all bufs ps' = Some rs' /\ Permutation rs' rs.
Proof.
  intros HP H. apply deref_all_map in H.
  apply (Permutation_map (deref bufs)) in HP. rewrite H in HP.
  apply Permutation_map_inv in HP as (rs' & E & HP').
  exists rs'. split; [now apply deref_all_map|now symmetry].
Qed.

(** Slots sorted by [scmp_at] address strings sorted by [scmp]. *)
Lemma deref_all_sorted (bufs : buffers) (ps : list (option nat)) :
  forall rs,
    deref_all bufs ps = Some rs ->
    StronglySorted (fun p q => scmp_at bufs p q <= 0) ps ->
    StronglySorted (fun a b => scmp a b <= 0) rs.
Proof.
  induction ps as [|p ps IH]; intros rs H HS; simpl in H.
  - injection H as <-. constructor.
  - destruct (deref bufs p) as [a|] eqn:Ep; [|discriminate].
    destruct (deref_all bufs ps) as [rs0|] eqn:E; [|discriminate].
    injection H as <-. inversion HS as [|? ? HS' HF]; subst.
    constructor; [now apply IH|].
    clear IH HS HS'. revert rs0 E.
    induction HF as [|q ps Hq _ IH]; intros rs0 E; simpl in E.
    + injection E as <-. constructor.
    + destruct (deref bufs q) as [b|] eqn:Eq; [|discriminate].
      destruct (deref_all bufs ps) as [rs1|]; [|discriminate].
      injection E as <-. constructor; [|now apply IH].
      unfold scmp_at in Hq. now rewrite Ep, Eq in Hq.
Qed.

Section WithBoard.

Variable qsort :
  (option nat -> option nat -> Z) -> list (option nat) -> list (option nat).
Variable board_size : Z.
Variable str2coord : cstring -> Z -> Z.

Local Abbreviation distributed_dead_group_list :=
  (distributed_dead_group_list qsort board_size str2coord).

(** The vote of [distributed_dead_group_list].  When [get_replies]
    returns with the slots counted by [reply_count] within the array and
    addressing the strings [replies], [qsort] returns the slots sorted,
    and replies that [strcasecmp] takes for equal are equal, the reply
    whose groups are queued is one that occurs most often among the
    replies: it occurs [best_count] times, and no reply occurs more
    often. *)
Theorem dead_group_list_plurality (s : shared) (wakes : list wake)
    (bufs : buffers) (ws : list wait) (s1 : shared)
    (slots : list (option nat)) (replies : list cstring) :
  get_replies 0 s wakes = (ws, Some s1) ->
  0 <= reply_count s1 ->
  reply_slots s1 = Some slots ->
  deref_all bufs slots = Some replies ->
  Permutation (qsort (scmp_at bufs) slots) slots ->
  StronglySorted (fun p q => scmp_at bufs p q <= 0)
    (qsort (scmp_at bufs) slots) ->
  (forall a b, In a replies -> In b replies -> scmp a b = 0 -> a = b) ->
  exists dl dead,
    distributed_dead_group_list s wakes bufs = (ws, Some dl)
    /\ In dead replies
    /\ occurrences dead replies = best_count (d_best dl)
    /\ (forall x, (occurrences x replies <= best_count (d_best dl))%nat)
    /\ d_queue dl = map (fun t => str2coord t board_size) (dead_groups dead)
    /\ reply_count (d_shared dl) = reply_count s1.
Proof.
  intros G Hrc Hslots Hreplies HP HS Hc.
  assert (G2 : snd (get_replies 0 s wakes) = Some s1) by now rewrite G.
  pose proof (QuorumFacts.get_replies_returns _ _ _ _ G2) as Hne.
  destruct (deref_all_perm bufs _ _ _ HP Hreplies) as (sorted & Hsorted & HP').
  pose proof (deref_all_sorted bufs _ _ Hsorted HS) as HS'.
  assert (Hrs : replies <> []).
  { assert (Hl : length replies = Z.to_nat (reply_count s1)).
    { apply (CoordinatorMore.replies_of_length bufs).
      unfold replies_of. now rewrite Hslots. }
    intros ->. simpl in Hl. lia. }
  assert (Hqs : sorted <> []).
  { intros E. rewrite E in HP'. apply Permutation_nil in HP'.
    contradiction. }
  destruct (most_popular_sorted sorted HS')
    as (v & dead & Hv & Hd & Ho & Hmax).
  - intros a b Ha Hb. apply Hc; eapply Permutation_in; eassumption.
  - assumption.
  - exists (mkDeadList
              (mkShared (gtp_cmds s1) (gtp_cmd s1) (active_slaves s1)
                 (reply_count s1)
                 (qsort (scmp_at bufs) slots
                  ++ skipn (Z.to_nat (reply_count s1)) (gtp_replies s1)))
              v (map (fun t => str2coord t board_size) (dead_groups dead))),
      dead.
    split; [|split; [|split; [|split; [|split]]]].
    + unfold DeadGroups.distributed_dead_group_list.
      now rewrite G, Hslots, Hsorted, Hv, Hd.
    + eapply Permutation_in; [exact HP'|].
      apply list_elem_of_In. eapply list_elem_of_lookup_2. exact Hd.
    + simpl. now rewrite <- (occurrences_perm dead _ _ HP').
    + intros x. simpl. rewrite <- (occurrences_perm x _ _ HP'). apply Hmax.
    + reflexivity.
    + reflexivity.
Qed.

End WithBoard.

Lemma dead_group_list_plurality_witness :
  let a := str "=8000 A1" ++ [NL] ++ str "B2 C2" ++ [NL; NL] in
  let b := str "=8000 A1" ++ [NL; NL] in
  let bufs := [a; b; a] in
  let s1 := mkShared [] (Some O) 3 3 [Some 0%nat; Some 1%nat; Some 2%nat] in
  exists dl,
    DeadGroups.distributed_dead_group_list insertion_sort 21
      Aggregator.gtp_coord s1 [] bufs
    = ([], Some dl)
    /\ best_count (d_best dl) = 2%nat.
Proof.
  intros a b bufs s1.
  destruct (dead_group_list_plurality insertion_sort 21 Aggregator.gtp_coord
              s1 [] bufs [] s1 [Some 0%nat; Some 1%nat; Some 2%nat] [a; b; a])
    as (dl & dead & H & _ & Ho & Hm & _).
  - reflexivity.
  - simpl. lia.
  - reflexivity.
  - reflexivity.
  - vm_compute. apply perm_swap.
  - replace (insertion_sort (scmp_at bufs)
               [Some 0%nat; Some 1%nat; Some 2%nat])
      with [Some 1%nat; Some 0%nat; Some 2%nat] by (vm_compute; reflexivity).
    repeat constructor; vm_compute; discriminate.
  - intros x y Hx Hy.
    simpl in Hx, Hy.
    destruct Hx as [<-|[<-|[<-|[]]]]; destruct Hy as [<-|[<-|[<-|[]]]];
      try reflexivity; vm_compute; discriminate.
  - exists dl. split; [exact H|].
    revert H. vm_compute. now intros [= <-].
Defined.

End DeadGroupsFacts.

(** ** The engine arguments *)

Module ConfigFacts.

Import Config.

Lemma opt_tokens_split (s : cstring) :
  forall (started : bool) (cur : cstring),
    started = true \/ s <> [] ->
    opt_tokens started cur s
    = (cur ++ firstn (strcspn_comma s) s)
      :: opt_tokens false [] (skipn (S (strcspn_comma s)) s).
Proof.
  induction s as [|c s IH]; intros started cur H.
  - destruct H as [->|H]; [|contradiction]. simpl. now rewrite app_nil_r.
  - simpl. destruct (Ascii.eqb c ","); simpl.
    + now rewrite app_nil_r.
    + rewrite IH by now left. now rewrite <- app_assoc.
Qed.

(** With fuel for every character, the loop visits the options of the
    argument in order. *)
Lemma arg_loop_options (fuel : nat) :
  forall (next : cstring) (d : distributed) (invalid : list cstring),
    (length next <= fuel)%nat ->
    arg_loop fuel next d invalid
    = fold_left turn (options next) (d, invalid).
Proof.
  induction fuel as [|fuel IH]; intros next d invalid Hlen.
  - destruct next; [reflexivity|simpl in Hlen; lia].
  - destruct next as [|c next']; [reflexivity|].
    set (next := c :: next') in *.
    unfold options. rewrite opt_tokens_split by (right; discriminate).
    cbn [fold_left app]. unfold turn at 2. cbn [fst snd].
    change (arg_loop (S fuel) next d invalid)
      with (let n := strcspn_comma next in
            let '(d', w) := set_option d (firstn n next) in
            arg_loop fuel (skipn (S n) next) d'
              (match w with
               | Some name => invalid ++ [name]
               | None => invalid
               end)).
    cbv zeta.
    destruct (set_option d (firstn (strcspn_comma next) next)) as [d' w].
    apply IH. rewrite length_skipn. unfold next in *. simpl in *. lia.
Qed.

Lemma last_option_snoc (key : cstring) (valued : bool) (opts : list cstring)
    (o : cstring) :
  last_option key valued (opts ++ [o])
  = (let '(n, v) := split_eq o in
     if strcasecmp0 n key && (negb valued || is_some v) then Some v
     else last_option key valued opts).
Proof.
  induction opts as [|o' opts IH]; simpl.
  - destruct (split_eq o) as [n v].
    now destruct (strcasecmp0 n key && (negb valued || is_some v)).
  - rewrite IH. destruct (split_eq o) as [n v].
    now destruct (strcasecmp0 n key && (negb valued || is_some v)).
Qed.

Lemma last_option_valued (key : cstring) (opts : list cstring) :
  last_option key true opts <> Some None.
Proof.
  induction opts as [|o opts IH]; cbn [last_option]; [discriminate|].
  destruct (last_option key true opts) as [v|]; [exact IH|].
  destruct (split_eq o) as [n v].
  destruct (strcasecmp0 n key); cbn; [|discriminate].
  destruct v; cbn; discriminate.
Qed.

(** The four names exclude one another. *)
Lemma names_apart (n : cstring) :
  (strcasecmp0 n (str "slave_port") = true ->
   strcasecmp0 n (str "proxy_port") = false
   /\ strcasecmp0 n (str "max_slaves") = false
   /\ strcasecmp0 n (str "slaves_quit") = false)
  /\ (strcasecmp0 n (str "proxy_port") = true ->
      strcasecmp0 n (str "max_slaves") = false
      /\ strcasecmp0 n (str "slaves_quit") = false)
  /\ (strcasecmp0 n (str "max_slaves") = true ->
      strcasecmp0 n (str "slaves_quit") = false).
Proof.
  unfold strcasecmp0. repeat split; intros;
    match goal with
    | E : cstr_eqb _ _ = true |- _ =>
        apply WorkerFacts.cstr_eqb_eq in E; rewrite E; reflexivity
    end.
Qed.

(** The effect of one option on each field. *)
Lemma set_option_fields (d : distributed) (o : cstring) :
  let n := fst (split_eq o) in
  let v := snd (split_eq o) in
  let d' := fst (set_option d o) in
  slave_port d'
  = (if strcasecmp0 n (str "slave_port") && is_some v then v
     else slave_port d)
  /\ proxy_port d'
     = (if strcasecmp0 n (str "proxy_port") && is_some v then v
        else proxy_port d)
  /\ max_slaves d'
     = (if strcasecmp0 n (str "max_slaves") && is_some v
        then match v with Some x => atoi x | None => 0 end
        else max_slaves d)
  /\ slaves_quit d'
     = (if strcasecmp0 n (str "slaves_quit")
        then match v with Some x => negb (atoi x =? 0) | None => true end
        else slaves_quit d)
  /\ snd (set_option d o) = (if valid_option o then None else Some n).
Proof.
  unfold set_option, valid_option. destruct (split_eq o) as [n v].
  cbn [fst snd].
  destruct (names_apart n) as (A1 & A2 & A3).
  destruct (strcasecmp0 n (str "slave_port")) eqn:E1.
  { destruct (A1 eq_refl) as (-> & -> & ->).
    destruct (is_some v); cbn; repeat split. }
  destruct (strcasecmp0 n (str "proxy_port")) eqn:E2.
  { destruct (A2 eq_refl) as (-> & ->).
    destruct (is_some v); cbn; repeat split. }
  destruct (strcasecmp0 n (str "max_slaves")) eqn:E3.
  { rewrite (A3 eq_refl). destruct (is_some v); cbn; repeat split. }
  destruct (strcasecmp0 n (str "slaves_quit")); cbn; repeat split.
Qed.

Lemma fold_turn_fields (opts : list cstring) (d0 : distributed)
    (inv0 : list cstring) :
  let d := fst (fold_left turn opts (d0, inv0)) in
  slave_port d
  = match last_option (str "slave_port") true opts with
    | Some v => v
    | None => slave_port d0
    end
  /\ proxy_port d
     = match last_option (str "proxy_port") true opts with
       | Some v => v
       | None => proxy_port d0
       end
  /\ max_slaves d
     = match last_option (str "max_slaves") true opts with
       | Some (Some x) => atoi x
       | Some None => 0
       | None => max_slaves d0
       end
  /\ slaves_quit d
     = match last_option (str "slaves_quit") false opts with
       | Some (Some x) => negb (atoi x =? 0)
       | Some None => true
       | None => slaves_quit d0
       end
  /\ snd (fold_left turn opts (d0, inv0))
     = inv0 ++ map (fun o => fst (split_eq o))
                 (List.filter (fun o => negb (valid_option o)) opts).
Proof.
  induction opts as [|o opts IH] using rev_ind.
  - simpl. rewrite app_nil_r. repeat split.
  - rewrite fold_left_app. cbn [fold_left].
    destruct (fold_left turn opts (d0, inv0)) as [d1 inv1].
    simpl in IH. destruct IH as (I1 & I2 & I3 & I4 & I5).
    unfold turn. cbn [fst snd].
    pose proof (set_option_fields d1 o) as (F1 & F2 & F3 & F4 & F5).
    destruct (set_option d1 o) as [d' w]. cbn [fst snd] in *.
    rewrite !last_option_snoc, List.filter_app, map_app, app_assoc.
    destruct (split_eq o) as [n v] eqn:Es. cbn [fst snd] in *.
    rewrite F1, F2, F3, F4, F5. simpl negb. simpl orb.
    repeat split.
    + now destruct (strcasecmp0 n (str "slave_port") && is_some v).
    + now destruct (strcasecmp0 n (str "proxy_port") && is_some v).
    + destruct (strcasecmp0 n (str "max_slaves") && is_some v) eqn:E;
        [|assumption].
      apply andb_true_iff in E as [_ E]. now destruct v.
    + rewrite andb_true_r.
      now destruct (strcasecmp0 n (str "slaves_quit")).
    + cbn [List.filter]. destruct (valid_option o); cbn [negb map];
        rewrite <- I5.
      * now rewrite app_nil_r.
      * now rewrite Es.
Qed.

(** The arguments of the engine.  Each setting takes the value of the
    last option that names it, the letters of the name in any case;
    [slave_port], [proxy_port] and [max_slaves] only count with a value,
    [slaves_quit] without a value is true; a setting that no option
    names keeps its default (no port, 100 slaves, no quit).  The names
    of the options that are not valid are reported in order, and change
    nothing. *)
Theorem state_init_last_option_wins (arg : cstring) :
  let opts := options arg in
  let '(d, invalid) := arg_loop (length arg) arg defaults [] in
  slave_port d
  = match last_option (str "slave_port") true opts with
    | Some v => v
    | None => None
    end
  /\ proxy_port d
     = match last_option (str "proxy_port") true opts with
       | Some v => v
       | None => None
       end
  /\ max_slaves d
     = match last_option (str "max_slaves") true opts with
       | Some (Some x) => atoi x
       | _ => 100
       end
  /\ slaves_quit d
     = match last_option (str "slaves_quit") false opts with
       | Some (Some x) => negb (atoi x =? 0)
       | Some None => true
       | None => false
       end
  /\ invalid = map (fun o => fst (split_eq o))
                 (List.filter (fun o => negb (valid_option o)) opts).
Proof.
  intros opts. rewrite arg_loop_options by lia.
  pose proof (fold_turn_fields opts defaults []) as (H1 & H2 & H3 & H4 & H5).
  fold opts. destruct (fold_left turn opts (defaults, [])) as [d invalid].
  cbn [fst snd] in *. repeat split; try assumption.
  rewrite H3.
  destruct (last_option (str "max_slaves") true opts) as [[x|]|] eqn:E;
    try reflexivity.
  exfalso. now apply last_option_valued in E.
Qed.

Lemma last_option_none (key : cstring) (opts : list cstring) :
  last_option key true opts = None
  <-> forallb (fun o => negb (strcasecmp0 (fst (split_eq o)) key
                              && is_some (snd (split_eq o)))) opts
      = true.
Proof.
  induction opts as [|o opts IH]; cbn [last_option forallb].
  - tauto.
  - destruct (last_option key true opts) as [v|].
    + split; [discriminate|]. intros H. apply andb_true_iff in H as [_ H'].
      apply IH in H'. discriminate.
    + destruct (split_eq o) as [n v]. cbn [fst snd negb orb].
      destruct (strcasecmp0 n key && is_some v); cbn [negb andb].
      * split; discriminate.
      * apply IH.
Qed.

(** [distributed_state_init] exits exactly when no option gives a value
    to [slave_port]: without an argument, and with an argument none of
    whose options is named [slave_port] and has a value.  Otherwise it
    starts [max_slaves] slave threads, as many proxy threads if there is
    a proxy port and none if not, and the reply array has [max_slaves]
    slots. *)
Theorem state_init_exits_without_port (arg : option cstring) :
  let named_port o :=
    strcasecmp0 (fst (split_eq o)) (str "slave_port")
    && is_some (snd (split_eq o)) in
  let no_port :=
    match arg with
    | None => true
    | Some a => forallb (fun o => negb (named_port o)) (options a)
    end in
  (no_port = true -> exists invalid, distributed_state_init arg = Exit1 invalid)
  /\ (no_port = false ->
      exists d invalid,
        distributed_state_init arg
        = Started d invalid (replicate (Z.to_nat (max_slaves d)) None)
            (Z.to_nat (max_slaves d))
            (if is_some (proxy_port d) then Z.to_nat (max_slaves d) else O)
        /\ is_some (slave_port d) = true).
Proof.
  intros named_port no_port. unfold distributed_state_init.
  destruct arg as [a|].
  - pose proof (state_init_last_option_wins a) as H. cbv zeta in H.
    destruct (arg_loop (length a) a defaults []) as [d invalid].
    destruct H as (H1 & _).
    pose proof (last_option_none (str "slave_port") (options a)) as N.
    unfold named_port in *.
    split; intros Hn; subst no_port.
    + apply N in Hn. rewrite Hn in H1. rewrite H1. now exists invalid.
    + destruct (slave_port d) eqn:E.
      * exists d, invalid. split; [reflexivity|]. now rewrite E.
      * exfalso. destruct (last_option (str "slave_port") true (options a))
          as [v|] eqn:L.
        -- subst v. now apply last_option_valued in L.
        -- destruct N as [N _]. rewrite (N eq_refl) in Hn. discriminate.
  - split; intros Hn; subst no_port; [|discriminate].
    now exists [].
Qed.

Lemma state_init_exits_without_port_witness :
  distributed_state_init (Some (str "proxy_port=1235,slave_port,bogus=1"))
  = Exit1 [str "slave_port"; str "bogus"].
Proof.
  destruct (state_init_exits_without_port
              (Some (str "proxy_port=1235,slave_port,bogus=1")))
    as [H _].
  destruct (H eq_refl) as (invalid & E).
  rewrite E. revert E. vm_compute. now intros [= <-].
Defined.

End ConfigFacts.

(** ** More on the aggregation, the log and the first command sent *)

Module AggregatorMore.

Import Aggregator.

Section WithBoard.

Variable pass : Z.
Variable board_size : Z.
Variable board_size2 : nat.
Variable str2coord : cstring -> Z -> Z.

Local Abbreviation select_best_move :=
  (select_best_move pass board_size board_size2 str2coord).

(** Whenever [select_best_move] returns, the totals it returns are the
    [int] sums of the playouts and of the threads of every reply whose
    header parses: a reply counts in the totals whether or not its lines
    are read, and a reply whose header does not parse counts for
    nothing. *)
Theorem select_best_move_totals (rs : list cstring) (sel : selection) :
  select_best_move rs = Some sel ->
  sel_playouts sel = wrap_int (fst (header_sums rs))
  /\ sel_threads sel = wrap_int (snd (header_sums rs)).
Proof.
  destruct rs as [|r rs]; [discriminate|].
  remember (r :: rs) as rs' eqn:Hrs.
  unfold Aggregator.select_best_move. rewrite Hrs at 1. clear Hrs.
  rewrite AggregatorFacts.add_replies_lines.
  destruct (add_lines board_size str2coord (init_acc pass board_size2)
              (all_lines rs')) as [a|]; [|discriminate].
  cbn [option_map with_totals stats best_move total_playouts total_threads
       init_acc].
  destruct (stats_get (stats a) (best_move a)); [|discriminate].
  intros [= <-]. cbn [sel_playouts sel_threads].
  rewrite AggregatorFacts.add_headers_sums by reflexivity.
  cbn [fst snd]. split; reflexivity.
Qed.

End WithBoard.

Lemma select_best_move_totals_witness :
  let rs := [str "=1 100 2" ++ [NL] ++ str "foo" ++ [NL];
             str "?2 bad";
             str "=1 50 4" ++ [NL] ++ str "D4 50 0.5" ++ [NL]] in
  option_map sel_playouts
    (Aggregator.select_best_move (-1) 21 441 gtp_coord rs) = Some 150
  /\ option_map sel_threads
       (Aggregator.select_best_move (-1) 21 441 gtp_coord rs) = Some 6.
Proof.
  intros rs.
  destruct (Aggregator.select_best_move (-1) 21 441 gtp_coord rs)
    as [sel|] eqn:E; [|vm_compute in E; discriminate].
  destruct (select_best_move_totals (-1) 21 441 gtp_coord rs sel E)
    as [H1 H2].
  simpl. rewrite H1, H2. split; reflexivity.
Defined.

End AggregatorMore.

Module CommandLogMore.

Import Coordinator LibcFacts.

Section WithHeaders.

Variable DIST_GAMELEN : Z.
Variable force_reply : Z -> Z.
Variable prevent_reply : Z -> Z.
Variable is_gamestart : cstring -> bool.
Variable is_reset : cstring -> bool.
Variable CMDS_SIZE : nat.
Variable reply_disabled : Z -> bool.

Hypothesis force_reply_ok :
  forall mv r,
    0 <= mv < DIST_GAMELEN -> 0 <= r < 65535 ->
    0 <= force_reply (mv + r * DIST_GAMELEN) <= INT_MAX
    /\ reply_disabled (force_reply (mv + r * DIST_GAMELEN)) = false.
Hypothesis prevent_reply_ok :
  forall id,
    0 <= id ->
    0 <= prevent_reply id <= id /\ reply_disabled (prevent_reply id) = true.

Local Abbreviation append_cmd :=
  (append_cmd DIST_GAMELEN force_reply prevent_reply is_gamestart is_reset
     CMDS_SIZE).
Local Abbreviation reachable :=
  (reachable DIST_GAMELEN force_reply prevent_reply is_gamestart is_reset
     CMDS_SIZE).

(** The log is append-only within a game.  A command that does not
    start a game is written after the log as the rewrite of the id has
    left it: the new log is that log followed by the text of the new
    command, whole, and [gtp_cmd] points at the new command. *)
Theorem append_keeps_history (m : master) (moves : Z) (cmd args : cstring)
    (rnd : list Z) (m' : master) (rnd' : list Z) (off : nat) :
  reachable m ->
  gtp_cmd (m_shared m) = Some off ->
  is_gamestart cmd = false ->
  0 <= moves < DIST_GAMELEN -> random16 rnd ->
  room CMDS_SIZE (gtp_cmds (m_shared m)) (translate cmd) args ->
  append_cmd m moves cmd args rnd = Some (m', rnd') ->
  exists s1,
    keep_history prevent_reply (m_shared m) off = Some s1
    /\ gtp_cmds (m_shared m')
       = gtp_cmds s1 ++ command_text (m_gtp_id m') (translate cmd) args
    /\ gtp_cmd (m_shared m') = Some (length (gtp_cmds (m_shared m)))
    /\ length (gtp_cmds s1) = length (gtp_cmds (m_shared m))
    /\ firstn off (gtp_cmds s1) = firstn off (gtp_cmds (m_shared m)).
Proof.
  intros Hm Hoff Hgs Hmv Hrnd Hroom Happ.
  destruct (CommandLogFacts.reachable_tail DIST_GAMELEN force_reply
              prevent_reply is_gamestart is_reset CMDS_SIZE reply_disabled
              force_reply_ok prevent_reply_ok _ m Hm)
    as [Hn|(pre & tail & Hlog & Hoff' & Htail)]; [congruence|].
  assert (off = length pre) by congruence. subst off.
  destruct (CommandLogFacts.keep_history_inv prevent_reply reply_disabled
              prevent_reply_ok _ pre tail Hlog Htail)
    as (tail' & Hk & _ & Hl & _).
  unfold Coordinator.append_cmd in Happ. rewrite Hoff, Hgs, Hk in Happ.
  apply (CoordinatorMore.update_cmd_result DIST_GAMELEN force_reply is_reset
           CMDS_SIZE) in Happ as (off1 & Hoff1 & Hid & Hs').
  cbn [m_shared m_gtp_id set_log gtp_cmd gtp_cmds] in *.
  injection Hoff1 as <-.
  destruct (CommandLogFacts.fresh_id_ok DIST_GAMELEN force_reply
              reply_disabled force_reply_ok _ _ _ _ _ Hid) as [Hint _];
    [destruct (is_reset (translate cmd)); lia|assumption|].
  destruct (CommandLogFacts.command_text_tail (m_gtp_id m') (translate cmd)
              args Hint) as (rest & _ & Htl).
  assert (Hlen : length (pre ++ tail') = length (gtp_cmds (m_shared m))).
  { rewrite Hlog, !length_app. lia. }
  eexists. split; [exact Hk|]. rewrite Hs'. cbn [gtp_cmds gtp_cmd set_log].
  unfold room in Hroom.
  split; [|split; [|split]].
  - unfold write_cmd. rewrite firstn_all. f_equal.
    apply firstn_all2. lia.
  - now rewrite Hlen.
  - exact Hlen.
  - rewrite Hlog. now rewrite !CommandLogFacts.firstn_at_length.
Qed.

End WithHeaders.

Lemma append_keeps_history_witness :
  let m1 := mkMaster (mkShared (str "4000 boardsize 19" ++ [NL])
                        (Some O) 1 0 [None]) 4000 in
  exists m',
    append_cmd Sample.DIST_GAMELEN Sample.force_reply Sample.prevent_reply
      Sample.is_gamestart Sample.is_reset Sample.CMDS_SIZE m1 1
      (str "play") (str "b D4" ++ [NL]) [7] = Some (m', [])
    /\ gtp_cmds (m_shared m')
       = str "0000 boardsize 19" ++ [NL] ++ str "8001 play b D4" ++ [NL].
Proof.
  intros m1.
  pose (m0 := mkMaster (mkShared [] None 1 0 [None]) (-1)).
  assert (R1 : reachable Sample.DIST_GAMELEN Sample.force_reply
                 Sample.prevent_reply Sample.is_gamestart Sample.is_reset
                 Sample.CMDS_SIZE m1).
  { apply (reach_notify _ _ _ _ _ _ _ m0 0 (str "boardsize")
             (str "19" ++ [NL]) [3] m1 []).
    - apply reach_start. reflexivity.
    - exact I.
    - unfold Sample.DIST_GAMELEN. lia.
    - repeat constructor; lia.
    - unfold room, Sample.CMDS_SIZE. simpl length. lia.
    - vm_compute. reflexivity. }
  eexists. split; [vm_compute; reflexivity|].
  edestruct (append_keeps_history Sample.DIST_GAMELEN Sample.force_reply
               Sample.prevent_reply Sample.is_gamestart Sample.is_reset
               Sample.CMDS_SIZE Sample.reply_disabled
               CommandLogFacts.sample_force_reply_ok
               CommandLogFacts.sample_prevent_reply_ok
               m1 1 (str "play") (str "b D4" ++ [NL]) [7])
    as (s1 & Hk & Hlog & _).
  - exact R1.
  - reflexivity.
  - reflexivity.
  - unfold Sample.DIST_GAMELEN. lia.
  - repeat constructor; lia.
  - unfold room, Sample.CMDS_SIZE. simpl length. lia.
  - vm_compute. reflexivity.
  - rewrite Hlog. revert Hk. vm_compute. now intros [= <-].
Defined.

End CommandLogMore.

Module ConnectionFacts.

Import Worker WorkerRuns.

Section WithSize.

Variable CMDS_SIZE : nat.
Variable slave_buf : nat.

Local Abbreviation slave_thread := (slave_thread CMDS_SIZE slave_buf).


End WithSize.


End ConnectionFacts.
